(** * Pursuit engine of the grid game (grid-game-v4.py)

    A shallow embedding of the pathfinding layer, the movement predictor,
    the two adversaries' turn logic and the turn loop of the game, followed
    by the properties of the engine proved on that embedding.

    Conventions.
    - A position is a Python list [[r, c]] (or the tuple [(r, c)]); both are
      the pair [(r, c) : Z * Z] here, and Python's [==] on them is Leibniz
      equality.
    - The grid is a list of rows of tiles, as [make_grid] builds it.
    - The dictionary [prev] of the search is a [gmap]; the trap set is a
      [gset]; Python's insertion-ordered [Counter] is an association list.
    - Floats are IEEE binary64 (Rocq's primitive floats), Python integers
      are [Z].
    - A function that mutates an argument ([traps], the memory file)
      returns the new value next to its result; [save_game], which can
      raise, returns an option. *)

From Stdlib Require Import ZArith List Lia PrimFloat FloatOps SpecFloat.
From Stdlib Require Uint63 FloatAxioms.
From stdpp Require Import base decidable option list gmap sets.

Set Warnings "-inexact-float".

Local Open Scope Z_scope.

(* ===================================================================== *)
(** ** Configuration *)
(* ===================================================================== *)

Definition GRID_SIZE : Z := 9.
Definition NUM_OBSTACLES : Z := 12.
Definition NUM_TRAPS : Z := 3.
Definition AI_STUN_TURNS : Z := 2.
Definition MARKOV_ORDER : nat := 2.
Definition RECENCY_WEIGHT : float := 2.0%float.
Definition PREDICT_FUZZ : float := 0.15%float.
Definition CLOSE_RANGE : Z := 2.

(** The tiles a grid holds: [make_grid] writes only [EMPTY] and [WALL]
    (the other characters of the source are used by the renderer alone). *)
Inductive tile := EMPTY | WALL.

#[global] Instance tile_eq_dec : EqDecision tile.
Proof. solve_decision. Defined.

(** The direction labels "north", "south", "west", "east". *)
Inductive direction := north | south | west | east.

#[global] Instance direction_eq_dec : EqDecision direction.
Proof. solve_decision. Defined.

Abbreviation cell := (Z * Z)%type.
Abbreviation grid_t := (list (list tile)).

(** [DIRS], in the insertion order of the dictionary. *)
Definition DIRS : list (direction * (Z * Z)) :=
  [ (north, (-1, 0)); (south, (1, 0)); (west, (0, -1)); (east, (0, 1)) ].

(** [DIRS.keys()] and [DIRS.values()]. *)
Definition DIRS_keys : list direction := map fst DIRS.
Definition DIRS_values : list (Z * Z) := map snd DIRS.

(** [DIRS[label]]. *)
Definition DIRS_get (label : direction) : Z * Z :=
  match label with
  | north => (-1, 0)
  | south => (1, 0)
  | west => (0, -1)
  | east => (0, 1)
  end.

(* ===================================================================== *)
(** ** Grid access *)
(* ===================================================================== *)

(** Python's [l[i]]: a negative index counts from the end, and an index
    out of range raises IndexError ([None] here). *)
Definition py_index {A} (l : list A) (i : Z) : option A :=
  let len := Z.of_nat (length l) in
  if decide (0 <= i) then l !! Z.to_nat i
  else if decide (- len <= i) then l !! Z.to_nat (len + i)
  else None.

(** [grid[r][c]]. *)
Definition tile_at (grid : grid_t) (r c : Z) : option tile :=
  match py_index grid r with
  | Some row => py_index row c
  | None => None
  end.

(** [grid[r][c] != WALL].  Every such test in the source comes after a
    test of the bounds, and on a square grid of that side the lookup
    inside the bounds succeeds (lemma [tile_at_in_range]).  On a grid
    that is not square Python may raise IndexError there; the test is
    [false] here, and the properties below are stated for square
    grids. *)
Definition not_wall (grid : grid_t) (r c : Z) : bool :=
  match tile_at grid r c with
  | Some t => bool_decide (t ≠ WALL)
  | None => false
  end.

(** A grid as [make_grid] builds them for side [n]: [n] rows of [n] tiles. *)
Definition square (n : Z) (grid : grid_t) : Prop :=
  Z.of_nat (length grid) = n ∧ Forall (λ row, Z.of_nat (length row) = n) grid.

(** The grids of the game: squares of side [GRID_SIZE]. *)
Definition grid_ok (grid : grid_t) : Prop := square GRID_SIZE grid.

#[global] Instance square_dec n grid : Decision (square n grid).
Proof. unfold square. apply _. Defined.

#[global] Instance grid_ok_dec grid : Decision (grid_ok grid).
Proof. unfold grid_ok. apply _. Defined.

(* ===================================================================== *)
(** ** Pathfinding *)
(* ===================================================================== *)

(** [neighbors(r, c, grid)]: the generator's items, in the order it
    yields them. *)
Definition neighbors (r c : Z) (grid : grid_t) : list cell :=
  let n := Z.of_nat (length grid) in
  flat_map
    (λ '(dr, dc),
       let nr := r + dr in
       let nc := c + dc in
       if bool_decide (0 <= nr < n) && bool_decide (0 <= nc < n)
          && not_wall grid nr nc
       then [(nr, nc)] else [])
    DIRS_values.

(** What a loop of the search can come to: a value, a KeyError on the
    dictionary [prev], or the end of the iteration budget of the model. *)
Inductive outcome (A : Type) :=
| Done (a : A)
| KeyError
| OutOfFuel.
Arguments Done {A} a.
Arguments KeyError {A}.
Arguments OutOfFuel {A}.

(** The reconstruction loop
    [while prev[cur] != tuple(start): cur = prev[cur]], then [cur].
    A cell without an entry raises KeyError at [prev[cur]]; so does, one
    iteration later, the entry [None] of [start]. *)
Fixpoint walk_back (fuel : nat) (prev : gmap cell (option cell))
    (start cur : cell) : outcome cell :=
  match fuel with
  | O => OutOfFuel
  | S fuel' =>
      match prev !! cur with
      | None => KeyError
      | Some None => KeyError
      | Some (Some p) =>
          if decide (p = start) then Done cur
          else walk_back fuel' prev start p
      end
  end.

(** The [for] loop over the neighbours of the cell [u] just popped: it
    either returns from the function ([Found]) or falls through with the
    queue and the dictionary it has updated ([Next]). *)
Inductive visit_result :=
| Found (r : outcome cell)
| Next (q : list cell) (prev : gmap cell (option cell)).

Fixpoint visit (back_fuel : nat) (start target u : cell) (ns : list cell)
    (q : list cell) (prev : gmap cell (option cell)) : visit_result :=
  match ns with
  | [] => Next q prev
  | nb :: ns' =>
      match prev !! nb with
      | Some _ => visit back_fuel start target u ns' q prev
      | None =>
          let prev' := <[nb := Some u]> prev in
          if decide (nb = target)
          then Found (walk_back back_fuel prev' start nb)
          else visit back_fuel start target u ns' (q ++ [nb]) prev'
      end
  end.

(** The [while q] loop: [r, c = q.popleft()], then the [for] loop. *)
Fixpoint bfs_loop (fuel back_fuel : nat) (start target : cell)
    (grid : grid_t) (q : list cell) (prev : gmap cell (option cell))
    : outcome (option cell) :=
  match q with
  | [] => Done None
  | (r, c) :: q' =>
      match fuel with
      | O => OutOfFuel
      | S fuel' =>
          match visit back_fuel start target (r, c) (neighbors r c grid) q' prev with
          | Found (Done s) => Done (Some s)
          | Found KeyError => KeyError
          | Found OutOfFuel => OutOfFuel
          | Next q'' prev' => bfs_loop fuel' back_fuel start target grid q'' prev'
          end
      end
  end.

(** The iteration budget: one more than the number of cells of an
    [n] by [n] grid.  [bfs_run_done] shows it is never exhausted. *)
Definition bfs_fuel (grid : grid_t) : nat := S (length grid * length grid).

(** [bfs_first_step(start, target, grid)] with every way out of it. *)
Definition bfs_first_step_run (start target : cell) (grid : grid_t)
    : outcome (option cell) :=
  if decide (start = target) then Done (Some start)
  else bfs_loop (bfs_fuel grid) (bfs_fuel grid) start target grid
         [start] {[ start := None ]}.

(** [bfs_first_step(start, target, grid)]: a cell, or Python's [None]. *)
Definition bfs_first_step (start target : cell) (grid : grid_t) : option cell :=
  match bfs_first_step_run start target grid with
  | Done r => r
  | KeyError | OutOfFuel => None
  end.

(** [manhattan(a, b)]. *)
Definition manhattan (a b : cell) : Z :=
  Z.abs (a.1 - b.1) + Z.abs (a.2 - b.2).

(** [in_bounds(pos)]. *)
Definition in_bounds (pos : cell) : bool :=
  bool_decide (0 <= pos.1 < GRID_SIZE) && bool_decide (0 <= pos.2 < GRID_SIZE).

(** [try_move(pos, move_label, grid)]. *)
Definition try_move (pos : cell) (move_label : direction) (grid : grid_t) : cell :=
  let '(dr, dc) := DIRS_get move_label in
  let nr := pos.1 + dr in
  let nc := pos.2 + dc in
  if bool_decide (0 <= nr < GRID_SIZE) && bool_decide (0 <= nc < GRID_SIZE)
     && not_wall grid nr nc
  then (nr, nc) else pos.

(* ===================================================================== *)
(** ** Dictionaries, counters and numbers *)
(* ===================================================================== *)

(** A Python [dict] keeps its keys in insertion order: an association
    list without repeated keys.  Assigning to a key that is present keeps
    its place; a new key goes to the end. *)
Fixpoint dict_get {K V} `{EqDecision K} (d : list (K * V)) (k : K) : option V :=
  match d with
  | [] => None
  | (k', v) :: d' => if decide (k' = k) then Some v else dict_get d' k
  end.

Fixpoint dict_set {K V} `{EqDecision K} (d : list (K * V)) (k : K) (v : V)
    : list (K * V) :=
  match d with
  | [] => [(k, v)]
  | (k', v') :: d' =>
      if decide (k' = k) then (k', v) :: d' else (k', v') :: dict_set d' k v
  end.

(** A number of Python: an [int] or a [float]. *)
Inductive num :=
| Int (z : Z)
| Float (f : float).

(** The conversion of an [int] in arithmetic with a [float]: the nearest
    binary64 number. *)
Definition float_of_int (z : Z) : float :=
  SF2Prim (binary_normalize prec emax z 0 false).

Definition to_float (x : num) : float :=
  match x with
  | Int z => float_of_int z
  | Float f => f
  end.

(** [x + y] and [x * y] on numbers.  An [int] met by a [float] is
    converted first; the integers of the game are counts of moves, far
    below the range where Python would raise OverflowError on the
    conversion. *)
Definition py_add (x y : num) : num :=
  match x, y with
  | Int a, Int b => Int (a + b)
  | _, _ => Float (to_float x + to_float y)
  end.

Definition py_mul (x y : num) : num :=
  match x, y with
  | Int a, Int b => Int (a * b)
  | _, _ => Float (to_float x * to_float y)
  end.

(** [f <= z] and [z <= f] for a [float] and an [int]: Python compares
    the two by their exact values, without converting the [int].  A
    finite float is [m * 2 ^ e] with its sign; NaN compares false. *)
Definition float_le_int (f : float) (z : Z) : bool :=
  match Prim2SF f with
  | S754_zero _ => bool_decide (0 <= z)
  | S754_infinity negative => negative
  | S754_nan => false
  | S754_finite negative m e =>
      let v := if negative then Z.neg m else Z.pos m in
      if bool_decide (0 <= e) then bool_decide (v * 2 ^ e <= z)
      else bool_decide (v <= z * 2 ^ (- e))
  end.

Definition int_le_float (z : Z) (f : float) : bool :=
  match Prim2SF f with
  | S754_zero _ => bool_decide (z <= 0)
  | S754_infinity negative => negb negative
  | S754_nan => false
  | S754_finite negative m e =>
      let v := if negative then Z.neg m else Z.pos m in
      if bool_decide (0 <= e) then bool_decide (z <= v * 2 ^ e)
      else bool_decide (z * 2 ^ (- e) <= v)
  end.

(** [x <= y] on numbers. *)
Definition py_le (x y : num) : bool :=
  match x, y with
  | Int a, Int b => bool_decide (a <= b)
  | Int a, Float g => int_le_float a g
  | Float f, Int b => float_le_int f b
  | Float f, Float g => PrimFloat.leb f g
  end.

(** A [Counter] of moves with integer counts, and one whose values have
    been mixed with floats ([combined] in [predict_next_move]). *)
Abbreviation counter := (list (direction * Z)).
Abbreviation scores := (list (direction * num)).

(** [c[m]] and [c.get(m, 0)] on a counter: 0 for a missing key. *)
Definition count_of (c : counter) (m : direction) : Z :=
  default 0 (dict_get c m).

Definition score_of (c : scores) (m : direction) : num :=
  default (Int 0) (dict_get c m).

(** [c[m] += 1]. *)
Definition counter_incr (c : counter) (m : direction) : counter :=
  dict_set c m (count_of c m + 1).

(** [c.update(seq)] for a sequence of moves, and [Counter(seq)]. *)
Definition counter_update_seq (c : counter) (seq : list direction) : counter :=
  fold_left counter_incr seq c.

Definition Counter_of (seq : list direction) : counter :=
  counter_update_seq [] seq.

(** [combined.update(other)] for a counter [other]:
    [self[elem] = count + self.get(elem, 0)] for each of its items. *)
Definition scores_update (self : scores) (other : counter) : scores :=
  fold_left
    (λ acc '(elem, count), dict_set acc elem (py_add (Int count) (score_of acc elem)))
    other self.

(** The slices [seq[a:b]] (for [0 <= a <= b]) and [seq[-n:]] (for [n >= 1]). *)
Definition slice {A} (seq : list A) (a b : nat) : list A :=
  take (b - a) (drop a seq).

Definition last_n {A} (n : nat) (seq : list A) : list A :=
  drop (length seq - n) seq.

(* ===================================================================== *)
(** ** Memory of past games *)
(* ===================================================================== *)

(** The result strings "win", "loss" and "quit". *)
Inductive result_t := win | loss | quit.

(** An entry of the list ["games"] of the memory file. *)
Record session_record := {
  rec_moves : list direction;
  rec_result : result_t;
  rec_grid : Z;
  rec_successful_traps : Z
}.

(** The memory file: absent; present but not readable as JSON; a JSON
    object with a list of such entries under the key ["games"], as
    [save_game] writes it; or a JSON object without the key ["games"],
    such as [{}].  A document of yet another shape (a JSON value that is
    not an object, a value under ["games"] that is not a list of such
    entries) is not modelled. *)
Inductive memory_file :=
| NoFile
| Unreadable
| Games (games : list session_record)
| NoGames.

(** The dictionary [load_memory] returns, as far as the program reads
    it: the list under its key ["games"], or [None] when the dictionary
    has no such key. *)
Abbreviation memory := (option (list session_record)).

(** [load_memory()]: [{"games": []}] when the file is absent or
    [json.load] raises, and otherwise what [json.load] returns, as it
    is. *)
Definition load_memory (file : memory_file) : memory :=
  match file with
  | NoFile => Some []
  | Unreadable => Some []
  | Games games => Some games
  | NoGames => None
  end.

(** [memory.get("games", [])]. *)
Definition get_games (memory : memory) : list session_record :=
  default [] memory.

(** [save_game(moves, result, successful_traps=...)]: the file it leaves,
    or [None] when [data["games"]] raises KeyError, before anything is
    written. *)
Definition save_game (moves : list direction) (result : result_t)
    (successful_traps : Z) (file : memory_file) : option memory_file :=
  match load_memory file with
  | Some games =>
      Some (Games (games ++
              [ {| rec_moves := moves; rec_result := result;
                   rec_grid := GRID_SIZE;
                   rec_successful_traps := successful_traps |} ]))
  | None => None
  end.

(** The table of contexts of the Markov model: a [defaultdict(Counter)]
    keyed by tuples of moves. *)
Abbreviation markov := (list (list direction * counter)).

(** [model[ctx][m] += 1] on the [defaultdict]. *)
Definition markov_incr (model : markov) (ctx : list direction) (m : direction)
    : markov :=
  dict_set model ctx (counter_incr (default [] (dict_get model ctx)) m).

(** The loop [for k in range(1, order+1)] at position [i] of [seq], with
    its [break] when [i - k < 0]. *)
Fixpoint markov_contexts (seq : list direction) (i : nat) (ks : list nat)
    (model : markov) : markov :=
  match ks with
  | [] => model
  | k :: ks' =>
      if bool_decide (Z.of_nat i - Z.of_nat k < 0) then model
      else
        match seq !! i with
        | Some m =>
            markov_contexts seq i ks' (markov_incr model (slice seq (i - k) i) m)
        | None => model
        end
  end.

(** One game of the memory. *)
Definition markov_game (order : nat) (acc : markov * counter)
    (g : session_record) : markov * counter :=
  let '(model, global_counts) := acc in
  let seq := rec_moves g in
  let global_counts := counter_update_seq global_counts seq in
  (fold_left (λ model i, markov_contexts seq i (List.seq 1 order) model)
     (List.seq 0 (length seq)) model,
   global_counts).

(** [build_markov_model(memory, order)]. *)
Definition build_markov_model (memory : memory) (order : nat)
    : markov * counter :=
  fold_left (markov_game order) (get_games memory) ([], []).

(* ===================================================================== *)
(** ** The adversaries *)
(* ===================================================================== *)

(** The scan of the four directions both adversaries use to pick a
    candidate: from [(best, best_d)], a candidate inside the grid, not a
    WALL and not the other adversary's cell replaces [best] when it is
    strictly nearer to [aim]. *)
Definition scan_step (grid : grid_t) (pos other aim : cell)
    (acc : cell * Z) (item : direction * (Z * Z)) : cell * Z :=
  let '(best, best_d) := acc in
  let '(name, (dr, dc)) := item in
  let cand := (pos.1 + dr, pos.2 + dc) in
  if in_bounds cand && not_wall grid cand.1 cand.2 && bool_decide (cand ≠ other)
  then
    let d := manhattan cand aim in
    if bool_decide (d < best_d) then (cand, d) else (best, best_d)
  else (best, best_d).

Definition scan_dirs (grid : grid_t) (pos other aim best : cell) (best_d : Z)
    : cell :=
  (fold_left (scan_step grid pos other aim) DIRS (best, best_d)).1.

(** A [for _ in range(n)] loop whose body may [break]. *)
Inductive loop_exit := Continue | Break.

Fixpoint for_range {S} (n : nat) (body : S → loop_exit * S) (st : S) : S :=
  match n with
  | O => st
  | S n' =>
      match body st with
      | (Break, st') => st'
      | (Continue, st') => for_range n' body st'
      end
  end.

(** The state of an adversary's loop: [new_ai_pos], [stunned_left] and
    the set [traps] it shares with the caller. *)
Abbreviation agent_state := (cell * Z * gset cell)%type.

(** The step agent A chooses from [new_ai_pos]. *)
Definition ai_a_choose (player_pos : cell) (grid : grid_t)
    (goal_pos ai2_pos new_ai_pos : cell) : cell :=
  let path_step := bfs_first_step player_pos goal_pos grid in
  let intercept_target := default player_pos path_step in
  match bfs_first_step new_ai_pos intercept_target grid with
  | Some step => step
  | None => scan_dirs grid new_ai_pos ai2_pos intercept_target new_ai_pos (10 ^ 9)
  end.

(** The body of agent A's loop. *)
Definition ai_a_step (player_pos : cell) (grid : grid_t)
    (goal_pos ai2_pos : cell) (st : agent_state) : loop_exit * agent_state :=
  let '(new_ai_pos, stunned_left, traps) := st in
  let step := ai_a_choose player_pos grid goal_pos ai2_pos new_ai_pos in
  if decide (step = ai2_pos) then (Break, st)
  else if decide (step ∈ traps)
  then (Break, (step, AI_STUN_TURNS, traps ∖ {[ step ]}))
  else (Continue, (step, stunned_left, traps)).

(** The number of steps of a turn. *)
Definition move_budget (pos player_pos : cell) : nat :=
  if bool_decide (manhattan pos player_pos > CLOSE_RANGE + 2) then 2%nat else 1%nat.

(** [ai_a_turn(...)]: the pair it returns, and the set [traps] as it
    leaves it. *)
Definition ai_a_turn (ai_pos player_pos : cell) (grid : grid_t)
    (traps : gset cell) (this_moves : list direction) (model : markov)
    (global_counts : counter) (stunned : Z) (goal_pos ai2_pos : cell)
    : (cell * Z) * gset cell :=
  if bool_decide (stunned > 0) then ((ai_pos, stunned - 1), traps)
  else
    let moves := move_budget ai_pos player_pos in
    let '(new_ai_pos, stunned_left, traps') :=
      for_range moves (ai_a_step player_pos grid goal_pos ai2_pos) (ai_pos, 0, traps) in
    ((new_ai_pos, stunned_left), traps').

(** The cell agent B chooses from [new_ai2_pos]. *)
Definition ai_b_choose (player_pos : cell) (grid : grid_t)
    (ai_pos new_ai2_pos : cell) : cell :=
  scan_dirs grid new_ai2_pos ai_pos player_pos new_ai2_pos
    (manhattan new_ai2_pos player_pos).

(** The body of agent B's loop. *)
Definition ai_b_step (player_pos : cell) (grid : grid_t) (ai_pos : cell)
    (st : agent_state) : loop_exit * agent_state :=
  let '(new_ai2_pos, stunned_left, traps) := st in
  let best := ai_b_choose player_pos grid ai_pos new_ai2_pos in
  if decide (best = ai_pos) then (Break, st)
  else if decide (best ∈ traps)
  then (Break, (best, AI_STUN_TURNS, traps ∖ {[ best ]}))
  else (Continue, (best, stunned_left, traps)).

(** [ai_b_turn(...)]: the pair it returns, and the set [traps] as it
    leaves it. *)
Definition ai_b_turn (ai2_pos player_pos : cell) (grid : grid_t)
    (traps : gset cell) (stunned : Z) (ai_pos : cell)
    : (cell * Z) * gset cell :=
  if bool_decide (stunned > 0) then ((ai2_pos, stunned - 1), traps)
  else
    let moves := move_budget ai2_pos player_pos in
    let '(new_ai2_pos, stunned_left, traps') :=
      for_range moves (ai_b_step player_pos grid ai_pos) (ai2_pos, 0, traps) in
    ((new_ai2_pos, stunned_left), traps').

(* ===================================================================== *)
(** ** The movement predictor *)
(* ===================================================================== *)

(** [choose_from_counter(counter_dict)].  The two draws of the random
    source are arguments: [rnd] is the value of [random.random()] and
    [pick] the value of [random.choice(list(DIRS.keys()))]. *)
Fixpoint choose_scan (r acc : num) (items : scores) : option direction :=
  match items with
  | [] => None
  | (k, v) :: rest =>
      let acc := py_add acc v in
      if py_le r acc then Some k else choose_scan r acc rest
  end.

Definition choose_from_counter (rnd : float) (pick : direction)
    (counter_dict : scores) : direction :=
  match counter_dict with
  | [] => pick
  | first :: _ =>
      let total := fold_left py_add (map snd counter_dict) (Int 0) in
      let r := py_mul (Float rnd) total in
      match choose_scan r (Int 0) counter_dict with
      | Some k => k
      | None => (List.last counter_dict first).1
      end
  end.

(** The dictionary [combined] that [predict_next_move] hands to
    [choose_from_counter]. *)
Definition predict_scores (this_game_moves : list direction) (model : markov)
    (global_counts : counter) (order : nat) : scores :=
  let combined :=
    fold_left
      (λ combined k,
         if bool_decide (k ≤ length this_game_moves)%nat
         then scores_update combined
                (default [] (dict_get model (last_n k this_game_moves)))
         else combined)
      (rev (List.seq 1 order)) [] in
  let game_counts := Counter_of (last_n 8 this_game_moves) in
  let combined :=
    fold_left
      (λ combined m,
         dict_set combined m
           (py_add (score_of combined m)
              (py_add (py_mul (Float 0.50%float) (Int (count_of global_counts m)))
                      (py_mul (Float RECENCY_WEIGHT) (Int (count_of game_counts m))))))
      DIRS_keys combined in
  fold_left
    (λ combined m,
       dict_set combined m (py_add (score_of combined m) (Float PREDICT_FUZZ)))
    DIRS_keys combined.

(** [predict_next_move(this_game_moves, model, global_counts, order)]. *)
Definition predict_next_move (this_game_moves : list direction) (model : markov)
    (global_counts : counter) (order : nat) (rnd : float) (pick : direction)
    : direction :=
  choose_from_counter rnd pick
    (predict_scores this_game_moves model global_counts order).

(* ===================================================================== *)
(** ** The game loop *)
(* ===================================================================== *)

(** What [getch] returns, as far as [main] tells keys apart: 'q', 't',
    an arrow of [DIR_KEYS] with its label, or anything else. *)
Inductive key :=
| key_q
| key_t
| key_arrow (move_label : direction)
| key_other.

(** The variables of [main] that live across turns. *)
Record game := {
  model : markov;
  global_counts : counter;
  grid : grid_t;
  player_pos : cell;
  ai_pos : cell;
  ai2_pos : cell;
  goal_pos : cell;
  traps : gset cell;
  traps_left : Z;
  this_game_moves : list direction;
  ai_stunned : Z;
  ai2_stunned : Z;
  turn : Z;
  successful_traps : Z
}.

(** One pass of the [while True] loop: the game goes on; [main] returns
    after [save_game]; or the session has ended with [result] and
    [save_game] raises, the exception leaving [main]. *)
Inductive turn_result :=
| Playing (g : game)
| Over (result : result_t) (g : game)
| Raised (result : result_t) (g : game).

(** [save_game(this_game_moves, result, successful_traps=...)] followed
    by [return], at the end of a session. *)
Definition save_and_return (result : result_t) (g : game) (file : memory_file)
    : turn_result * memory_file :=
  match save_game (this_game_moves g) result (successful_traps g) file with
  | Some file' => (Over result g, file')
  | None => (Raised result g, file)
  end.

(** The player's action for the keys other than 'q'. *)
Definition player_action (g : game) (ch : key) : game :=
  match ch with
  | key_t =>
      if bool_decide (traps_left g > 0) && bool_decide (player_pos g ∉ traps g)
      then {| model := model g; global_counts := global_counts g; grid := grid g;
              player_pos := player_pos g; ai_pos := ai_pos g; ai2_pos := ai2_pos g;
              goal_pos := goal_pos g;
              traps := {[ player_pos g ]} ∪ traps g;
              traps_left := traps_left g - 1;
              this_game_moves := this_game_moves g;
              ai_stunned := ai_stunned g; ai2_stunned := ai2_stunned g;
              turn := turn g; successful_traps := successful_traps g |}
      else g
  | key_arrow move_label =>
      let new_pos := try_move (player_pos g) move_label (grid g) in
      if decide (new_pos ≠ player_pos g)
      then {| model := model g; global_counts := global_counts g; grid := grid g;
              player_pos := new_pos; ai_pos := ai_pos g; ai2_pos := ai2_pos g;
              goal_pos := goal_pos g; traps := traps g; traps_left := traps_left g;
              this_game_moves := this_game_moves g ++ [move_label];
              ai_stunned := ai_stunned g; ai2_stunned := ai2_stunned g;
              turn := turn g; successful_traps := successful_traps g |}
      else g
  | _ => g
  end.

(** The two adversaries' turns, A first, with the count of stuns. *)
Definition adversaries (g : game) : game :=
  let prev_ai_stunned := ai_stunned g in
  let '((ai_pos', ai_stunned'), traps1) :=
    ai_a_turn (ai_pos g) (player_pos g) (grid g) (traps g) (this_game_moves g)
      (model g) (global_counts g) (ai_stunned g) (goal_pos g) (ai2_pos g) in
  let successful1 :=
    if bool_decide (ai_stunned' > 0) && bool_decide (prev_ai_stunned = 0)
    then successful_traps g + 1 else successful_traps g in
  let prev_ai2_stunned := ai2_stunned g in
  let '((ai2_pos', ai2_stunned'), traps2) :=
    ai_b_turn (ai2_pos g) (player_pos g) (grid g) traps1 (ai2_stunned g) ai_pos' in
  let successful2 :=
    if bool_decide (ai2_stunned' > 0) && bool_decide (prev_ai2_stunned = 0)
    then successful1 + 1 else successful1 in
  {| model := model g; global_counts := global_counts g; grid := grid g;
     player_pos := player_pos g; ai_pos := ai_pos'; ai2_pos := ai2_pos';
     goal_pos := goal_pos g; traps := traps2; traps_left := traps_left g;
     this_game_moves := this_game_moves g;
     ai_stunned := ai_stunned'; ai2_stunned := ai2_stunned';
     turn := turn g; successful_traps := successful2 |}.

(** [turn += 1]. *)
Definition next_turn (g : game) : game :=
  {| model := model g; global_counts := global_counts g; grid := grid g;
     player_pos := player_pos g; ai_pos := ai_pos g; ai2_pos := ai2_pos g;
     goal_pos := goal_pos g; traps := traps g; traps_left := traps_left g;
     this_game_moves := this_game_moves g;
     ai_stunned := ai_stunned g; ai2_stunned := ai2_stunned g;
     turn := turn g + 1; successful_traps := successful_traps g |}.

(** The rest of a pass of the loop once the player has acted: the test
    for the goal, the adversaries' turns and the test for a catch. *)
Definition finish_turn (g : game) (file : memory_file)
    : turn_result * memory_file :=
  if decide (player_pos g = goal_pos g)
  then save_and_return win g file
  else
    let g := adversaries g in
    if decide (ai_pos g = player_pos g ∨ ai2_pos g = player_pos g)
    then save_and_return loss g file
    else (Playing (next_turn g), file).

(** One pass of the loop of [main] on the key [ch], with the memory file
    before and after. *)
Definition play_turn (g : game) (ch : key) (file : memory_file)
    : turn_result * memory_file :=
  match ch with
  | key_q => save_and_return quit g file
  | _ => finish_turn (player_action g ch) file
  end.

(** The loop of [main] over the keys the player presses: it stops at the
    first pass that returns or raises.  With the keys used up the game is
    waiting for the next one. *)
Fixpoint play (keys : list key) (g : game) (file : memory_file)
    : turn_result * memory_file :=
  match keys with
  | [] => (Playing g, file)
  | ch :: keys' =>
      match play_turn g ch file with
      | (Playing g', file') => play keys' g' file'
      | over => over
      end
  end.

(** The state [main] starts from.  The grid of [make_grid] and the cells
    of [place_entities] are drawn at random: they are arguments here. *)
Definition new_game (file : memory_file) (grid : grid_t)
    (player_pos ai_pos ai2_pos goal_pos : cell) : game :=
  let '(model, global_counts) := build_markov_model (load_memory file) MARKOV_ORDER in
  {| model := model; global_counts := global_counts; grid := grid;
     player_pos := player_pos; ai_pos := ai_pos; ai2_pos := ai2_pos;
     goal_pos := goal_pos; traps := ∅; traps_left := NUM_TRAPS;
     this_game_moves := []; ai_stunned := 0; ai2_stunned := 0;
     turn := 1; successful_traps := 0 |}.

(** [main]: a session on the given draws and keys. *)
Definition main (file : memory_file) (grid : grid_t)
    (player_pos ai_pos ai2_pos goal_pos : cell) (keys : list key)
    : turn_result * memory_file :=
  play keys (new_game file grid player_pos ai_pos ai2_pos goal_pos) file.

(* ===================================================================== *)
(** ** Grid generation and placement *)
(* ===================================================================== *)

(** The random source of [make_grid] and [random_empty_cell] is the list
    of the pairs [(r, c)] that successive calls of [random.randrange]
    give, each coordinate in [range(n)].  The loops of these functions
    run until a draw suits; a function here returns [None] when the
    draws it is given run out before its loop ends, and otherwise its
    value together with the draws it has not used. *)

(** [grid[r][c] = t], for indices inside the grid. *)
Definition set_tile (grid : grid_t) (r c : Z) (t : tile) : grid_t :=
  alter (λ row, <[Z.to_nat c := t]> row) (Z.to_nat r) grid.

(** [random_empty_cell(grid)]. *)
Fixpoint random_empty_cell (draws : list cell) (grid : grid_t)
    : option (cell * list cell) :=
  match draws with
  | [] => None
  | (r, c) :: draws' =>
      if bool_decide (tile_at grid r c = Some EMPTY)
      then Some ((r, c), draws')
      else random_empty_cell draws' grid
  end.

(** The loop [while placed < NUM_OBSTACLES] of [make_grid]. *)
Fixpoint make_grid_loop (draws : list cell) (grid : grid_t) (placed : Z)
    : option (grid_t * list cell) :=
  if bool_decide (placed < NUM_OBSTACLES) then
    match draws with
    | [] => None
    | (r, c) :: draws' =>
        if bool_decide (tile_at grid r c = Some EMPTY)
        then make_grid_loop draws' (set_tile grid r c WALL) (placed + 1)
        else make_grid_loop draws' grid placed
    end
  else Some (grid, draws).

(** The grid [make_grid] starts from: [GRID_SIZE] rows of [GRID_SIZE]
    EMPTY tiles. *)
Definition empty_grid : grid_t :=
  replicate (Z.to_nat GRID_SIZE) (replicate (Z.to_nat GRID_SIZE) EMPTY).

(** [make_grid()]. *)
Definition make_grid (draws : list cell) : option (grid_t * list cell) :=
  make_grid_loop draws empty_grid 0.

(** The test of the loop of [place_entities]: two entities coincide. *)
Definition overlap (player_pos ai_pos ai2_pos goal_pos : cell) : bool :=
  bool_decide (ai_pos = player_pos) || bool_decide (ai2_pos = player_pos)
  || bool_decide (goal_pos = player_pos) || bool_decide (goal_pos = ai_pos)
  || bool_decide (goal_pos = ai2_pos) || bool_decide (ai_pos = ai2_pos).

(** The loop of [place_entities]: while two entities coincide, the two
    adversaries and the goal are drawn again.  Every pass uses draws, so
    [fuel], the number of passes allowed, never runs out before the
    draws do when it starts at their number (lemma [place_loop_fuel]). *)
Fixpoint place_loop (fuel : nat) (draws : list cell) (grid : grid_t)
    (player_pos ai_pos ai2_pos goal_pos : cell)
    : option (cell * cell * cell * cell * list cell) :=
  if overlap player_pos ai_pos ai2_pos goal_pos then
    match fuel with
    | O => None
    | S fuel' =>
        match random_empty_cell draws grid with
        | None => None
        | Some (ai_pos, draws) =>
            match random_empty_cell draws grid with
            | None => None
            | Some (ai2_pos, draws) =>
                match random_empty_cell draws grid with
                | None => None
                | Some (goal_pos, draws) =>
                    place_loop fuel' draws grid player_pos ai_pos ai2_pos goal_pos
                end
            end
        end
    end
  else Some (player_pos, ai_pos, ai2_pos, goal_pos, draws).

(** [place_entities(grid)]. *)
Definition place_entities (draws : list cell) (grid : grid_t)
    : option (cell * cell * cell * cell * list cell) :=
  match random_empty_cell draws grid with
  | None => None
  | Some (player_pos, draws) =>
      match random_empty_cell draws grid with
      | None => None
      | Some (ai_pos, draws) =>
          match random_empty_cell draws grid with
          | None => None
          | Some (ai2_pos, draws) =>
              match random_empty_cell draws grid with
              | None => None
              | Some (goal_pos, draws) =>
                  place_loop (length draws) draws grid
                    player_pos ai_pos ai2_pos goal_pos
              end
          end
      end
  end.

(** The start of [main]: the memory is loaded, the grid made and the
    entities placed, all from one list of draws. *)
Definition start_game (file : memory_file) (draws : list cell) : option game :=
  match make_grid draws with
  | None => None
  | Some (grid, draws) =>
      match place_entities draws grid with
      | None => None
      | Some (player_pos, ai_pos, ai2_pos, goal_pos, _) =>
          Some (new_game file grid player_pos ai_pos ai2_pos goal_pos)
      end
  end.

(* ===================================================================== *)
(** ** Rendering *)
(* ===================================================================== *)

(** The characters [draw] puts on the grid. *)
Inductive glyph :=
| glyph_EMPTY | glyph_WALL | glyph_GOAL | glyph_PLAYER | glyph_AI | glyph_AI2
| glyph_TRAP.

Definition glyph_of_tile (t : tile) : glyph :=
  match t with
  | EMPTY => glyph_EMPTY
  | WALL => glyph_WALL
  end.

(** The character [draw] chooses for the cell [(r, c)] holding [t]. *)
Definition draw_cell (t : tile) (player_pos ai_pos ai2_pos goal_pos : cell)
    (traps : gset cell) (r c : Z) : glyph :=
  if decide (player_pos = (r, c)) then glyph_PLAYER
  else if decide (ai_pos = (r, c)) then glyph_AI
  else if decide (ai2_pos = (r, c)) then glyph_AI2
  else if decide (goal_pos = (r, c)) then glyph_GOAL
  else if decide ((r, c) ∈ traps) then glyph_TRAP
  else glyph_of_tile t.

(* ===================================================================== *)
(** ** Menu and statistics *)
(* ===================================================================== *)

(** What [getch] returns, as far as [show_menu] tells keys apart:
    [KEY_UP], [KEY_DOWN], one of [KEY_ENTER], 10 and 13, or anything
    else. *)
Inductive menu_key :=
| menu_up
| menu_down
| menu_enter
| menu_other.

#[global] Instance menu_key_eq_dec : EqDecision menu_key.
Proof. solve_decision. Defined.

(** The three entries of [options]: "Play Game", "View Statistics",
    "Quit". *)
Definition options_len : Z := 3.

(** The loop of [show_menu] from the value of [selected], over the keys
    pressed: the index it returns and the keys it has not read, or
    [None] when the keys end before Enter is pressed (the function is
    then waiting in [getch]). *)
Fixpoint show_menu_loop (selected : Z) (keys : list menu_key)
    : option (Z * list menu_key) :=
  match keys with
  | [] => None
  | ch :: keys' =>
      match ch with
      | menu_up =>
          show_menu_loop
            (if bool_decide (selected > 0) then selected - 1 else selected) keys'
      | menu_down =>
          show_menu_loop
            (if bool_decide (selected < options_len - 1) then selected + 1
             else selected) keys'
      | menu_enter => Some (selected, keys')
      | menu_other => show_menu_loop selected keys'
      end
  end.

Definition show_menu (keys : list menu_key) : option (Z * list menu_key) :=
  show_menu_loop 0 keys.

(** [a / b] on two [int]s, [b] not 0: a [float].  Python rounds the
    exact quotient; for integers that binary64 holds exactly, as the
    counts of games, moves and traps are, that is the quotient of the
    two converted. *)
Definition py_truediv (a b : Z) : float :=
  (float_of_int a / float_of_int b)%float.

(** The numbers [show_stats] prints, before formatting. *)
Record stats := {
  stat_total : Z;
  stat_wins : Z;
  stat_losses : Z;
  stat_quits : Z;
  stat_win_rate : num;
  stat_avg_moves : num;
  stat_total_traps : Z;
  stat_avg_traps : num
}.

#[global] Instance result_eq_dec : EqDecision result_t.
Proof. solve_decision. Defined.

(** [sum(1 for g in games if g.get("result") == result)]. *)
Definition count_result (result : result_t) (games : list session_record) : Z :=
  Z.of_nat (length (filter (λ g, rec_result g = result) games)).

(** [sum(...)] over the games, from 0. *)
Definition sum_over (f : session_record → Z) (games : list session_record) : Z :=
  fold_left (λ acc g, acc + f g) games 0.

(** [show_stats]: the numbers it computes from the memory file. *)
Definition show_stats (file : memory_file) : stats :=
  let games := get_games (load_memory file) in
  let total := Z.of_nat (length games) in
  let wins := count_result win games in
  let losses := count_result loss games in
  let quits := count_result quit games in
  let win_rate :=
    if decide (total = 0) then Int 0
    else Float (py_truediv wins total * float_of_int 100)%float in
  let avg_moves :=
    if decide (total = 0) then Int 0
    else Float (py_truediv (sum_over (λ g, Z.of_nat (length (rec_moves g))) games)
                  total) in
  let total_traps := sum_over rec_successful_traps games in
  let avg_traps :=
    if decide (total = 0) then Int 0 else Float (py_truediv total_traps total) in
  {| stat_total := total; stat_wins := wins; stat_losses := losses;
     stat_quits := quits; stat_win_rate := win_rate; stat_avg_moves := avg_moves;
     stat_total_traps := total_traps; stat_avg_traps := avg_traps |}.

(* ===================================================================== *)
(** ** Vocabulary of the properties *)
(* ===================================================================== *)

(** A 9 by 9 grid used in the examples: open but for a wall segment. *)
Definition open_row : list tile := repeat EMPTY 9.
Definition demo_grid : grid_t :=
  [ [EMPTY; WALL; EMPTY; EMPTY; EMPTY; EMPTY; EMPTY; EMPTY; EMPTY];
    [EMPTY; WALL; EMPTY; EMPTY; EMPTY; EMPTY; EMPTY; EMPTY; EMPTY];
    [EMPTY; EMPTY; EMPTY; EMPTY; EMPTY; EMPTY; EMPTY; WALL; WALL];
    open_row; open_row; open_row; open_row;
    [EMPTY; EMPTY; EMPTY; EMPTY; EMPTY; EMPTY; EMPTY; WALL; EMPTY];
    [EMPTY; EMPTY; EMPTY; EMPTY; EMPTY; EMPTY; EMPTY; WALL; EMPTY] ].

(** [v] is one of the cells [neighbors] yields at [u]. *)
Definition edge (grid : grid_t) (u v : cell) : Prop :=
  v ∈ neighbors u.1 u.2 grid.

(** [path grid a n b]: [b] is reached from [a] in [n] moves, each to a
    cell that [neighbors] yields. *)
Inductive path (grid : grid_t) (a : cell) : nat → cell → Prop :=
| path_nil : path grid a 0 a
| path_snoc n b c : path grid a n b → edge grid b c → path grid a (S n) c.

(** [n] is the length of a shortest path from [a] to [b]. *)
Definition is_dist (grid : grid_t) (a : cell) (n : nat) (b : cell) : Prop :=
  path grid a n b ∧ ∀ m, path grid a m b → (n ≤ m)%nat.

(** [b] can be reached from [a]. *)
Definition reachable (grid : grid_t) (a b : cell) : Prop :=
  ∃ n, path grid a n b.

(** A cell the adversaries and the player may stand on: inside the
    bounds of the game and holding an EMPTY tile. *)
Definition open_cell (grid : grid_t) (pos : cell) : Prop :=
  in_bounds pos = true ∧ tile_at grid pos.1 pos.2 = Some EMPTY.

(** The cell one unit step from [pos] in the direction [move_label]. *)
Definition destination (pos : cell) (move_label : direction) : cell :=
  (pos.1 + (DIRS_get move_label).1, pos.2 + (DIRS_get move_label).2).

(** The test a candidate passes: inside the bounds, not a WALL, not the
    other adversary's cell. *)
Definition legal (grid : grid_t) (other cand : cell) : Prop :=
  in_bounds cand = true ∧ not_wall grid cand.1 cand.2 = true ∧ cand ≠ other.

#[global] Instance legal_dec grid other cand : Decision (legal grid other cand).
Proof. unfold legal. apply _. Defined.

(** The candidates of a scan from [pos], in the order of the directions. *)
Definition candidates_of (grid : grid_t) (pos other : cell)
    (items : list (direction * (Z * Z))) : list cell :=
  filter (legal grid other)
    (map (λ item, (pos.1 + item.2.1, pos.2 + item.2.2)) items).

Definition candidates (grid : grid_t) (pos other : cell) : list cell :=
  candidates_of grid pos other DIRS.

(** What a trap does to the state of a loop that started on [traps0]
    with the counter at 0: nothing while no trap is entered; the counter
    at [AI_STUN_TURNS] and the trap gone once one is. *)
Definition loop_trap_inv (traps0 : gset cell) (st : agent_state) : Prop :=
  (st.1.2 = 0 ∧ st.2 = traps0)
  ∨ (st.1.2 = AI_STUN_TURNS ∧ st.1.1 ∈ traps0 ∧ st.2 = traps0 ∖ {[ st.1.1 ]}).

(** What a turn that started with the counter [stunned] on the set
    [traps] has done with the traps, read off the value [r] it returns:
    it has entered no trap and left the set alone, or (not stunned at the
    start) it ends on a cell that was in [traps], with that one cell
    removed and the counter at [AI_STUN_TURNS]. *)
Definition trap_outcome (traps : gset cell) (stunned : Z)
    (r : (cell * Z) * gset cell) : Prop :=
  (r.2 = traps ∧ (r.1.2 = 0 ∨ (stunned > 0 ∧ r.1.2 = stunned - 1)))
  ∨ (stunned <= 0 ∧ r.1.2 = AI_STUN_TURNS ∧ r.1.1 ∈ traps ∧
     r.2 = traps ∖ {[ r.1.1 ]}).

(** The state a pass of the loop of [main] ends in. *)
Definition state_of (r : turn_result) : game :=
  match r with
  | Playing g => g
  | Over _ g => g
  | Raised _ g => g
  end.

(** The result a session has ended with, if it has ended. *)
Definition result_of (r : turn_result) : option result_t :=
  match r with
  | Playing _ => None
  | Over result _ => Some result
  | Raised result _ => Some result
  end.

(** The game [g] with another prediction model in its place. *)
Definition with_model (model' : markov) (global_counts' : counter) (g : game)
    : game :=
  {| model := model'; global_counts := global_counts'; grid := grid g;
     player_pos := player_pos g; ai_pos := ai_pos g; ai2_pos := ai2_pos g;
     goal_pos := goal_pos g; traps := traps g; traps_left := traps_left g;
     this_game_moves := this_game_moves g;
     ai_stunned := ai_stunned g; ai2_stunned := ai2_stunned g;
     turn := turn g; successful_traps := successful_traps g |}.

(** A change of the state a pass of the loop ends in. *)
Definition map_state (f : game → game) (r : turn_result) : turn_result :=
  match r with
  | Playing g => Playing (f g)
  | Over result g => Over result (f g)
  | Raised result g => Raised result (f g)
  end.

(** The player and both adversaries are on open cells of the grid. *)
Definition on_open_cells (g : game) : Prop :=
  open_cell (grid g) (player_pos g) ∧ open_cell (grid g) (ai_pos g) ∧
  open_cell (grid g) (ai2_pos g).

(** The record [main] hands to [save_game] when it returns with [result]
    in the state [g]. *)
Definition saved_record (result : result_t) (g : game) : session_record :=
  {| rec_moves := this_game_moves g; rec_result := result;
     rec_grid := GRID_SIZE; rec_successful_traps := successful_traps g |}.

(** The keys of a dictionary are distinct. *)
Definition dict_ok {K V} (d : list (K * V)) : Prop := NoDup (map fst d).

(** The number of times [m] occurs in a list of moves. *)
Definition occurrences (m : direction) (l : list direction) : Z :=
  Z.of_nat (length (filter (λ x, x = m) l)).






(* ===================================================================== *)
(** ** Vocabulary of the further properties *)
(* ===================================================================== *)

(** The four cells around [(r, c)], in the order of [DIRS]. *)
Definition around (r c : Z) : list cell :=
  [ (r - 1, c); (r + 1, c); (r, c - 1); (r, c + 1) ].

(** The direction opposite to a direction. *)
Definition opposite (d : direction) : direction :=
  match d with
  | north => south
  | south => north
  | west => east
  | east => west
  end.

(** [n] applications of [bfs_first_step] towards a fixed [target]. *)
Fixpoint follow (n : nat) (grid : grid_t) (pos target : cell) : option cell :=
  match n with
  | O => Some pos
  | S n' =>
      match bfs_first_step pos target grid with
      | Some step => follow n' grid step target
      | None => None
      end
  end.

(** The cell agent A steers to: the first step of the player's shortest
    path to the goal, or the player's cell when there is no such path. *)
Definition intercept_target (player_pos goal_pos : cell) (grid : grid_t) : cell :=
  default player_pos (bfs_first_step player_pos goal_pos grid).

(** The budget of traps is conserved: every trap of the budget is still
    in hand, armed on the grid, or has stunned an adversary; and the stun
    counters stay between 0 and [AI_STUN_TURNS]. *)
Definition budget_kept (g : game) : Prop :=
  0 <= ai_stunned g <= AI_STUN_TURNS ∧ 0 <= ai2_stunned g <= AI_STUN_TURNS ∧
  0 <= traps_left g ∧ 0 <= successful_traps g ∧
  successful_traps g + Z.of_nat (size (traps g)) + traps_left g = NUM_TRAPS.

(** The cell reached from [start] by the moves of a history. *)
Definition replay (start : cell) (moves : list direction) : cell :=
  fold_left destination moves start.

(** What a session keeps about the player's route from [start]: the
    history replays to the player's cell, and it has at most [n]
    moves. *)
Definition route_kept (start : cell) (n : nat) (g : game) : Prop :=
  replay start (this_game_moves g) = player_pos g
  ∧ (length (this_game_moves g) ≤ n)%nat.

(** What a pass of the loop that has just ended means for the state. *)
Definition outcome_ok (r : turn_result) : Prop :=
  match r with
  | Playing g =>
      player_pos g ≠ goal_pos g ∧ ai_pos g ≠ player_pos g ∧
      ai2_pos g ≠ player_pos g
  | Over win g | Raised win g => player_pos g = goal_pos g
  | Over loss g | Raised loss g =>
      player_pos g ≠ goal_pos g ∧
      (ai_pos g = player_pos g ∨ ai2_pos g = player_pos g)
  | Over quit g | Raised quit g => True
  end.

(** The number of WALL tiles of a grid. *)
Definition wall_count (grid : grid_t) : nat :=
  length (filter (λ t, t = WALL) (concat grid)).

(** The draws [random.randrange(GRID_SIZE)] can give. *)
Definition draws_ok (draws : list cell) : Prop :=
  Forall (λ d, in_bounds d = true) draws.

(** Fourteen draws, the third and the fifth falling on cells already
    walled: twelve walls, no draw left over. *)
Definition demo_draws : list cell :=
  [ (0, 1); (1, 1); (0, 1); (2, 7); (1, 1); (2, 8); (7, 7); (8, 7);
    (4, 4); (4, 5); (5, 4); (6, 2); (3, 6); (6, 6) ].

(** The first two draws fall on one cell, so the loop draws the
    adversaries and the goal again; the draw (0, 1) falls on a WALL. *)
Definition demo_place_draws : list cell :=
  [ (0, 0); (0, 0); (0, 1); (3, 3); (5, 5); (8, 8); (8, 0); (0, 8) ].

(** What holds of the state of a game at every point of a session. *)
Definition session_inv (g : game) : Prop :=
  grid_ok (grid g) ∧ Z.of_nat (wall_count (grid g)) = NUM_OBSTACLES ∧
  on_open_cells g ∧ open_cell (grid g) (goal_pos g) ∧
  ai_pos g ≠ ai2_pos g ∧
  (∀ c, c ∈ traps g → open_cell (grid g) c).

(** The draws of the examples above, one after the other: the grid,
    then the placement. *)
Definition demo_session_draws : list cell :=
  demo_draws ++ [ (0, 0); (0, 1); (8, 8); (8, 0); (0, 8) ].

(** [model[ctx][m]], read with 0 for a context or a move that is absent. *)
Definition model_count (model : markov) (ctx : list direction) (m : direction)
    : Z :=
  count_of (default [] (dict_get model ctx)) m.

(** The number of positions of [seq] that hold [m] and come right after
    the moves [ctx]: the moves before the position end with [ctx]. *)
Definition transitions (ctx : list direction) (m : direction)
    (seq : list direction) : Z :=
  Z.of_nat (length (filter
    (λ i, ctx `suffix_of` take i seq ∧ seq !! i = Some m)
    (List.seq 0 (length seq)))).

(** Sums over the games of a memory. *)
Definition total_occurrences (m : direction) (memory : list session_record) : Z :=
  foldr Z.add 0 (map (λ g, occurrences m (rec_moves g)) memory).

Definition total_transitions (ctx : list direction) (m : direction)
    (memory : list session_record) : Z :=
  foldr Z.add 0 (map (λ g, transitions ctx m (rec_moves g)) memory).

(** The number of times a key occurs in a list of keys. *)
Definition presses (ch : menu_key) (keys : list menu_key) : Z :=
  Z.of_nat (length (filter (λ x, x = ch) keys)).

(** What the end of a session does with the file. *)
Definition stored (file : memory_file) (r : turn_result * memory_file) : Prop :=
  match r with
  | (Playing _, file') => file' = file
  | (Over result g', file') =>
      file ≠ NoGames
      ∧ get_games (load_memory file')
        = get_games (load_memory file) ++ [saved_record result g']
  | (Raised _ _, file') => file = NoGames ∧ file' = file
  end.

(** A session of ten moves that ends with south, west.  The model has
    seen north four times after south, west and twice after west; its
    entries for north, north (what the session starts with) and for east
    do not match.  Of the three norths of the session one is among the
    last 8 moves. *)
Definition demo_moves : list direction :=
  [ north; north; east; south; west; west; north; east; south; west ].

Definition demo_model : markov :=
  [ ([south; west], [ (north, 4); (east, 1) ]);
    ([west], [ (north, 2) ]);
    ([north; north], [ (north, 9) ]);
    ([east], [ (north, 5); (west, 3) ]) ].

(* ===================================================================== *)
(** ** The adjacency graph of a grid *)
(* ===================================================================== *)

Section Graph.
Context (grid : grid_t).

Local Abbreviation edge := (edge grid).
Local Abbreviation path := (path grid).
Local Abbreviation is_dist := (is_dist grid).

Lemma elem_of_neighbors r c v :
  v ∈ neighbors r c grid ↔
  (∃ d, d ∈ DIRS_values ∧ v = (r + d.1, c + d.2)) ∧
  0 <= v.1 < Z.of_nat (length grid) ∧
  0 <= v.2 < Z.of_nat (length grid) ∧
  not_wall grid v.1 v.2 = true.
Proof.
  unfold neighbors. rewrite list_elem_of_In, in_flat_map. split.
  - intros ([dr dc] & Hd & Hv).
    destruct (bool_decide (0 <= r + dr < _)) eqn:E1; [|destruct Hv].
    destruct (bool_decide (0 <= c + dc < _)) eqn:E2; [|destruct Hv].
    destruct (not_wall grid (r + dr) (c + dc)) eqn:E3; [|destruct Hv].
    simpl in Hv. destruct Hv as [<-|[]]. simpl.
    apply bool_decide_eq_true in E1, E2.
    split; [|done]. exists (dr, dc). by rewrite list_elem_of_In.
  - intros ((d & Hd & ->) & H1 & H2 & H3).
    exists d. split; [by apply list_elem_of_In|].
    destruct d as [dr dc]; simpl in *.
    rewrite !bool_decide_eq_true_2, H3 by done. simpl. by left.
Qed.

Lemma DIRS_values_unit d : d ∈ DIRS_values → Z.abs d.1 + Z.abs d.2 = 1.
Proof.
  unfold DIRS_values, DIRS. simpl. rewrite !elem_of_cons, elem_of_nil.
  intros [->|[->|[->|[->|[]]]]]; reflexivity.
Qed.

Lemma edge_adjacent u v : edge u v → manhattan u v = 1.
Proof.
  unfold edge. rewrite elem_of_neighbors.
  intros ((d & Hd & ->) & _). apply DIRS_values_unit in Hd.
  unfold manhattan. simpl. lia.
Qed.

Lemma edge_in_grid u v :
  edge u v →
  0 <= v.1 < Z.of_nat (length grid) ∧ 0 <= v.2 < Z.of_nat (length grid).
Proof. unfold edge. rewrite elem_of_neighbors. tauto. Qed.

Lemma edge_not_wall u v : edge u v → not_wall grid v.1 v.2 = true.
Proof. unfold edge. rewrite elem_of_neighbors. tauto. Qed.

Lemma path_last a n c : path a (S n) c → ∃ b, path a n b ∧ edge b c.
Proof. inversion 1; subst. eauto. Qed.

Lemma path_zero a b : path a 0 b → a = b.
Proof. by inversion 1. Qed.

Lemma path_cons a b c n : edge a b → path b n c → path a (S n) c.
Proof.
  intros Hab Hbc. induction Hbc as [|n c d _ IH Hcd].
  - eapply path_snoc; [apply path_nil | done].
  - eapply path_snoc; [by apply IH | done].
Qed.

Lemma path_one a b : path a 1 b ↔ edge a b.
Proof.
  split.
  - intros H. apply path_last in H as (x & H0 & He). apply path_zero in H0. by subst.
  - intros. eapply path_snoc; [apply path_nil | done].
Qed.

Lemma is_dist_unique a b n m : is_dist a n b → is_dist a m b → n = m.
Proof. intros [Hn Hn'] [Hm Hm']. specialize (Hn' _ Hm). specialize (Hm' _ Hn). lia. Qed.

Lemma is_dist_refl a : is_dist a 0 a.
Proof. split; [apply path_nil | lia]. Qed.

Lemma is_dist_zero a b : is_dist a 0 b → a = b.
Proof. intros [H _]. by apply path_zero. Qed.

(** A WALL cell (or one outside the grid) is the end of no move. *)
Lemma path_to_wall a n b :
  a ≠ b → not_wall grid b.1 b.2 = false → ¬ path a n b.
Proof.
  intros Hne Hw Hp. destruct n as [|n].
  - by apply path_zero in Hp.
  - apply path_last in Hp as (x & _ & He).
    apply edge_not_wall in He. congruence.
Qed.
End Graph.

(* ===================================================================== *)
(** ** Correctness of the breadth-first search *)
(* ===================================================================== *)

(** The cells of an [n] by [n] grid, and how many of them the search has
    not reached yet: the quantity that bounds the iterations left. *)
Definition all_cells (grid : grid_t) : list cell :=
  let n := Z.of_nat (length grid) in list_prod (seqZ 0 n) (seqZ 0 n).

Definition unvisited (grid : grid_t) (prev : gmap cell (option cell)) : nat :=
  length (filter (λ v, prev !! v = None) (all_cells grid)).

Lemma length_all_cells grid :
  length (all_cells grid) = (length grid * length grid)%nat.
Proof.
  unfold all_cells. rewrite length_prod, !length_seqZ. lia.
Qed.

Lemma elem_of_all_cells grid v :
  v ∈ all_cells grid ↔
  0 <= v.1 < Z.of_nat (length grid) ∧ 0 <= v.2 < Z.of_nat (length grid).
Proof.
  unfold all_cells. destruct v as [r c].
  rewrite list_elem_of_In, in_prod_iff, <- !list_elem_of_In, !elem_of_seqZ.
  simpl. lia.
Qed.

Lemma filter_length_mono {A} (P Q : A → Prop)
    `{∀ x, Decision (P x)} `{∀ x, Decision (Q x)} (l : list A) :
  (∀ x, Q x → P x) → (length (filter Q l) ≤ length (filter P l))%nat.
Proof.
  intros HQP. induction l as [|x l IH]; [done|].
  rewrite !filter_cons.
  destruct (decide (Q x)) as [HQ|HQ], (decide (P x)) as [HP|HP]; simpl; try lia.
  destruct HP. auto.
Qed.

Lemma filter_length_drop {A} (P Q : A → Prop)
    `{∀ x, Decision (P x)} `{∀ x, Decision (Q x)} (l : list A) x0 :
  (∀ x, Q x → P x) → x0 ∈ l → P x0 → ¬ Q x0 →
  (length (filter Q l) < length (filter P l))%nat.
Proof.
  intros HQP Hin HP0 HQ0. induction l as [|x l IH]; [by apply elem_of_nil in Hin|].
  rewrite !filter_cons. apply elem_of_cons in Hin as [<-|Hin].
  - destruct (decide (Q x0)) as [|_]; [done|].
    destruct (decide (P x0)) as [_|]; [|done]. simpl.
    pose proof (filter_length_mono P Q l HQP). lia.
  - specialize (IH Hin).
    destruct (decide (Q x)) as [HQ|HQ], (decide (P x)) as [HP|HP]; simpl; try lia.
    destruct HP. auto.
Qed.

Lemma unvisited_insert grid prev v p :
  v ∈ all_cells grid → prev !! v = None →
  (unvisited grid (<[v := p]> prev) < unvisited grid prev)%nat.
Proof.
  intros Hin Hnone. unfold unvisited.
  apply filter_length_drop with (x0 := v); [|done..|].
  - intros x. destruct (decide (v = x)) as [->|Hne].
    + by rewrite lookup_insert_eq.
    + by rewrite lookup_insert_ne.
  - by rewrite lookup_insert_eq.
Qed.

Lemma unvisited_bound grid prev :
  (unvisited grid prev ≤ length grid * length grid)%nat.
Proof.
  unfold unvisited. rewrite <- length_all_cells. apply length_filter.
Qed.

Section Search.
Context (grid : grid_t) (start target : cell).

Local Abbreviation edge := (edge grid).
Local Abbreviation path := (path grid).
Local Abbreviation is_dist := (is_dist grid).

(** The invariant of the search.  The queue is [A ++ B]: the cells of
    [A] are at distance [k] from [start], those of [B] at distance
    [k + 1].  Every entry of [prev] is a last move of a shortest path;
    every cell within [k] moves of [start] has an entry; and a cell with
    an entry is in the queue, or has had all its neighbours entered,
    but for the cell [u] being expanded, whose neighbours [ns] are
    still to come. *)
Record bfs_inv (k : nat) (A B : list cell) (prev : gmap cell (option cell))
    (u : cell) (ns : list cell) : Prop := {
  inv_start : prev !! start = Some None;
  inv_root : ∀ v, prev !! v = Some None → v = start;
  inv_tree : ∀ v p, prev !! v = Some (Some p) →
    ∃ j, is_dist start j p ∧ is_dist start (S j) v ∧ edge p v ∧
         is_Some (prev !! p);
  inv_front : ∀ v, v ∈ A → is_dist start k v ∧ is_Some (prev !! v);
  inv_back : ∀ v, v ∈ B → is_dist start (S k) v ∧ is_Some (prev !! v);
  inv_near : ∀ v m, path start m v → (m ≤ k)%nat → is_Some (prev !! v);
  inv_closed : ∀ v, is_Some (prev !! v) →
    v ∈ A ∨ v ∈ B ∨
    ∀ w, edge v w → is_Some (prev !! w) ∨ (v = u ∧ w ∈ ns);
  inv_target : prev !! target = None
}.

(** The reconstruction loop ends on the first move of a shortest path. *)
Lemma walk_back_spec (prev : gmap cell (option cell)) :
  (∀ v, prev !! v = Some None → v = start) →
  (∀ v p, prev !! v = Some (Some p) →
     ∃ j, is_dist start j p ∧ is_dist start (S j) v ∧ edge p v ∧
          is_Some (prev !! p)) →
  ∀ j fuel cur m,
    is_dist start (S j) cur → is_Some (prev !! cur) →
    path cur m target → (j < fuel)%nat →
    ∃ c, walk_back fuel prev start cur = Done c ∧ edge start c ∧
         path c (m + j) target.
Proof.
  intros Hroot Htree. induction j as [|j IH]; intros fuel cur m Hd [x Hx] Hp Hf.
  - destruct fuel as [|fuel]; [lia|]. simpl. rewrite Hx.
    destruct x as [p|].
    + destruct (Htree _ _ Hx) as (j & Hdp & Hdc & He & _).
      assert (j = 0%nat) as -> by (pose proof (is_dist_unique _ _ _ _ _ Hd Hdc); lia).
      apply is_dist_zero in Hdp as <-.
      rewrite decide_True by done. exists cur.
      rewrite Nat.add_0_r. done.
    + apply Hroot in Hx as ->. destruct Hd as [_ Hd].
      specialize (Hd _ (path_nil _ _)). lia.
  - destruct fuel as [|fuel]; [lia|]. simpl. rewrite Hx.
    destruct x as [p|].
    + destruct (Htree _ _ Hx) as (j' & Hdp & Hdc & He & Hsp).
      assert (j' = S j) as -> by (pose proof (is_dist_unique _ _ _ _ _ Hd Hdc); lia).
      rewrite decide_False.
      2:{ intros ->. pose proof (is_dist_unique _ _ _ _ _ Hdp (is_dist_refl _ _)). lia. }
      destruct (IH fuel p (S m) Hdp Hsp) as (c & Hw & Hc & Hpc).
      { by eapply path_cons. }
      { lia. }
      exists c. split; [done|]. split; [done|].
      by replace (m + S j)%nat with (S m + j)%nat by lia.
    + apply Hroot in Hx as ->. destruct Hd as [_ Hd].
      specialize (Hd _ (path_nil _ _)). lia.
Qed.

(** One pass of the [for] loop over the neighbours of [u]. *)
Lemma visit_spec (back_fuel k : nat) (u : cell) :
  is_dist start k u → (k < back_fuel)%nat →
  ∀ ns A B prev,
    bfs_inv k A B prev u ns → is_Some (prev !! u) →
    (∀ w, w ∈ ns → edge u w) →
    match visit back_fuel start target u ns (A ++ B) prev with
    | Found r =>
        ∃ c, r = Done c ∧ edge start c ∧ path c k target ∧
             is_dist start (S k) target
    | Next q' prev' =>
        ∃ B', q' = A ++ B' ∧ bfs_inv k A B' prev' u [] ∧
              (length q' + unvisited grid prev'
               ≤ length (A ++ B) + unvisited grid prev)%nat
    end.
Proof.
  intros Hu Hk. induction ns as [|nb ns IH]; intros A B prev Hinv Hsu Hns; simpl.
  { exists B. done. }
  destruct (prev !! nb) as [x|] eqn:Hnb.
  - (* already entered *)
    apply IH; [|done|].
    + destruct Hinv. split; try done.
      intros v Hv. destruct (inv_closed0 v Hv) as [?|[?|Hc]]; [by left|by right; left|].
      right; right. intros w Hw. destruct (Hc w Hw) as [?|[-> Hin]]; [by left|].
      apply elem_of_cons in Hin as [->|Hin]; [left; by eexists|by right].
    + intros w Hw. apply Hns. by right.
  - (* a new cell, at distance k + 1 *)
    assert (edge u nb) as Hedge by (apply Hns; by left).
    assert (is_dist start (S k) nb) as Hdnb.
    { split.
      - eapply path_snoc; [apply Hu | done].
      - intros m Hm. destruct (decide (m ≤ k)%nat) as [Hle|]; [|lia].
        destruct (inv_near _ _ _ _ _ _ Hinv _ _ Hm Hle) as [? ?]. congruence. }
    assert (nb ≠ start) as Hnbs.
    { intros ->. rewrite (inv_start _ _ _ _ _ _ Hinv) in Hnb. done. }
    assert (∀ v, <[nb:=Some u]> prev !! v = Some None → v = start) as Hroot'.
    { intros v. destruct (decide (nb = v)) as [->|Hne].
      - by rewrite lookup_insert_eq.
      - rewrite lookup_insert_ne by done. apply Hinv. }
    assert (∀ v, is_Some (prev !! v) → is_Some (<[nb:=Some u]> prev !! v)) as Hmono.
    { intros v Hv. destruct (decide (nb = v)) as [->|Hne].
      - rewrite lookup_insert_eq. by eexists.
      - by rewrite lookup_insert_ne. }
    assert (∀ v p, <[nb:=Some u]> prev !! v = Some (Some p) →
              ∃ j, is_dist start j p ∧ is_dist start (S j) v ∧ edge p v ∧
                   is_Some (<[nb:=Some u]> prev !! p)) as Htree'.
    { intros v p. destruct (decide (nb = v)) as [->|Hne].
      - rewrite lookup_insert_eq. intros [= <-]. exists k. auto.
      - rewrite lookup_insert_ne by done. intros Hv.
        destruct (inv_tree _ _ _ _ _ _ Hinv _ _ Hv) as (j & ? & ? & ? & ?).
        exists j. auto. }
    destruct (decide (nb = target)) as [->|Hnt].
    + (* the target: walk back to the first move *)
      destruct (walk_back_spec _ Hroot' Htree' k back_fuel target 0%nat)
        as (c & Hw & Hc & Hp); [done| |apply path_nil|done|].
      { rewrite lookup_insert_eq. by eexists. }
      exists c. done.
    + (* any other new cell joins the back of the queue *)
      rewrite <- (assoc_L (++)).
      assert (nb ∈ all_cells grid) as Hcell.
      { apply elem_of_all_cells. by eapply edge_in_grid. }
      pose proof (unvisited_insert grid prev nb (Some u) Hcell Hnb) as Hlt.
      assert (bfs_inv k A (B ++ [nb]) (<[nb:=Some u]> prev) u ns) as Hinv'.
      { split; [|done|done|..].
        - rewrite lookup_insert_ne by done. apply Hinv.
        - intros v Hv. destruct (inv_front _ _ _ _ _ _ Hinv v Hv). auto.
        - intros v Hv. apply elem_of_app in Hv as [Hv|Hv].
          + destruct (inv_back _ _ _ _ _ _ Hinv v Hv). auto.
          + apply list_elem_of_singleton in Hv as ->.
            split; [done|]. rewrite lookup_insert_eq. by eexists.
        - intros v m Hm Hle. apply Hmono. by eapply inv_near.
        - intros v Hv. destruct (decide (nb = v)) as [<-|Hne].
          { right; left. apply elem_of_app. right. by apply list_elem_of_singleton. }
          rewrite lookup_insert_ne in Hv by done.
          destruct (inv_closed _ _ _ _ _ _ Hinv v Hv) as [?|[?|Hc]]; [by left| |].
          { right; left. apply elem_of_app. by left. }
          right; right. intros w Hw. destruct (Hc w Hw) as [?|[-> Hin]]; [left; auto|].
          apply elem_of_cons in Hin as [->|Hin]; [left|by right].
          rewrite lookup_insert_eq. by eexists.
        - rewrite lookup_insert_ne by done. apply Hinv. }
      specialize (IH _ _ _ Hinv' (Hmono _ Hsu)).
      destruct (visit back_fuel start target u ns (A ++ B ++ [nb])
                  (<[nb:=Some u]> prev)) as [r|q' prev'].
      { apply IH. intros w Hw. apply Hns. by right. }
      destruct IH as (B' & -> & Hinv'' & Hle).
      { intros w Hw. apply Hns. by right. }
      exists B'. split; [done|]. split; [done|].
      rewrite !length_app in *. simpl in *. lia.
Qed.

(** With an empty queue the entered cells are closed under [neighbors],
    so they are all the cells that can be reached. *)
Lemma closed_reaches prev k u :
  bfs_inv k [] [] prev u [] → ∀ n v, path start n v → is_Some (prev !! v).
Proof.
  intros Hinv n v Hp. induction Hp as [|n b c _ IH He].
  - rewrite (inv_start _ _ _ _ _ _ Hinv). by eexists.
  - destruct (inv_closed _ _ _ _ _ _ Hinv b IH) as [Hin|[Hin|Hc]].
    + by apply elem_of_nil in Hin.
    + by apply elem_of_nil in Hin.
    + destruct (Hc c He) as [?|[_ Hin]]; [done|]. by apply elem_of_nil in Hin.
Qed.

(** When the cells at distance [k] are all expanded, the queue holds
    the cells at distance [k + 1] and the invariant holds one level up. *)
Lemma bfs_inv_level k B prev u :
  bfs_inv k [] B prev u [] → bfs_inv (S k) B [] prev u [].
Proof.
  intros Hinv. destruct Hinv. split; [done|done|done|done| | | |done].
  - intros v Hv. by apply elem_of_nil in Hv.
  - intros v m Hm Hle. destruct (decide (m ≤ k)%nat) as [Hk|Hk]; [by eapply inv_near0|].
    assert (m = S k) as -> by lia.
    apply path_last in Hm as (b & Hb & He).
    pose proof (inv_near0 _ _ Hb (Nat.le_refl _)) as Hsb.
    destruct (inv_closed0 b Hsb) as [Hin|[Hin|Hc]].
    + by apply elem_of_nil in Hin.
    + destruct (inv_back0 b Hin) as [[_ Hmin] _]. specialize (Hmin _ Hb). lia.
    + destruct (Hc v He) as [?|[_ Hin]]; [done|]. by apply elem_of_nil in Hin.
  - intros v Hv. destruct (inv_closed0 v Hv) as [Hin|[Hin|Hc]]; auto.
Qed.

(** The [while] loop, from any state that satisfies the invariant and
    with the budget its measure asks for. *)
Lemma bfs_loop_spec (back_fuel : nat) :
  ∀ fuel k A B prev u,
    bfs_inv k A B prev u [] → (A = [] → B = []) →
    (length (A ++ B) + unvisited grid prev ≤ fuel)%nat →
    (k + fuel ≤ back_fuel)%nat →
    (∃ c m, bfs_loop fuel back_fuel start target grid (A ++ B) prev = Done (Some c) ∧
            edge start c ∧ path c m target ∧ is_dist start (S m) target)
    ∨ (bfs_loop fuel back_fuel start target grid (A ++ B) prev = Done None ∧
       ∀ n, ¬ path start n target).
Proof.
  induction fuel as [|fuel IH]; intros k A B prev u Hinv Hnorm Hfuel Hk.
  - destruct A as [|a A]; [|simpl in Hfuel; lia].
    rewrite (Hnorm eq_refl) in *. right. split; [done|].
    intros n Hn. destruct (closed_reaches _ _ _ Hinv _ _ Hn) as [x Hx].
    rewrite (inv_target _ _ _ _ _ _ Hinv) in Hx. done.
  - destruct A as [|a A].
    { rewrite (Hnorm eq_refl) in *. right. split; [done|].
      intros n Hn. destruct (closed_reaches _ _ _ Hinv _ _ Hn) as [x Hx].
      rewrite (inv_target _ _ _ _ _ _ Hinv) in Hx. done. }
    destruct (inv_front _ _ _ _ _ _ Hinv a) as [Hda Hsa]; [by left|].
    assert (bfs_inv k A B prev a (neighbors a.1 a.2 grid)) as Hmid.
    { destruct Hinv. split; [done|done|done| |done|done| |done].
      - intros v Hv. apply inv_front0. by right.
      - intros v Hv. destruct (inv_closed0 v Hv) as [Hin|[Hin|Hc]].
        + apply elem_of_cons in Hin as [->|Hin]; [|by left].
          right; right. intros w Hw. right. done.
        + by right; left.
        + right; right. intros w Hw. destruct (Hc w Hw) as [?|[_ Hin]]; [by left|].
          by apply elem_of_nil in Hin. }
    pose proof (visit_spec back_fuel k a Hda ltac:(lia) _ _ _ _ Hmid Hsa
                  (λ w Hw, Hw)) as Hvis.
    destruct a as [r c]. simpl app. simpl bfs_loop. simpl in Hvis.
    destruct (visit back_fuel start target (r, c) (neighbors r c grid) (A ++ B) prev)
      as [res|q' prev'].
    + destruct Hvis as (s & -> & Hs & Hp & Hd). left. by exists s, k.
    + destruct Hvis as (B' & -> & Hinv' & Hle).
      simpl in Hfuel.
      destruct A as [|a' A'].
      * apply bfs_inv_level in Hinv'.
        specialize (IH (S k) B' [] prev' (r, c) Hinv' (λ _, eq_refl)).
        rewrite app_nil_r in IH. simpl in *. apply IH; lia.
      * apply (IH k (a' :: A') B' prev' (r, c) Hinv'); [done|lia|lia].
Qed.

(** The state the search starts from satisfies the invariant. *)
Lemma bfs_inv_init u :
  start ≠ target → bfs_inv 0 [start] [] {[ start := None ]} u [].
Proof.
  intros Hne. split.
  - by rewrite lookup_singleton_eq.
  - intros v Hv. by apply lookup_singleton_Some in Hv as [<- _].
  - intros v p Hv. apply lookup_singleton_Some in Hv as [_ [=]].
  - intros v Hv. apply list_elem_of_singleton in Hv as ->.
    split; [apply is_dist_refl|]. rewrite lookup_singleton_eq. by eexists.
  - intros v Hv. by apply elem_of_nil in Hv.
  - intros v m Hm Hle. assert (m = 0%nat) as -> by lia.
    apply path_zero in Hm as <-. rewrite lookup_singleton_eq. by eexists.
  - intros v [x Hv]. apply lookup_singleton_Some in Hv as [<- _].
    left. by left.
  - by rewrite lookup_singleton_ne.
Qed.

(** The search from its initial state: it ends, either on the first
    move of a shortest path or on [None] when there is no path. *)
Lemma bfs_first_step_run_spec :
  start ≠ target →
  (∃ c m, bfs_first_step_run start target grid = Done (Some c) ∧
          edge start c ∧ path c m target ∧ is_dist start (S m) target)
  ∨ (bfs_first_step_run start target grid = Done None ∧
     ∀ n, ¬ path start n target).
Proof.
  intros Hne. unfold bfs_first_step_run. rewrite decide_False by done.
  apply (bfs_loop_spec (bfs_fuel grid) (bfs_fuel grid) 0 [start] []
           {[ start := None ]} start).
  - by apply bfs_inv_init.
  - done.
  - simpl. unfold bfs_fuel. pose proof (unvisited_bound grid {[ start := None ]}). lia.
  - lia.
Qed.
End Search.

(** The search never fails on its dictionary and never exhausts its
    budget: [bfs_first_step] loses nothing of [bfs_first_step_run]. *)
Lemma bfs_run_done start target grid :
  bfs_first_step_run start target grid = Done (bfs_first_step start target grid).
Proof.
  unfold bfs_first_step. destruct (decide (start = target)) as [->|Hne].
  - unfold bfs_first_step_run. by rewrite decide_True.
  - destruct (bfs_first_step_run_spec grid start target Hne)
      as [(c & m & -> & _)|[-> _]]; done.
Qed.

Lemma bfs_first_step_same start grid :
  bfs_first_step start start grid = Some start.
Proof. unfold bfs_first_step, bfs_first_step_run. by rewrite decide_True. Qed.

Lemma bfs_first_step_Some start target grid c :
  start ≠ target → bfs_first_step start target grid = Some c →
  edge grid start c ∧ ∃ m, path grid c m target ∧ is_dist grid start (S m) target.
Proof.
  intros Hne Hc. pose proof (bfs_run_done start target grid) as Hrun.
  destruct (bfs_first_step_run_spec grid start target Hne)
    as [(c' & m & Hr & He & Hp & Hd)|[Hr _]]; rewrite Hr in Hrun.
  - injection Hrun as Hrun. rewrite <- Hrun in Hc. injection Hc as <-. eauto.
  - injection Hrun as Hrun. congruence.
Qed.

Lemma bfs_first_step_None start target grid :
  bfs_first_step start target grid = None → ∀ n, ¬ path grid start n target.
Proof.
  intros Hc. pose proof (bfs_run_done start target grid) as Hrun.
  destruct (decide (start = target)) as [->|Hne].
  { rewrite bfs_first_step_same in Hc. done. }
  destruct (bfs_first_step_run_spec grid start target Hne)
    as [(c' & m & Hr & _)|[Hr Hn]]; rewrite Hr in Hrun; [|done].
  injection Hrun as Hrun. congruence.
Qed.

(* ===================================================================== *)
(** ** Grid lookups *)
(* ===================================================================== *)

(** On a square grid a lookup inside the bounds never raises IndexError. *)
Lemma tile_at_in_range n grid r c :
  square n grid → 0 <= r < n → 0 <= c < n → is_Some (tile_at grid r c).
Proof.
  intros [Hlen Hrows] Hr Hc. unfold tile_at, py_index.
  rewrite decide_True by lia.
  destruct (grid !! Z.to_nat r) as [row|] eqn:Hrow.
  - rewrite decide_True by lia.
    apply lookup_lt_is_Some.
    rewrite Forall_forall in Hrows.
    specialize (Hrows row (list_elem_of_lookup_2 _ _ _ Hrow)). simpl in Hrows.
    lia.
  - apply lookup_ge_None in Hrow. lia.
Qed.

Lemma not_wall_true grid r c :
  not_wall grid r c = true ↔ tile_at grid r c = Some EMPTY.
Proof.
  unfold not_wall. destruct (tile_at grid r c) as [[]|]; simpl; split; try done.
Qed.

Lemma not_wall_false_wall grid r c :
  tile_at grid r c = Some WALL → not_wall grid r c = false.
Proof. unfold not_wall. by intros ->. Qed.

Lemma in_bounds_iff pos :
  in_bounds pos = true ↔ 0 <= pos.1 < GRID_SIZE ∧ 0 <= pos.2 < GRID_SIZE.
Proof.
  unfold in_bounds. rewrite andb_true_iff, !bool_decide_eq_true. tauto.
Qed.

Lemma edge_open_cell grid u v : grid_ok grid → edge grid u v → open_cell grid v.
Proof.
  intros [Hlen _] He. split.
  - apply in_bounds_iff. rewrite <- Hlen. by eapply edge_in_grid.
  - apply not_wall_true. by eapply edge_not_wall.
Qed.

(* ===================================================================== *)
(** ** Properties of the pathfinder *)
(* ===================================================================== *)

(** C1. On every square grid, for all cells [start] and [target],
    [bfs_first_step] returns (it raises nothing and its loops end), and:
    it returns [start] when [start == target]; when [target] can be
    reached from [start] it returns a cell [c] orthogonally adjacent to
    [start] (one that [neighbors] yields at [start]) from which [target]
    is [m] moves away, where [m + 1] is the length of a shortest path from
    [start] to [target]; and it returns [None] when [target] cannot be
    reached, in particular when [target] is a WALL. *)
Theorem bfs_first_step_correct (n : Z) (grid : grid_t) (start target : cell) :
  square n grid →
  bfs_first_step_run start target grid = Done (bfs_first_step start target grid)
  ∧ (start = target → bfs_first_step start target grid = Some start)
  ∧ (start ≠ target → reachable grid start target →
     ∃ c m, bfs_first_step start target grid = Some c ∧
            manhattan start c = 1 ∧ edge grid start c ∧
            path grid c m target ∧ is_dist grid start (S m) target)
  ∧ (start ≠ target → ¬ reachable grid start target →
     bfs_first_step start target grid = None)
  ∧ (start ≠ target → tile_at grid target.1 target.2 = Some WALL →
     bfs_first_step start target grid = None).
Proof.
  intros _. split; [apply bfs_run_done|].
  split; [intros ->; apply bfs_first_step_same|].
  assert (start ≠ target → ¬ reachable grid start target →
          bfs_first_step start target grid = None) as Hnone.
  { intros Hne Hun.
    destruct (bfs_first_step start target grid) as [c|] eqn:Hc; [|done].
    destruct (bfs_first_step_Some _ _ _ _ Hne Hc) as (He & m & Hp & Hd).
    destruct Hun. exists (S m). apply Hd. }
  split; [|split; [done|]].
  - intros Hne [k Hk].
    destruct (bfs_first_step start target grid) as [c|] eqn:Hc.
    + destruct (bfs_first_step_Some _ _ _ _ Hne Hc) as (He & m & Hp & Hd).
      exists c, m. split; [done|]. split; [by eapply edge_adjacent|done].
    + destruct (bfs_first_step_None _ _ _ Hc _ Hk).
  - intros Hne Hw. apply Hnone; [done|]. intros [k Hk].
    revert Hk. apply path_to_wall; [done|]. by apply not_wall_false_wall.
Qed.

Lemma edge_by_compute grid u v :
  bool_decide (v ∈ neighbors u.1 u.2 grid) = true → edge grid u v.
Proof. apply bool_decide_eq_true_1. Qed.

Lemma demo_grid_ok : grid_ok demo_grid.
Proof. split; [reflexivity|]. repeat constructor. Qed.

Lemma bfs_first_step_correct_witness :
  bfs_first_step (0, 0) (0, 0) demo_grid = Some (0, 0)
  ∧ (∃ c m, bfs_first_step (0, 0) (0, 2) demo_grid = Some c ∧
            manhattan (0, 0) c = 1 ∧ edge demo_grid (0, 0) c ∧
            path demo_grid c m (0, 2) ∧ is_dist demo_grid (0, 0) (S m) (0, 2))
  ∧ bfs_first_step (0, 0) (0, 1) demo_grid = None.
Proof.
  split; [|split].
  - apply (bfs_first_step_correct 9 demo_grid (0, 0) (0, 0) demo_grid_ok).
    reflexivity.
  - apply (bfs_first_step_correct 9 demo_grid (0, 0) (0, 2) demo_grid_ok).
    + discriminate.
    + exists 6%nat.
      apply (path_snoc _ _ _ (1, 2)); [|by apply edge_by_compute].
      apply (path_snoc _ _ _ (2, 2)); [|by apply edge_by_compute].
      apply (path_snoc _ _ _ (2, 1)); [|by apply edge_by_compute].
      apply (path_snoc _ _ _ (2, 0)); [|by apply edge_by_compute].
      apply (path_snoc _ _ _ (1, 0)); [|by apply edge_by_compute].
      apply (path_snoc _ _ _ (0, 0)); [|by apply edge_by_compute].
      apply path_nil.
  - apply (bfs_first_step_correct 9 demo_grid (0, 0) (0, 1) demo_grid_ok).
    + discriminate.
    + reflexivity.
Defined.

(* ===================================================================== *)
(** ** The player's move *)
(* ===================================================================== *)

Lemma destination_unit pos d : manhattan pos (destination pos d) = 1.
Proof. unfold manhattan, destination. destruct d; simpl; lia. Qed.

Lemma try_move_cases pos d grid :
  (try_move pos d grid = destination pos d ∧
   in_bounds (destination pos d) = true ∧
   not_wall grid (destination pos d).1 (destination pos d).2 = true)
  ∨ (try_move pos d grid = pos ∧
     (in_bounds (destination pos d) = false ∨
      not_wall grid (destination pos d).1 (destination pos d).2 = false)).
Proof.
  unfold try_move, destination, in_bounds.
  destruct (DIRS_get d) as [dr dc]. simpl.
  destruct (bool_decide (0 <= pos.1 + dr < GRID_SIZE)
            && bool_decide (0 <= pos.2 + dc < GRID_SIZE)); simpl; [|auto].
  destruct (not_wall grid (pos.1 + dr) (pos.2 + dc)); auto.
Qed.

(** C9. On a grid of the game, [try_move] returns the cell one unit step
    away in the given direction when that cell is inside the bounds and
    does not hold a WALL, and returns [pos] itself when the cell is out
    of bounds or holds a WALL; so a blocked move, tried again from the
    position it returned, returns that same position again. *)
Theorem try_move_spec (grid : grid_t) (pos : cell) (move_label : direction) :
  grid_ok grid →
  let dest := destination pos move_label in
  manhattan pos dest = 1
  ∧ (in_bounds dest = true → tile_at grid dest.1 dest.2 ≠ Some WALL →
     try_move pos move_label grid = dest)
  ∧ (in_bounds dest = false ∨ tile_at grid dest.1 dest.2 = Some WALL →
     try_move pos move_label grid = pos
     ∧ try_move (try_move pos move_label grid) move_label grid = pos).
Proof.
  intros Hok. cbv zeta. generalize (try_move_cases pos move_label grid).
  generalize (destination_unit pos move_label).
  generalize (destination pos move_label). intros dest Hunit Hcases.
  split; [done|].
  destruct Hcases as [(Heq & Hb & Hw)|(Heq & Hblocked)].
  - split; [done|]. intros [Hout|Hwall]; [congruence|].
    apply not_wall_false_wall in Hwall. congruence.
  - split.
    + intros Hb Hnw. destruct Hblocked as [Hout|Hw]; [congruence|].
      apply in_bounds_iff in Hb.
      destruct (tile_at_in_range _ _ dest.1 dest.2 Hok) as [t Ht]; [tauto..|].
      unfold not_wall in Hw. rewrite Ht in Hw. destruct t; [done|congruence].
    + intros _. by rewrite !Heq.
Qed.

Lemma try_move_spec_witness :
  try_move (0, 0) east demo_grid = (0, 0)
  ∧ try_move (try_move (0, 0) east demo_grid) east demo_grid = (0, 0).
Proof.
  apply (try_move_spec demo_grid (0, 0) east demo_grid_ok).
  right. reflexivity.
Defined.

Lemma try_move_open grid pos d :
  open_cell grid pos → open_cell grid (try_move pos d grid).
Proof.
  intros Hpos.
  destruct (try_move_cases pos d grid) as [(-> & Hb & Hw)|(-> & _)]; [|done].
  split; [done|]. by apply not_wall_true.
Qed.

(* ===================================================================== *)
(** ** A stunned adversary *)
(* ===================================================================== *)

(** C8. An adversary whose stun counter is above 0 when its turn starts
    keeps its position, has its counter lowered by exactly one, and
    leaves the trap set as it found it; this holds for both adversaries. *)
Theorem stunned_turn_skipped (ai_pos ai2_pos player_pos goal_pos : cell)
    (grid : grid_t) (traps : gset cell) (this_moves : list direction)
    (model : markov) (global_counts : counter) (stunned : Z) :
  stunned > 0 →
  ai_a_turn ai_pos player_pos grid traps this_moves model global_counts
    stunned goal_pos ai2_pos = ((ai_pos, stunned - 1), traps)
  ∧ ai_b_turn ai2_pos player_pos grid traps stunned ai_pos
    = ((ai2_pos, stunned - 1), traps).
Proof.
  intros Hs. unfold ai_a_turn, ai_b_turn.
  by rewrite !bool_decide_eq_true_2.
Qed.

Lemma stunned_turn_skipped_witness :
  ai_a_turn (8, 8) (0, 0) demo_grid {[ (7, 8) ]} [] [] [] 2 (0, 8) (8, 0)
    = (((8, 8), 1), {[ (7, 8) ]})
  ∧ ai_b_turn (8, 0) (0, 0) demo_grid {[ (7, 8) ]} 2 (8, 8)
    = (((8, 0), 1), {[ (7, 8) ]}).
Proof.
  apply (stunned_turn_skipped (8, 8) (8, 0) (0, 0) (0, 8) demo_grid
           {[ (7, 8) ]} [] [] [] 2).
  reflexivity.
Defined.

(* ===================================================================== *)
(** ** The primary adversary and the prediction model *)
(* ===================================================================== *)

(** The turn of agent A reads none of [this_moves], [model] and
    [global_counts]. *)
Lemma ai_a_turn_model_irrelevant ai_pos player_pos grid traps stunned goal_pos
    ai2_pos this_moves1 this_moves2 (model1 model2 : markov)
    (global_counts1 global_counts2 : counter) :
  ai_a_turn ai_pos player_pos grid traps this_moves1 model1 global_counts1
    stunned goal_pos ai2_pos
  = ai_a_turn ai_pos player_pos grid traps this_moves2 model2 global_counts2
    stunned goal_pos ai2_pos.
Proof. reflexivity. Qed.

(** So the whole game runs the same on another model: every pass of the
    loop does to the game with the other model what it does to the game,
    and writes the same file. *)
Lemma player_action_with_model mo gc g ch :
  player_action (with_model mo gc g) ch = with_model mo gc (player_action g ch).
Proof.
  destruct ch as [| |d|]; simpl; try done.
  - by destruct (_ && _).
  - by destruct (decide _).
Qed.

Lemma adversaries_with_model mo gc g :
  adversaries (with_model mo gc g) = with_model mo gc (adversaries g).
Proof.
  unfold adversaries. simpl.
  rewrite (ai_a_turn_model_irrelevant _ _ _ _ _ _ _ _ (this_game_moves g) mo
             (model g) gc (global_counts g)).
  destruct (ai_a_turn _ _ _ _ _ _ _ _ _ _) as [[a sa] t1].
  by destruct (ai_b_turn _ _ _ _ _ _) as [[b sb] t2].
Qed.

(** The end of a session: saved, or left by the exception. *)
Ltac save_cases :=
  unfold save_and_return;
  repeat match goal with
         | |- context [save_game ?moves ?result ?n ?file] =>
             destruct (save_game moves result n file)
         end;
  cbv iota.

Lemma save_and_return_state result g file :
  state_of (save_and_return result g file).1 = g
  ∧ result_of (save_and_return result g file).1 = Some result.
Proof. by save_cases. Qed.

Lemma save_and_return_with_model mo gc result g file :
  save_and_return result (with_model mo gc g) file
  = (map_state (with_model mo gc) (save_and_return result g file).1,
     (save_and_return result g file).2).
Proof.
  unfold save_and_return. simpl. by destruct (save_game _ _ _ _).
Qed.

Lemma finish_turn_with_model mo gc g file :
  finish_turn (with_model mo gc g) file
  = (map_state (with_model mo gc) (finish_turn g file).1, (finish_turn g file).2).
Proof.
  unfold finish_turn. rewrite adversaries_with_model. simpl.
  destruct (decide (player_pos g = goal_pos g));
    [apply save_and_return_with_model|].
  destruct (decide (_ ∨ _)); [apply save_and_return_with_model|done].
Qed.

Lemma play_turn_with_model mo gc g ch file :
  play_turn (with_model mo gc g) ch file
  = (map_state (with_model mo gc) (play_turn g ch file).1, (play_turn g ch file).2).
Proof.
  destruct ch; [apply save_and_return_with_model|..]; unfold play_turn;
    rewrite player_action_with_model; apply finish_turn_with_model.
Qed.

Lemma play_with_model mo gc keys :
  ∀ g file,
    play keys (with_model mo gc g) file
    = (map_state (with_model mo gc) (play keys g file).1, (play keys g file).2).
Proof.
  induction keys as [|ch keys IH]; intros g file; simpl; [done|].
  rewrite play_turn_with_model.
  destruct (play_turn g ch file) as [[g'|result g'|result g'] file']; simpl;
    [apply IH|done..].
Qed.

(** C2, as the code has it.  The turn of the primary adversary is the
    same whatever prediction model, global counts and session moves it
    is given: [ai_a_turn] receives them and reads none.  So a game played
    on the same keys with another model in place goes through the same
    positions, trap sets, stun counters and results, and leaves the same
    memory file. *)
Theorem ai_a_turn_ignores_model (ai_pos ai2_pos player_pos goal_pos : cell)
    (grid : grid_t) (traps : gset cell) (stunned : Z)
    (this_moves1 this_moves2 : list direction) (model1 model2 : markov)
    (global_counts1 global_counts2 : counter)
    (g : game) (keys : list key) (file : memory_file) :
  ai_a_turn ai_pos player_pos grid traps this_moves1 model1 global_counts1
    stunned goal_pos ai2_pos
  = ai_a_turn ai_pos player_pos grid traps this_moves2 model2 global_counts2
    stunned goal_pos ai2_pos
  ∧ play keys (with_model model2 global_counts2 g) file
    = (map_state (with_model model2 global_counts2) (play keys g file).1,
       (play keys g file).2).
Proof.
  split.
  - apply ai_a_turn_model_irrelevant.
  - apply play_with_model.
Qed.

(** C2 as stated fails: there are no inputs on which two prediction
    models give the primary adversary two different turns. *)
Lemma ai_a_turn_model_dependence_refuted :
  ¬ ∃ (ai_pos ai2_pos player_pos goal_pos : cell) (grid : grid_t)
      (traps : gset cell) (stunned : Z) (this_moves : list direction)
      (model1 model2 : markov) (global_counts1 global_counts2 : counter),
      ai_a_turn ai_pos player_pos grid traps this_moves model1 global_counts1
        stunned goal_pos ai2_pos
      ≠ ai_a_turn ai_pos player_pos grid traps this_moves model2 global_counts2
        stunned goal_pos ai2_pos.
Proof.
  intros (ai_pos & ai2_pos & player_pos & goal_pos & grid & traps & stunned &
          this_moves & model1 & model2 & gc1 & gc2 & Hne).
  apply Hne. unfold ai_a_turn. reflexivity.
Qed.

(* ===================================================================== *)
(** ** The candidate scan *)
(* ===================================================================== *)

Lemma candidates_legal grid pos other c :
  c ∈ candidates grid pos other → legal grid other c ∧ manhattan pos c = 1.
Proof.
  unfold candidates, candidates_of. rewrite list_elem_of_filter, list_elem_of_fmap.
  intros [Hl (item & -> & Hitem)]. split; [done|].
  unfold manhattan. simpl.
  assert (item.2 ∈ DIRS_values) as Hd by (by apply list_elem_of_fmap_2).
  apply DIRS_values_unit in Hd. lia.
Qed.

(** What the scan computes: it keeps [(best0, d0)] when no candidate is
    strictly nearer than [d0]; otherwise it ends on the first of the
    candidates nearest to [aim]. *)
Lemma scan_fold_spec grid pos other aim items :
  ∀ best0 d0,
    ∃ b bd,
      fold_left (scan_step grid pos other aim) items (best0, d0) = (b, bd) ∧
      ((b = best0 ∧ bd = d0 ∧
        ∀ c, c ∈ candidates_of grid pos other items → d0 <= manhattan c aim)
       ∨ (bd = manhattan b aim ∧ bd < d0 ∧
          ∃ l1 l2, candidates_of grid pos other items = l1 ++ b :: l2 ∧
                   (∀ c, c ∈ l1 → bd < manhattan c aim) ∧
                   (∀ c, c ∈ l2 → bd <= manhattan c aim))).
Proof.
  induction items as [|[name [dr dc]] items IH]; intros best0 d0.
  { exists best0, d0. split; [done|]. left. split; [done|]. split; [done|].
    intros c Hc. by apply elem_of_nil in Hc. }
  unfold candidates_of in *. simpl fold_left. simpl map. rewrite filter_cons.
  set (cand := (pos.1 + dr, pos.2 + dc)).
  assert (in_bounds cand && not_wall grid cand.1 cand.2 && bool_decide (cand ≠ other)
          = bool_decide (legal grid other cand)) as Hlegal.
  { destruct (decide (legal grid other cand)) as [Hl|Hl].
    - rewrite (bool_decide_eq_true_2 _ Hl). destruct Hl as (-> & -> & Hne).
      simpl. by rewrite bool_decide_eq_true_2.
    - rewrite (bool_decide_eq_false_2 _ Hl).
      destruct (in_bounds cand) eqn:E1; [|done].
      destruct (not_wall grid cand.1 cand.2) eqn:E2; [|done].
      simpl. apply bool_decide_eq_false_2. intros Hne. by apply Hl. }
  change (not_wall grid (pos.1 + dr) (pos.2 + dc)) with (not_wall grid cand.1 cand.2).
  rewrite Hlegal.
  destruct (decide (legal grid other cand)) as [Hl|Hl].
  - rewrite bool_decide_eq_true_2 by done.
    destruct (decide (manhattan cand aim < d0)) as [Hlt|Hge].
    + rewrite bool_decide_eq_true_2 by done.
      destruct (IH cand (manhattan cand aim)) as (b & bd & Hf & Hcases).
      exists b, bd. split; [done|]. right.
      destruct Hcases as [(-> & -> & Hall)|(Hbd & Hlt' & l1 & l2 & Heq & H1 & H2)].
      * split; [done|]. split; [done|]. eexists [], _. split; [done|].
        split; [|done]. intros c Hc. by apply elem_of_nil in Hc.
      * split; [done|]. split; [lia|]. exists (cand :: l1), l2.
        split; [by rewrite Heq|]. split; [|done].
        intros c Hc. apply elem_of_cons in Hc as [->|Hc]; [lia|auto].
    + rewrite bool_decide_eq_false_2 by done.
      destruct (IH best0 d0) as (b & bd & Hf & Hcases).
      exists b, bd. split; [done|].
      destruct Hcases as [(-> & -> & Hall)|(Hbd & Hlt' & l1 & l2 & Heq & H1 & H2)].
      * left. split; [done|]. split; [done|].
        intros c Hc. apply elem_of_cons in Hc as [->|Hc]; [lia|auto].
      * right. split; [done|]. split; [done|]. exists (cand :: l1), l2.
        split; [by rewrite Heq|]. split; [|done].
        intros c Hc. apply elem_of_cons in Hc as [->|Hc]; [lia|auto].
  - rewrite bool_decide_eq_false_2 by done. apply IH.
Qed.

Lemma scan_dirs_spec grid pos other aim best0 d0 :
  let b := scan_dirs grid pos other aim best0 d0 in
  (b = best0 ∧ ∀ c, c ∈ candidates grid pos other → d0 <= manhattan c aim)
  ∨ (manhattan b aim < d0 ∧
     ∃ l1 l2, candidates grid pos other = l1 ++ b :: l2 ∧
              (∀ c, c ∈ l1 → manhattan b aim < manhattan c aim) ∧
              (∀ c, c ∈ l2 → manhattan b aim <= manhattan c aim)).
Proof.
  unfold scan_dirs, candidates.
  destruct (scan_fold_spec grid pos other aim DIRS best0 d0)
    as (b & bd & -> & [(-> & -> & Hall)|(-> & Hlt & Hrest)]); simpl; auto.
Qed.

(** The cell the scan ends on is the one it started with or a candidate. *)
Lemma scan_dirs_cases grid pos other aim best0 d0 :
  scan_dirs grid pos other aim best0 d0 = best0
  ∨ scan_dirs grid pos other aim best0 d0 ∈ candidates grid pos other.
Proof.
  destruct (scan_dirs_spec grid pos other aim best0 d0)
    as [[-> _]|(_ & l1 & l2 & Heq & _)]; [by left|right].
  rewrite Heq. apply elem_of_app. right. by left.
Qed.

(* ===================================================================== *)
(** ** The secondary adversary's choice *)
(* ===================================================================== *)

(** C6, as the code has it.  At a step from the cell [pos], agent B looks
    at the candidates: the cells one step away in the order north, south,
    west, east that are inside the bounds, hold no WALL and are not agent
    A's cell.  Its choice depends on the grid, the player's cell, agent
    A's cell and [pos] alone.  When some candidate is strictly nearer to
    the player (Manhattan distance) than [pos], B picks a candidate of
    least distance to the player, the first such in the order of the
    directions; when no candidate is strictly nearer than [pos], B picks
    [pos] itself and does not move. *)
Theorem ai_b_choose_spec (grid : grid_t) (player_pos ai_pos pos : cell) :
  grid_ok grid →
  let best := ai_b_choose player_pos grid ai_pos pos in
  let cands := candidates grid pos ai_pos in
  (∀ c, c ∈ cands →
     in_bounds c = true ∧ tile_at grid c.1 c.2 = Some EMPTY ∧ c ≠ ai_pos ∧
     manhattan pos c = 1)
  ∧ ((∃ c, c ∈ cands ∧ manhattan c player_pos < manhattan pos player_pos) →
     manhattan best player_pos < manhattan pos player_pos ∧
     ∃ l1 l2, cands = l1 ++ best :: l2 ∧
              (∀ c, c ∈ l1 → manhattan best player_pos < manhattan c player_pos) ∧
              (∀ c, c ∈ l2 → manhattan best player_pos <= manhattan c player_pos))
  ∧ ((∀ c, c ∈ cands → manhattan pos player_pos <= manhattan c player_pos) →
     best = pos).
Proof.
  intros _ best cands. split; [|split].
  - intros c Hc. apply candidates_legal in Hc as [(Hb & Hw & Hne) Hm].
    by rewrite <- not_wall_true.
  - intros (c & Hc & Hlt).
    destruct (scan_dirs_spec grid pos ai_pos player_pos pos (manhattan pos player_pos))
      as [[_ Hall]|Hfound]; [|done].
    specialize (Hall c Hc). lia.
  - intros Hall.
    destruct (scan_dirs_spec grid pos ai_pos player_pos pos (manhattan pos player_pos))
      as [[Heq _]|(Hlt & l1 & l2 & Heq & _)]; [done|].
    fold (ai_b_choose player_pos grid ai_pos pos) in Hlt, Heq. fold best in Hlt, Heq.
    fold cands in Heq.
    assert (best ∈ cands) as Hin by (rewrite Heq; apply elem_of_app; right; by left).
    specialize (Hall best Hin). lia.
Qed.

(** Two steps of agent B on the example grid.  With the player on
    (3, 0), agent A on (3, 2) and B on (3, 5), the candidates are at
    distances 6, 6, 4 and 6: B picks the third, (3, 4).  With the player
    on (0, 2) and B on (0, 0), the only candidate is farther than B: B
    stays. *)
Lemma ai_b_choose_spec_witness :
  (manhattan (ai_b_choose (3, 0) demo_grid (3, 2) (3, 5)) (3, 0)
   < manhattan (3, 5) (3, 0)
   ∧ ∃ l1 l2,
       candidates demo_grid (3, 5) (3, 2)
       = l1 ++ ai_b_choose (3, 0) demo_grid (3, 2) (3, 5) :: l2 ∧
       (∀ c, c ∈ l1 →
          manhattan (ai_b_choose (3, 0) demo_grid (3, 2) (3, 5)) (3, 0)
          < manhattan c (3, 0)) ∧
       (∀ c, c ∈ l2 →
          manhattan (ai_b_choose (3, 0) demo_grid (3, 2) (3, 5)) (3, 0)
          <= manhattan c (3, 0)))
  ∧ ai_b_choose (0, 2) demo_grid (5, 5) (0, 0) = (0, 0).
Proof.
  split.
  - apply (ai_b_choose_spec demo_grid (3, 0) (3, 2) (3, 5) demo_grid_ok).
    exists (3, 4). split; [|reflexivity].
    assert (bool_decide ((3, 4) ∈ candidates demo_grid (3, 5) (3, 2)) = true)
      as Hin by reflexivity.
    by apply bool_decide_eq_true_1 in Hin.
  - apply (ai_b_choose_spec demo_grid (0, 2) (5, 5) (0, 0) demo_grid_ok).
    intros c Hc. vm_compute in Hc.
    apply list_elem_of_singleton in Hc as ->. vm_compute. discriminate.
Defined.

(** C6 as stated fails.  With B on (0, 0), the player on (0, 2) and a
    WALL on (0, 1), the only candidate is (1, 0), at distance 3; B does
    not pick it: it picks its own cell, which is no candidate. *)
Lemma ai_b_choose_not_a_candidate :
  candidates demo_grid (0, 0) (5, 5) = [(1, 0)]
  ∧ ai_b_choose (0, 2) demo_grid (5, 5) (0, 0) = (0, 0)
  ∧ (ai_b_choose (0, 2) demo_grid (5, 5) (0, 0) ∉ candidates demo_grid (0, 0) (5, 5))
  ∧ ai_b_turn (0, 0) (0, 2) demo_grid ∅ 0 (5, 5) = (((0, 0), 0), ∅).
Proof.
  split; [reflexivity|]. split; [reflexivity|]. split; [|reflexivity].
  intros Hin. vm_compute in Hin. apply list_elem_of_singleton in Hin. discriminate.
Qed.

(* ===================================================================== *)
(** ** Loops of the adversaries *)
(* ===================================================================== *)

(** A property kept by the body of a loop holds when the loop is left. *)
Lemma for_range_inv {S} (P : S → Prop) (body : S → loop_exit * S) n st :
  P st → (∀ s, P s → P (body s).2) → P (for_range n body st).
Proof.
  intros Hst Hbody. revert st Hst. induction n as [|n IH]; intros st Hst; simpl.
  - done.
  - specialize (Hbody st Hst). destruct (body st) as [[|] st']; simpl in Hbody; auto.
Qed.

(** The step agent A chooses is its own cell, a neighbour the search
    gave, or a candidate of the fallback scan. *)
Lemma ai_a_choose_cases player_pos grid goal_pos ai2_pos pos :
  ai_a_choose player_pos grid goal_pos ai2_pos pos = pos
  ∨ edge grid pos (ai_a_choose player_pos grid goal_pos ai2_pos pos)
  ∨ ai_a_choose player_pos grid goal_pos ai2_pos pos ∈ candidates grid pos ai2_pos.
Proof.
  unfold ai_a_choose.
  set (target := default player_pos (bfs_first_step player_pos goal_pos grid)).
  destruct (bfs_first_step pos target grid) as [step|] eqn:Hstep.
  - destruct (decide (pos = target)) as [->|Hne].
    + rewrite bfs_first_step_same in Hstep. left. congruence.
    + right; left. by apply (bfs_first_step_Some _ _ _ _ Hne Hstep).
  - destruct (scan_dirs_cases grid pos ai2_pos target pos (10 ^ 9)); auto.
Qed.

Lemma ai_b_choose_cases player_pos grid ai_pos pos :
  ai_b_choose player_pos grid ai_pos pos = pos
  ∨ ai_b_choose player_pos grid ai_pos pos ∈ candidates grid pos ai_pos.
Proof. apply scan_dirs_cases. Qed.

Lemma candidate_open grid pos other c :
  c ∈ candidates grid pos other → open_cell grid c.
Proof.
  intros Hc. apply candidates_legal in Hc as [(Hb & Hw & _) _].
  split; [done|]. by apply not_wall_true.
Qed.

Lemma ai_a_choose_open player_pos grid goal_pos ai2_pos pos :
  grid_ok grid → open_cell grid pos →
  open_cell grid (ai_a_choose player_pos grid goal_pos ai2_pos pos).
Proof.
  intros Hok Hpos.
  destruct (ai_a_choose_cases player_pos grid goal_pos ai2_pos pos) as [->|[He|Hc]].
  - done.
  - by eapply edge_open_cell.
  - by eapply candidate_open.
Qed.

Lemma ai_b_choose_open player_pos grid ai_pos pos :
  open_cell grid pos → open_cell grid (ai_b_choose player_pos grid ai_pos pos).
Proof.
  intros Hpos. destruct (ai_b_choose_cases player_pos grid ai_pos pos) as [->|Hc].
  - done.
  - by eapply candidate_open.
Qed.

Lemma ai_b_choose_avoids player_pos grid ai_pos pos :
  pos ≠ ai_pos → ai_b_choose player_pos grid ai_pos pos ≠ ai_pos.
Proof.
  intros Hne. destruct (ai_b_choose_cases player_pos grid ai_pos pos) as [->|Hc].
  - done.
  - apply candidates_legal in Hc as [(_ & _ & Hc) _]. done.
Qed.

Lemma ai_a_step_cases player_pos grid goal_pos ai2_pos pos s traps :
  let step := ai_a_choose player_pos grid goal_pos ai2_pos pos in
  let out := ai_a_step player_pos grid goal_pos ai2_pos (pos, s, traps) in
  (step = ai2_pos ∧ out = (Break, (pos, s, traps)))
  ∨ (step ≠ ai2_pos ∧ step ∈ traps ∧
     out = (Break, (step, AI_STUN_TURNS, traps ∖ {[ step ]})))
  ∨ (step ≠ ai2_pos ∧ (step ∉ traps) ∧ out = (Continue, (step, s, traps))).
Proof.
  intros step out. unfold out, ai_a_step. fold step.
  destruct (decide (step = ai2_pos)); [by left|].
  destruct (decide (step ∈ traps)); [right; by left|right; by right].
Qed.

Lemma ai_b_step_cases player_pos grid ai_pos pos s traps :
  let best := ai_b_choose player_pos grid ai_pos pos in
  let out := ai_b_step player_pos grid ai_pos (pos, s, traps) in
  (best = ai_pos ∧ out = (Break, (pos, s, traps)))
  ∨ (best ≠ ai_pos ∧ best ∈ traps ∧
     out = (Break, (best, AI_STUN_TURNS, traps ∖ {[ best ]})))
  ∨ (best ≠ ai_pos ∧ (best ∉ traps) ∧ out = (Continue, (best, s, traps))).
Proof.
  intros best out. unfold out, ai_b_step. fold best.
  destruct (decide (best = ai_pos)); [by left|].
  destruct (decide (best ∈ traps)); [right; by left|right; by right].
Qed.

(** A loop that breaks when it enters a trap: seen from its start, the
    state it ends in has entered no trap or exactly one. *)
Lemma for_range_trap_inv (body : agent_state → loop_exit * agent_state)
    (choose : cell → cell) (traps0 : gset cell) :
  (∀ pos s traps,
     (body (pos, s, traps) = (Break, (pos, s, traps)))
     ∨ (choose pos ∈ traps ∧
        body (pos, s, traps) = (Break, (choose pos, AI_STUN_TURNS, traps ∖ {[ choose pos ]})))
     ∨ (body (pos, s, traps) = (Continue, (choose pos, s, traps)))) →
  ∀ n pos, loop_trap_inv traps0 (for_range n body (pos, 0, traps0)).
Proof.
  intros Hbody. induction n as [|n IH]; intros pos; simpl.
  - by left.
  - destruct (Hbody pos 0 traps0) as [->|[[Hin ->]| ->]].
    + by left.
    + right. done.
    + apply IH.
Qed.

Lemma ai_a_loop_trap_inv player_pos grid goal_pos ai2_pos traps n pos :
  loop_trap_inv traps
    (for_range n (ai_a_step player_pos grid goal_pos ai2_pos) (pos, 0, traps)).
Proof.
  apply (for_range_trap_inv _ (ai_a_choose player_pos grid goal_pos ai2_pos)).
  intros p s t.
  destruct (ai_a_step_cases player_pos grid goal_pos ai2_pos p s t)
    as [[_ ->]|[(_ & Hin & ->)|(_ & _ & ->)]]; auto.
Qed.

Lemma ai_b_loop_trap_inv player_pos grid ai_pos traps n pos :
  loop_trap_inv traps
    (for_range n (ai_b_step player_pos grid ai_pos) (pos, 0, traps)).
Proof.
  apply (for_range_trap_inv _ (ai_b_choose player_pos grid ai_pos)).
  intros p s t.
  destruct (ai_b_step_cases player_pos grid ai_pos p s t)
    as [[_ ->]|[(_ & Hin & ->)|(_ & _ & ->)]]; auto.
Qed.

(** The turns, seen through their loops. *)
Lemma ai_a_turn_unstunned ai_pos player_pos grid traps this_moves model
    global_counts stunned goal_pos ai2_pos :
  stunned <= 0 →
  ∃ st,
    st = for_range (move_budget ai_pos player_pos)
           (ai_a_step player_pos grid goal_pos ai2_pos) (ai_pos, 0, traps) ∧
    ai_a_turn ai_pos player_pos grid traps this_moves model global_counts
      stunned goal_pos ai2_pos = ((st.1.1, st.1.2), st.2).
Proof.
  intros Hs. unfold ai_a_turn. rewrite bool_decide_eq_false_2 by lia.
  eexists. split; [reflexivity|].
  by destruct (for_range _ _ _) as [[p s] t].
Qed.

Lemma ai_b_turn_unstunned ai2_pos player_pos grid traps stunned ai_pos :
  stunned <= 0 →
  ∃ st,
    st = for_range (move_budget ai2_pos player_pos)
           (ai_b_step player_pos grid ai_pos) (ai2_pos, 0, traps) ∧
    ai_b_turn ai2_pos player_pos grid traps stunned ai_pos
      = ((st.1.1, st.1.2), st.2).
Proof.
  intros Hs. unfold ai_b_turn. rewrite bool_decide_eq_false_2 by lia.
  eexists. split; [reflexivity|].
  by destruct (for_range _ _ _) as [[p s] t].
Qed.

Lemma ai_a_turn_stunned ai_pos player_pos grid traps this_moves model
    global_counts stunned goal_pos ai2_pos :
  stunned > 0 →
  ai_a_turn ai_pos player_pos grid traps this_moves model global_counts
    stunned goal_pos ai2_pos = ((ai_pos, stunned - 1), traps).
Proof. intros Hs. unfold ai_a_turn. by rewrite bool_decide_eq_true_2. Qed.

Lemma ai_b_turn_stunned ai2_pos player_pos grid traps stunned ai_pos :
  stunned > 0 →
  ai_b_turn ai2_pos player_pos grid traps stunned ai_pos
  = ((ai2_pos, stunned - 1), traps).
Proof. intros Hs. unfold ai_b_turn. by rewrite bool_decide_eq_true_2. Qed.

(** The position after a turn satisfies what every step keeps. *)
Lemma ai_a_turn_pos_inv (P : cell → Prop) ai_pos player_pos grid traps
    this_moves model global_counts stunned goal_pos ai2_pos :
  P ai_pos →
  (∀ pos, P pos → ai_a_choose player_pos grid goal_pos ai2_pos pos ≠ ai2_pos →
          P (ai_a_choose player_pos grid goal_pos ai2_pos pos)) →
  P (ai_a_turn ai_pos player_pos grid traps this_moves model global_counts
       stunned goal_pos ai2_pos).1.1.
Proof.
  intros Hpos Hstep. destruct (decide (stunned > 0)) as [Hs|Hs].
  { by rewrite ai_a_turn_stunned. }
  destruct (ai_a_turn_unstunned ai_pos player_pos grid traps this_moves model
              global_counts stunned goal_pos ai2_pos) as (st & -> & ->); [lia|].
  simpl. apply (for_range_inv (λ st : agent_state, P st.1.1)); [done|].
  intros [[p s] t] Hp. simpl in Hp.
  destruct (ai_a_step_cases player_pos grid goal_pos ai2_pos p s t)
    as [[_ ->]|[(? & _ & ->)|(? & _ & ->)]]; simpl; auto.
Qed.

Lemma ai_b_turn_pos_inv (P : cell → Prop) ai2_pos player_pos grid traps
    stunned ai_pos :
  P ai2_pos →
  (∀ pos, P pos → ai_b_choose player_pos grid ai_pos pos ≠ ai_pos →
          P (ai_b_choose player_pos grid ai_pos pos)) →
  P (ai_b_turn ai2_pos player_pos grid traps stunned ai_pos).1.1.
Proof.
  intros Hpos Hstep. destruct (decide (stunned > 0)) as [Hs|Hs].
  { by rewrite ai_b_turn_stunned. }
  destruct (ai_b_turn_unstunned ai2_pos player_pos grid traps stunned ai_pos)
    as (st & -> & ->); [lia|].
  simpl. apply (for_range_inv (λ st : agent_state, P st.1.1)); [done|].
  intros [[p s] t] Hp. simpl in Hp.
  destruct (ai_b_step_cases player_pos grid ai_pos p s t)
    as [[_ ->]|[(? & _ & ->)|(? & _ & ->)]]; simpl; auto.
Qed.

(* ===================================================================== *)
(** ** Traps *)
(* ===================================================================== *)

Lemma ai_a_turn_trap_outcome ai_pos player_pos grid traps this_moves model
    global_counts stunned goal_pos ai2_pos :
  trap_outcome traps stunned
    (ai_a_turn ai_pos player_pos grid traps this_moves model global_counts
       stunned goal_pos ai2_pos).
Proof.
  destruct (decide (stunned > 0)) as [Hs|Hs].
  { rewrite ai_a_turn_stunned by done. left. simpl. auto. }
  destruct (ai_a_turn_unstunned ai_pos player_pos grid traps this_moves model
              global_counts stunned goal_pos ai2_pos) as (st & Hst & ->); [lia|].
  pose proof (ai_a_loop_trap_inv player_pos grid goal_pos ai2_pos traps
                (move_budget ai_pos player_pos) ai_pos) as Hinv.
  rewrite <- Hst in Hinv. destruct Hinv as [[H1 H2]|(H1 & H2 & H3)].
  - left. simpl. auto.
  - right. simpl. split; [lia|done].
Qed.

Lemma ai_b_turn_trap_outcome ai2_pos player_pos grid traps stunned ai_pos :
  trap_outcome traps stunned
    (ai_b_turn ai2_pos player_pos grid traps stunned ai_pos).
Proof.
  destruct (decide (stunned > 0)) as [Hs|Hs].
  { rewrite ai_b_turn_stunned by done. left. simpl. auto. }
  destruct (ai_b_turn_unstunned ai2_pos player_pos grid traps stunned ai_pos)
    as (st & Hst & ->); [lia|].
  pose proof (ai_b_loop_trap_inv player_pos grid ai_pos traps
                (move_budget ai2_pos player_pos) ai2_pos) as Hinv.
  rewrite <- Hst in Hinv. destruct Hinv as [[H1 H2]|(H1 & H2 & H3)].
  - left. simpl. auto.
  - right. simpl. split; [lia|done].
Qed.

(** A cell without a trap stuns nobody and gets no trap from a turn. *)
Lemma trap_outcome_gone traps stunned r c :
  trap_outcome traps stunned r → c ∉ traps →
  (c ∉ r.2) ∧ (stunned <= 0 → r.1.2 > 0 → r.1.1 ≠ c).
Proof.
  intros [[-> Hs]|(Hs & Hst & Hin & ->)] Hc.
  - split; [done|]. intros Hle Hpos. destruct Hs as [Hz|[? _]]; lia.
  - split; [|intros _ _ Heq; by rewrite Heq in Hin].
    intros Hc'. apply elem_of_difference in Hc' as [Hc' _]. done.
Qed.

(** A loop that breaks when it enters a trap never ends on a cell that
    held a trap when it started without having entered that trap, the
    cell it started on apart. *)
Lemma for_range_trap_entered (body : agent_state → loop_exit * agent_state)
    (choose : cell → cell) (traps0 : gset cell) :
  (∀ pos s traps,
     (body (pos, s, traps) = (Break, (pos, s, traps)))
     ∨ (choose pos ∈ traps ∧
        body (pos, s, traps)
        = (Break, (choose pos, AI_STUN_TURNS, traps ∖ {[ choose pos ]})))
     ∨ ((choose pos ∉ traps) ∧
        body (pos, s, traps) = (Continue, (choose pos, s, traps)))) →
  ∀ n pos,
    (for_range n body (pos, 0, traps0)).1.1 ∈ traps0 →
    for_range n body (pos, 0, traps0) = (pos, 0, traps0)
    ∨ ((for_range n body (pos, 0, traps0)).1.2 = AI_STUN_TURNS
       ∧ (for_range n body (pos, 0, traps0)).2
         = traps0 ∖ {[ (for_range n body (pos, 0, traps0)).1.1 ]}).
Proof.
  intros Hbody. induction n as [|n IH]; intros pos; simpl.
  - by left.
  - destruct (Hbody pos 0 traps0) as [->|[[Hin ->]|[Hout ->]]].
    + by left.
    + by right.
    + intros Hend. destruct (IH (choose pos) Hend) as [Hsame|Hcons].
      * rewrite Hsame in Hend. done.
      * by right.
Qed.

Lemma ai_a_turn_trap_entered ai_pos player_pos grid traps this_moves model
    global_counts stunned goal_pos ai2_pos :
  stunned <= 0 →
  let r := ai_a_turn ai_pos player_pos grid traps this_moves model global_counts
             stunned goal_pos ai2_pos in
  r.1.1 ∈ traps → r.1.1 ≠ ai_pos →
  r.1.2 = AI_STUN_TURNS ∧ r.2 = traps ∖ {[ r.1.1 ]}.
Proof.
  intros Hs r. unfold r.
  destruct (ai_a_turn_unstunned ai_pos player_pos grid traps this_moves model
              global_counts stunned goal_pos ai2_pos Hs) as (st & Hst & ->).
  cbn [fst snd]. intros Hin Hne.
  destruct (for_range_trap_entered
              (ai_a_step player_pos grid goal_pos ai2_pos)
              (ai_a_choose player_pos grid goal_pos ai2_pos) traps) with
    (n := move_budget ai_pos player_pos) (pos := ai_pos) as [Hsame|Hcons].
  - intros p s t.
    destruct (ai_a_step_cases player_pos grid goal_pos ai2_pos p s t)
      as [[_ ->]|[(_ & Hin' & ->)|(_ & Hout & ->)]]; auto.
  - by rewrite <- Hst.
  - rewrite <- Hst in Hsame. by rewrite Hsame in Hne.
  - by rewrite <- Hst in Hcons.
Qed.

Lemma ai_b_turn_trap_entered ai2_pos player_pos grid traps stunned ai_pos :
  stunned <= 0 →
  let r := ai_b_turn ai2_pos player_pos grid traps stunned ai_pos in
  r.1.1 ∈ traps → r.1.1 ≠ ai2_pos →
  r.1.2 = AI_STUN_TURNS ∧ r.2 = traps ∖ {[ r.1.1 ]}.
Proof.
  intros Hs r. unfold r.
  destruct (ai_b_turn_unstunned ai2_pos player_pos grid traps stunned ai_pos Hs)
    as (st & Hst & ->).
  cbn [fst snd]. intros Hin Hne.
  destruct (for_range_trap_entered
              (ai_b_step player_pos grid ai_pos)
              (ai_b_choose player_pos grid ai_pos) traps) with
    (n := move_budget ai2_pos player_pos) (pos := ai2_pos) as [Hsame|Hcons].
  - intros p s t.
    destruct (ai_b_step_cases player_pos grid ai_pos p s t)
      as [[_ ->]|[(_ & Hin' & ->)|(_ & Hout & ->)]]; auto.
  - by rewrite <- Hst.
  - rewrite <- Hst in Hsame. by rewrite Hsame in Hne.
  - by rewrite <- Hst in Hcons.
Qed.

(** A turn whose first step lands on a trap ends there. *)
Lemma ai_a_turn_first_step_trap ai_pos player_pos grid traps this_moves model
    global_counts stunned goal_pos ai2_pos :
  stunned <= 0 →
  let step := ai_a_choose player_pos grid goal_pos ai2_pos ai_pos in
  step ≠ ai2_pos → step ∈ traps →
  ai_a_turn ai_pos player_pos grid traps this_moves model global_counts
    stunned goal_pos ai2_pos
  = ((step, AI_STUN_TURNS), traps ∖ {[ step ]}).
Proof.
  intros Hs step Hne Hin. unfold ai_a_turn. rewrite bool_decide_eq_false_2 by lia.
  assert (∃ n, move_budget ai_pos player_pos = S n) as [n ->].
  { unfold move_budget. destruct (bool_decide _); eauto. }
  cbn [for_range].
  destruct (ai_a_step_cases player_pos grid goal_pos ai2_pos ai_pos 0 traps)
    as [[? _]|[(_ & _ & ->)|(_ & ? & _)]]; done.
Qed.

Lemma ai_b_turn_first_step_trap ai2_pos player_pos grid traps stunned ai_pos :
  stunned <= 0 →
  let best := ai_b_choose player_pos grid ai_pos ai2_pos in
  best ≠ ai_pos → best ∈ traps →
  ai_b_turn ai2_pos player_pos grid traps stunned ai_pos
  = ((best, AI_STUN_TURNS), traps ∖ {[ best ]}).
Proof.
  intros Hs best Hne Hin. unfold ai_b_turn. rewrite bool_decide_eq_false_2 by lia.
  assert (∃ n, move_budget ai2_pos player_pos = S n) as [n ->].
  { unfold move_budget. destruct (bool_decide _); eauto. }
  cbn [for_range].
  destruct (ai_b_step_cases player_pos grid ai_pos ai2_pos 0 traps)
    as [[? _]|[(_ & _ & ->)|(_ & ? & _)]]; done.
Qed.

(** C3. On a grid of the game, for either adversary:
    (1, 2) when the step it has chosen is not the other adversary's cell
    and is in the trap set, the body of its loop removes that cell from
    the set, sets the counter to [AI_STUN_TURNS], moves the adversary
    onto the cell and leaves the loop;
    (3, 4) so a whole turn leaves the trap set alone, or removes from it
    exactly the one cell the adversary ends on, with its counter at
    [AI_STUN_TURNS];
    (5) and on a set [traps] without a trap on [c] (as it is once that
    trap has been entered, until the player arms [c] again) no turn of
    either adversary puts [c] back or leaves an adversary that was not
    stunned stunned on [c];
    (6, 7) of a whole turn of an adversary that is not stunned: when the
    first step it chooses is not the other adversary's cell and is in
    the trap set, the turn ends on that cell, with the counter at
    [AI_STUN_TURNS] and the cell removed, whatever its budget of steps;
    (8, 9) and a turn that ends on a cell of the trap set other than the
    cell it started on has entered that trap: the counter is at
    [AI_STUN_TURNS] and the cell is removed from the set. *)
Theorem trap_consumed_once (grid : grid_t) (player_pos goal_pos : cell)
    (traps : gset cell) :
  grid_ok grid →
  (∀ ai2_pos pos s,
     let step := ai_a_choose player_pos grid goal_pos ai2_pos pos in
     step ≠ ai2_pos → step ∈ traps →
     ai_a_step player_pos grid goal_pos ai2_pos (pos, s, traps)
     = (Break, (step, AI_STUN_TURNS, traps ∖ {[ step ]})))
  ∧ (∀ ai_pos pos s,
     let best := ai_b_choose player_pos grid ai_pos pos in
     best ≠ ai_pos → best ∈ traps →
     ai_b_step player_pos grid ai_pos (pos, s, traps)
     = (Break, (best, AI_STUN_TURNS, traps ∖ {[ best ]})))
  ∧ (∀ ai_pos ai2_pos this_moves model global_counts stunned,
     trap_outcome traps stunned
       (ai_a_turn ai_pos player_pos grid traps this_moves model global_counts
          stunned goal_pos ai2_pos))
  ∧ (∀ ai_pos ai2_pos stunned,
     trap_outcome traps stunned
       (ai_b_turn ai2_pos player_pos grid traps stunned ai_pos))
  ∧ (∀ c ai_pos ai2_pos this_moves model global_counts stunned,
     c ∉ traps →
     let ra := ai_a_turn ai_pos player_pos grid traps this_moves model
                 global_counts stunned goal_pos ai2_pos in
     let rb := ai_b_turn ai2_pos player_pos grid traps stunned ai_pos in
     (c ∉ ra.2) ∧ (c ∉ rb.2) ∧
     (stunned <= 0 → ra.1.2 > 0 → ra.1.1 ≠ c) ∧
     (stunned <= 0 → rb.1.2 > 0 → rb.1.1 ≠ c))
  ∧ (∀ ai_pos ai2_pos this_moves model global_counts stunned,
     stunned <= 0 →
     let step := ai_a_choose player_pos grid goal_pos ai2_pos ai_pos in
     step ≠ ai2_pos → step ∈ traps →
     ai_a_turn ai_pos player_pos grid traps this_moves model global_counts
       stunned goal_pos ai2_pos
     = ((step, AI_STUN_TURNS), traps ∖ {[ step ]}))
  ∧ (∀ ai_pos ai2_pos stunned,
     stunned <= 0 →
     let best := ai_b_choose player_pos grid ai_pos ai2_pos in
     best ≠ ai_pos → best ∈ traps →
     ai_b_turn ai2_pos player_pos grid traps stunned ai_pos
     = ((best, AI_STUN_TURNS), traps ∖ {[ best ]}))
  ∧ (∀ ai_pos ai2_pos this_moves model global_counts stunned,
     stunned <= 0 →
     let ra := ai_a_turn ai_pos player_pos grid traps this_moves model
                 global_counts stunned goal_pos ai2_pos in
     ra.1.1 ∈ traps → ra.1.1 ≠ ai_pos →
     ra.1.2 = AI_STUN_TURNS ∧ ra.2 = traps ∖ {[ ra.1.1 ]})
  ∧ (∀ ai_pos ai2_pos stunned,
     stunned <= 0 →
     let rb := ai_b_turn ai2_pos player_pos grid traps stunned ai_pos in
     rb.1.1 ∈ traps → rb.1.1 ≠ ai2_pos →
     rb.1.2 = AI_STUN_TURNS ∧ rb.2 = traps ∖ {[ rb.1.1 ]}).
Proof.
  intros _. split; [|split; [|split; [|split; [|split; [|split; [|split; [|split]]]]]]].
  - intros ai2_pos pos s step Hne Hin.
    destruct (ai_a_step_cases player_pos grid goal_pos ai2_pos pos s traps)
      as [[? _]|[(_ & _ & ->)|(_ & ? & _)]]; done.
  - intros ai_pos pos s best Hne Hin.
    destruct (ai_b_step_cases player_pos grid ai_pos pos s traps)
      as [[? _]|[(_ & _ & ->)|(_ & ? & _)]]; done.
  - intros. apply ai_a_turn_trap_outcome.
  - intros. apply ai_b_turn_trap_outcome.
  - intros c ai_pos ai2_pos this_moves model global_counts stunned Hc ra rb.
    destruct (trap_outcome_gone traps stunned ra c) as [? ?];
      [apply ai_a_turn_trap_outcome|done|].
    destruct (trap_outcome_gone traps stunned rb c) as [? ?];
      [apply ai_b_turn_trap_outcome|done|].
    done.
  - intros. by apply ai_a_turn_first_step_trap.
  - intros. by apply ai_b_turn_first_step_trap.
  - intros. by apply ai_a_turn_trap_entered.
  - intros. by apply ai_b_turn_trap_entered.
Qed.

(** Agent B, two steps from the player's column trap on (5, 0), with a
    budget of two steps: its second step lands on the trap, which is
    gone after the turn, and B is stunned for [AI_STUN_TURNS] turns. *)
Lemma trap_consumed_once_witness :
  let rb := ai_b_turn (7, 0) (0, 0) demo_grid {[ (5, 0) ]} 0 (8, 8) in
  rb.1.1 = (5, 0)
  ∧ rb.1.2 = AI_STUN_TURNS
  ∧ rb.2 = {[ (5, 0) ]} ∖ {[ rb.1.1 ]}.
Proof.
  intros rb.
  assert (rb.1.1 = (5, 0)) as Hpos by (vm_compute; reflexivity).
  split; [exact Hpos|].
  destruct (trap_consumed_once demo_grid (0, 0) (0, 8) {[ (5, 0) ]} demo_grid_ok)
    as (_ & _ & _ & _ & _ & _ & _ & _ & Hturn).
  apply (Hturn (8, 8) (7, 0) 0); [lia| |].
  - fold rb. rewrite Hpos. by apply elem_of_singleton.
  - fold rb. rewrite Hpos. intros [=].
Defined.

(** Agent A, next to a trap on (7, 8) that lies on its way, walks onto
    it with its first step and stays there, its second step untaken. *)
Example trap_consumed_first_step :
  ai_a_turn (8, 8) (0, 0) demo_grid {[ (7, 8) ]} [] [] [] 0 (0, 8) (8, 0)
  = (((7, 8), AI_STUN_TURNS), ∅).
Proof. vm_compute. reflexivity. Qed.

(* ===================================================================== *)
(** ** The two adversaries never meet *)
(* ===================================================================== *)

(** C5. On a grid of the game, with the two adversaries on distinct
    cells when the turn starts: agent A leaves its loop without moving
    when the step it has chosen is agent B's cell, so A does not end its
    turn on B's cell; agent B, from a cell other than A's, never chooses
    A's cell, so B does not end its turn on the cell A has moved to; and
    after the two turns of [main] the adversaries are on distinct cells. *)
Theorem adversaries_never_share_cell (grid : grid_t)
    (ai_pos ai2_pos player_pos goal_pos : cell) (traps : gset cell)
    (this_moves : list direction) (model : markov) (global_counts : counter)
    (ai_stunned ai2_stunned : Z) :
  grid_ok grid → ai_pos ≠ ai2_pos →
  let ra := ai_a_turn ai_pos player_pos grid traps this_moves model
              global_counts ai_stunned goal_pos ai2_pos in
  let rb := ai_b_turn ai2_pos player_pos grid ra.2 ai2_stunned ra.1.1 in
  (∀ pos s t,
     ai_a_choose player_pos grid goal_pos ai2_pos pos = ai2_pos →
     ai_a_step player_pos grid goal_pos ai2_pos (pos, s, t) = (Break, (pos, s, t)))
  ∧ (∀ pos, pos ≠ ra.1.1 → ai_b_choose player_pos grid ra.1.1 pos ≠ ra.1.1)
  ∧ ra.1.1 ≠ ai2_pos
  ∧ rb.1.1 ≠ ra.1.1.
Proof.
  intros _ Hne ra rb.
  assert (ra.1.1 ≠ ai2_pos) as Ha.
  { unfold ra. by apply (ai_a_turn_pos_inv (λ p, p ≠ ai2_pos)). }
  split; [|split; [|split]].
  - intros pos s t Hstep.
    destruct (ai_a_step_cases player_pos grid goal_pos ai2_pos pos s t)
      as [[_ ->]|[(? & _)|(? & _)]]; done.
  - intros pos. apply ai_b_choose_avoids.
  - done.
  - unfold rb. apply (ai_b_turn_pos_inv (λ p, p ≠ ra.1.1)); [done|].
    intros pos _ Hb. done.
Qed.

(** Agent A, on (3, 3), would step onto (2, 3), where agent B stands: it
    stays where it is, and B moves on without meeting it. *)
Lemma adversaries_never_share_cell_witness :
  (ai_a_turn (3, 3) (0, 0) demo_grid ∅ [] [] [] 0 (0, 8) (2, 3)).1.1 ≠ (2, 3)
  ∧ (ai_b_turn (2, 3) (0, 0) demo_grid
       (ai_a_turn (3, 3) (0, 0) demo_grid ∅ [] [] [] 0 (0, 8) (2, 3)).2 0
       (ai_a_turn (3, 3) (0, 0) demo_grid ∅ [] [] [] 0 (0, 8) (2, 3)).1.1).1.1
    ≠ (ai_a_turn (3, 3) (0, 0) demo_grid ∅ [] [] [] 0 (0, 8) (2, 3)).1.1.
Proof.
  destruct (adversaries_never_share_cell demo_grid (3, 3) (2, 3) (0, 0) (0, 8)
              ∅ [] [] [] 0 0 demo_grid_ok) as (_ & _ & Ha & Hb).
  - discriminate.
  - split; [exact Ha | exact Hb].
Defined.

Lemma adversaries_distinct g :
  ai_pos g ≠ ai2_pos g → ai_pos (adversaries g) ≠ ai2_pos (adversaries g).
Proof.
  intros Hne. unfold adversaries.
  pose proof (ai_a_turn_pos_inv (λ p, p ≠ ai2_pos g) (ai_pos g) (player_pos g)
                (grid g) (traps g) (this_game_moves g) (model g) (global_counts g)
                (ai_stunned g) (goal_pos g) (ai2_pos g) Hne (λ _ _ H, H)) as Ha.
  destruct (ai_a_turn _ _ _ _ _ _ _ _ _ _) as [[a sa] t1]. simpl in Ha.
  pose proof (ai_b_turn_pos_inv (λ p, p ≠ a) (ai2_pos g) (player_pos g) (grid g)
                t1 (ai2_stunned g) a (not_eq_sym Ha) (λ _ _ H, H)) as Hb.
  destruct (ai_b_turn _ _ _ _ _ _) as [[b sb] t2]. simpl in *. by apply not_eq_sym.
Qed.

(* ===================================================================== *)
(** ** Positions stay on open cells *)
(* ===================================================================== *)

Lemma ai_a_turn_open ai_pos player_pos grid traps this_moves model global_counts
    stunned goal_pos ai2_pos :
  grid_ok grid → open_cell grid ai_pos →
  open_cell grid
    (ai_a_turn ai_pos player_pos grid traps this_moves model global_counts
       stunned goal_pos ai2_pos).1.1.
Proof.
  intros Hok Hpos. apply (ai_a_turn_pos_inv (open_cell grid)); [done|].
  intros pos Hp _. by apply ai_a_choose_open.
Qed.

Lemma ai_b_turn_open ai2_pos player_pos grid traps stunned ai_pos :
  open_cell grid ai2_pos →
  open_cell grid (ai_b_turn ai2_pos player_pos grid traps stunned ai_pos).1.1.
Proof.
  intros Hpos. apply (ai_b_turn_pos_inv (open_cell grid)); [done|].
  intros pos Hp _. by apply ai_b_choose_open.
Qed.

Lemma player_action_open g ch :
  on_open_cells g →
  grid (player_action g ch) = grid g ∧ on_open_cells (player_action g ch).
Proof.
  intros (Hp & Ha & Hb). destruct ch as [| |d|]; simpl; try done.
  - destruct (_ && _); done.
  - destruct (decide _); [|done]. split; [done|]. split; [|done]. simpl.
    by apply try_move_open.
Qed.

Lemma adversaries_open g :
  grid_ok (grid g) → on_open_cells g →
  grid (adversaries g) = grid g ∧ on_open_cells (adversaries g).
Proof.
  intros Hok (Hp & Ha & Hb). unfold adversaries.
  pose proof (ai_a_turn_open (ai_pos g) (player_pos g) (grid g) (traps g)
                (this_game_moves g) (model g) (global_counts g) (ai_stunned g)
                (goal_pos g) (ai2_pos g) Hok Ha) as Ha'.
  destruct (ai_a_turn _ _ _ _ _ _ _ _ _ _) as [[a sa] t1]. simpl in Ha'.
  pose proof (ai_b_turn_open (ai2_pos g) (player_pos g) (grid g) t1
                (ai2_stunned g) a Hb) as Hb'.
  destruct (ai_b_turn _ _ _ _ _ _) as [[b sb] t2]. simpl in Hb'.
  done.
Qed.

Lemma finish_turn_open g file :
  grid_ok (grid g) → on_open_cells g →
  grid (state_of (finish_turn g file).1) = grid g
  ∧ on_open_cells (state_of (finish_turn g file).1).
Proof.
  intros Hok Hg. destruct (adversaries_open g Hok Hg) as [Hgrid Hg'].
  unfold finish_turn. save_cases.
  all: destruct (decide (player_pos g = goal_pos g)); [done|].
  all: destruct (decide (_ ∨ _)); done.
Qed.

Lemma play_turn_open g ch file :
  grid_ok (grid g) → on_open_cells g →
  grid (state_of (play_turn g ch file).1) = grid g
  ∧ on_open_cells (state_of (play_turn g ch file).1).
Proof.
  intros Hok Hg.
  destruct (player_action_open g ch Hg) as [Hgrid Hg1].
  assert (grid_ok (grid (player_action g ch))) as Hok1 by (by rewrite Hgrid).
  destruct (finish_turn_open _ file Hok1 Hg1) as [Hgrid2 Hg2].
  rewrite Hgrid in Hgrid2.
  destruct ch; try done. unfold play_turn. by save_cases.
Qed.

Lemma play_open keys :
  ∀ g file, grid_ok (grid g) → on_open_cells g →
    grid (state_of (play keys g file).1) = grid g
    ∧ on_open_cells (state_of (play keys g file).1).
Proof.
  induction keys as [|ch keys IH]; intros g file Hok Hg; simpl; [done|].
  destruct (play_turn_open g ch file Hok Hg) as [Hgrid Hg'].
  destruct (play_turn g ch file) as [[g'|r g'|r g'] file']; simpl in *; [|done..].
  destruct (IH g' file') as [Hgrid' Hg'']; [by rewrite Hgrid|done|].
  split; [congruence|done].
Qed.

(** C10. On a grid of the game, a position on an open cell (inside the
    bounds, on an EMPTY tile) stays on an open cell: [try_move] returns
    an open cell, so do the turns of agent A and of agent B, and when the
    player and both adversaries start on open cells they are on open
    cells of the same grid after any number of passes of the loop of
    [main]. *)
Theorem positions_stay_open (g : game) (keys : list key) (file : memory_file) :
  grid_ok (grid g) → on_open_cells g →
  (∀ move_label, open_cell (grid g) (try_move (player_pos g) move_label (grid g)))
  ∧ (∀ traps this_moves model global_counts stunned,
       open_cell (grid g)
         (ai_a_turn (ai_pos g) (player_pos g) (grid g) traps this_moves model
            global_counts stunned (goal_pos g) (ai2_pos g)).1.1)
  ∧ (∀ traps stunned other,
       open_cell (grid g)
         (ai_b_turn (ai2_pos g) (player_pos g) (grid g) traps stunned other).1.1)
  ∧ grid (state_of (play keys g file).1) = grid g
  ∧ on_open_cells (state_of (play keys g file).1).
Proof.
  intros Hok Hg. pose proof Hg as (Hp & Ha & Hb).
  split; [|split; [|split]].
  - intros d. by apply try_move_open.
  - intros. by apply ai_a_turn_open.
  - intros. by apply ai_b_turn_open.
  - by apply play_open.
Qed.

Lemma demo_start_open :
  on_open_cells (new_game NoFile demo_grid (0, 0) (8, 8) (8, 0) (2, 0)).
Proof.
  repeat split; reflexivity.
Qed.

Lemma positions_stay_open_witness :
  on_open_cells
    (state_of
       (play [key_arrow east; key_arrow south; key_t; key_other]
          (new_game NoFile demo_grid (0, 0) (8, 8) (8, 0) (2, 0)) NoFile).1).
Proof.
  apply (positions_stay_open
           (new_game NoFile demo_grid (0, 0) (8, 8) (8, 0) (2, 0))
           [key_arrow east; key_arrow south; key_t; key_other] NoFile
           demo_grid_ok demo_start_open).
Defined.

(* ===================================================================== *)
(** ** The record of a session *)
(* ===================================================================== *)

Lemma save_game_Some moves result successful file file' :
  save_game moves result successful file = Some file' →
  load_memory file ≠ None
  ∧ get_games (load_memory file')
    = get_games (load_memory file) ++
      [ {| rec_moves := moves; rec_result := result; rec_grid := GRID_SIZE;
           rec_successful_traps := successful |} ].
Proof.
  unfold save_game. destruct (load_memory file) as [games|]; [|done].
  by intros [= <-].
Qed.

Lemma save_game_None moves result successful file :
  save_game moves result successful file = None ↔ file = NoGames.
Proof.
  unfold save_game. destruct file; simpl; split; done.
Qed.

Lemma save_and_return_store result g file :
  stored file (save_and_return result g file).
Proof.
  unfold save_and_return.
  destruct (save_game _ _ _ _) as [file'|] eqn:Hsave.
  - apply save_game_Some in Hsave as [Hload Hsave]. split; [|done].
    intros ->. done.
  - by apply save_game_None in Hsave.
Qed.

(** A pass of the loop writes the file when it returns and only then. *)
Lemma finish_turn_store g file : stored file (finish_turn g file).
Proof.
  unfold finish_turn.
  destruct (decide (player_pos g = goal_pos g)); [apply save_and_return_store|].
  destruct (decide (_ ∨ _)); [apply save_and_return_store|done].
Qed.

Lemma play_turn_store g ch file : stored file (play_turn g ch file).
Proof.
  destruct ch; [apply save_and_return_store|apply finish_turn_store..].
Qed.

Lemma play_store keys : ∀ g file, stored file (play keys g file).
Proof.
  induction keys as [|ch keys IH]; intros g file; simpl; [done|].
  pose proof (play_turn_store g ch file) as Hturn.
  destruct (play_turn g ch file) as [[g'|result g'|result g'] file']; [|done..].
  simpl in Hturn. subst file'. apply IH.
Qed.

(** Each of the three results ends some session on the grid of the
    examples. *)
Lemma every_result_ends_a_session (file : memory_file) (result : result_t) :
  ∃ player_pos' ai2_pos' keys',
    result_of (main file demo_grid player_pos' (8, 8) ai2_pos' (2, 0) keys').1
    = Some result.
Proof.
  unfold main, new_game.
  destruct (build_markov_model (load_memory file) MARKOV_ORDER) as [mo gc].
  destruct result.
  - exists (0, 0), (8, 0), [key_arrow south; key_arrow south].
    destruct file; vm_compute; reflexivity.
  - exists (0, 0), (1, 0), [key_other]. destruct file; vm_compute; reflexivity.
  - exists (0, 0), (8, 0), [key_arrow south; key_q].
    destruct file; vm_compute; reflexivity.
Qed.

(** On a memory file that holds a list of games, that is absent or that
    cannot be read, a session appends exactly one record to the list when
    it ends (the moves of the session, its result, the grid size and the
    count of successful traps) and writes nothing before. *)
Lemma session_record_saved_with_games (file : memory_file) (grid : grid_t)
    (player_pos ai_pos ai2_pos goal_pos : cell) (keys : list key) :
  file ≠ NoGames →
  let session := main file grid player_pos ai_pos ai2_pos goal_pos keys in
  (∀ result, result_of session.1 = Some result →
     session.1 = Over result (state_of session.1)
     ∧ get_games (load_memory session.2)
       = get_games (load_memory file) ++ [saved_record result (state_of session.1)]
     ∧ length (get_games (load_memory session.2))
       = S (length (get_games (load_memory file))))
  ∧ (∀ g, session.1 = Playing g → session.2 = file).
Proof.
  intros Hfile session.
  pose proof (play_store keys
                (new_game file grid player_pos ai_pos ai2_pos goal_pos) file) as Hs.
  fold (main file grid player_pos ai_pos ai2_pos goal_pos keys) in Hs.
  fold session in Hs. destruct session as [[g|r g|r g] file']; simpl in *.
  - split; [done|]. by intros g' _.
  - destruct Hs as [_ Hs]. split; [|done]. intros result [= <-].
    split; [done|]. split; [done|]. rewrite Hs, length_app. simpl. lia.
  - by destruct Hs as [? _].
Qed.

(** C4, where the code departs from it.  On a memory file that is a JSON
    object without the key ["games"] (such as [{}]), [load_memory]
    returns the object as it is and [save_game] raises KeyError at
    [data["games"]]: whatever the grid, the cells and the keys, the
    session appends nothing and the file is left as it was; a session
    that ends, ends in that exception, on each of the three results.
    [build_markov_model] and [show_stats] read the same file through
    [.get("games", [])], as a file without games. *)
Theorem session_record_lost_without_games (grid : grid_t)
    (player_pos ai_pos ai2_pos goal_pos : cell) (keys : list key)
    (moves : list direction) (result : result_t) (successful_traps : Z) :
  let session := main NoGames grid player_pos ai_pos ai2_pos goal_pos keys in
  save_game moves result successful_traps NoGames = None
  ∧ session.2 = NoGames
  ∧ (∀ g, session.1 ≠ Over result g)
  ∧ (result_of session.1 = Some result →
     session.1 = Raised result (state_of session.1))
  ∧ (∃ player_pos' ai2_pos' keys',
       (main NoGames demo_grid player_pos' (8, 8) ai2_pos' (2, 0) keys').1
       = Raised result
           (state_of
              (main NoGames demo_grid player_pos' (8, 8) ai2_pos' (2, 0) keys').1))
  ∧ main NoGames demo_grid (0, 0) (8, 8) (8, 0) (2, 0) [key_arrow south; key_q]
    = (Raised quit
         (state_of (main NoFile demo_grid (0, 0) (8, 8) (8, 0) (2, 0)
                      [key_arrow south; key_q]).1),
       NoGames)
  ∧ (main NoFile demo_grid (0, 0) (8, 8) (8, 0) (2, 0) [key_arrow south; key_q]).2
    = Games [ {| rec_moves := [south]; rec_result := quit; rec_grid := GRID_SIZE;
                 rec_successful_traps := 0 |} ]
  ∧ build_markov_model (load_memory NoGames) MARKOV_ORDER
    = build_markov_model (load_memory NoFile) MARKOV_ORDER
  ∧ show_stats NoGames = show_stats NoFile.
Proof.
  intros session.
  pose proof (play_store keys
                (new_game NoGames grid player_pos ai_pos ai2_pos goal_pos) NoGames)
    as Hs.
  fold (main NoGames grid player_pos ai_pos ai2_pos goal_pos keys) in Hs.
  fold session in Hs.
  split; [reflexivity|]. split; [|split; [|split]].
  - destruct session as [[g|r g|r g] file']; simpl in *; [done| |by destruct Hs].
    by destruct Hs as [? _].
  - intros g Hover. rewrite (surjective_pairing session), Hover in Hs.
    by destruct Hs as [? _].
  - destruct session as [[g|r g|r g] file']; simpl in *; [done| |by intros [= ->]].
    by destruct Hs as [? _].
  - split; [|split; [|split; [|split]]];
      [|vm_compute; reflexivity|vm_compute; reflexivity|reflexivity|reflexivity].
    destruct (every_result_ends_a_session NoGames result)
      as (p' & b' & keys' & Hres).
    exists p', b', keys'.
    pose proof (play_store keys' (new_game NoGames demo_grid p' (8, 8) b' (2, 0))
                  NoGames) as Hs'.
    fold (main NoGames demo_grid p' (8, 8) b' (2, 0) keys') in Hs'.
    destruct (main NoGames demo_grid p' (8, 8) b' (2, 0) keys')
      as [[g|r g|r g] file']; simpl in *; [done| |by injection Hres as ->].
    by destruct Hs' as [? _].
Qed.

(* ===================================================================== *)
(** ** Dictionaries *)
(* ===================================================================== *)

Lemma dict_get_set_eq {K V} `{EqDecision K} (d : list (K * V)) k v :
  dict_get (dict_set d k v) k = Some v.
Proof.
  induction d as [|[k' v'] d IH]; simpl.
  - by rewrite decide_True.
  - destruct (decide (k' = k)) as [->|Hne]; simpl.
    + by rewrite decide_True.
    + by rewrite decide_False.
Qed.

Lemma dict_get_set_ne {K V} `{EqDecision K} (d : list (K * V)) k k' v :
  k ≠ k' → dict_get (dict_set d k v) k' = dict_get d k'.
Proof.
  intros Hne. induction d as [|[k0 v0] d IH]; simpl.
  - by rewrite decide_False.
  - destruct (decide (k0 = k)) as [->|Hne0]; simpl.
    + by rewrite !decide_False.
    + destruct (decide (k0 = k')); [done|apply IH].
Qed.


Lemma dict_set_keys_in {K V} `{EqDecision K} (d : list (K * V)) k v :
  k ∈ map fst d → map fst (dict_set d k v) = map fst d.
Proof.
  induction d as [|[k' v'] d IH]; intros Hin.
  - by apply elem_of_nil in Hin.
  - cbn [dict_set]. destruct (decide (k' = k)) as [->|Hne]; [done|].
    cbn [map fst] in *. apply elem_of_cons in Hin as [->|Hin]; [done|].
    by rewrite IH.
Qed.

Lemma dict_set_keys_new {K V} `{EqDecision K} (d : list (K * V)) k v :
  k ∉ map fst d → map fst (dict_set d k v) = map fst d ++ [k].
Proof.
  induction d as [|[k' v'] d IH]; intros Hin; [done|].
  cbn [dict_set]. cbn [map fst] in Hin. apply not_elem_of_cons in Hin as [Hne Hin].
  rewrite decide_False by done. cbn [map fst app]. by rewrite IH.
Qed.

Lemma dict_set_ok {K V} `{EqDecision K} (d : list (K * V)) k v :
  dict_ok d → dict_ok (dict_set d k v).
Proof.
  unfold dict_ok. intros Hd.
  destruct (decide (k ∈ map fst d)) as [Hin|Hin].
  - by rewrite dict_set_keys_in.
  - rewrite dict_set_keys_new by done.
    apply NoDup_app. split; [done|]. split; [|apply NoDup_singleton].
    intros x Hx Hx'. apply list_elem_of_singleton in Hx' as ->. done.
Qed.


Lemma count_of_set (c : counter) m m' v :
  count_of (dict_set c m v) m' = if decide (m = m') then v else count_of c m'.
Proof.
  unfold count_of. destruct (decide (m = m')) as [->|Hne].
  - by rewrite dict_get_set_eq.
  - by rewrite dict_get_set_ne.
Qed.

(* ===================================================================== *)
(** ** The scores of the predictor *)
(* ===================================================================== *)

Lemma count_of_update_seq l : ∀ c m,
  count_of (counter_update_seq c l) m = count_of c m + occurrences m l.
Proof.
  unfold counter_update_seq, occurrences.
  induction l as [|x l IH]; intros c m; simpl; [lia|].
  rewrite IH. unfold counter_incr. rewrite count_of_set, filter_cons.
  destruct (decide (x = m)) as [->|Hne]; simpl; lia.
Qed.






Lemma DIRS_keys_all m : m ∈ DIRS_keys.
Proof.
  destruct m; unfold DIRS_keys, DIRS; simpl; rewrite !elem_of_cons; auto 10.
Qed.

Lemma DIRS_keys_NoDup : NoDup DIRS_keys.
Proof.
  unfold DIRS_keys, DIRS. simpl.
  repeat (apply NoDup_cons_2;
          [rewrite ?not_elem_of_cons; repeat split; try discriminate;
           apply not_elem_of_nil|]).
  apply NoDup_nil_2.
Qed.





(** The vocabulary of the code against that of the properties. *)













(** The model [build_markov_model] returns is a dictionary too. *)
Lemma markov_incr_keys_ok (model : markov) ctx m :
  dict_ok model → dict_ok (markov_incr model ctx m).
Proof. apply dict_set_ok. Qed.

Lemma build_markov_model_keys_ok memory order :
  dict_ok (build_markov_model memory order).1.
Proof.
  unfold build_markov_model. generalize (get_games memory). intros games.
  assert (∀ acc : markov * counter, dict_ok acc.1 →
            dict_ok (fold_left (markov_game order) games acc).1) as Hfold.
  { induction games as [|g games IH]; intros acc Hacc; simpl; [done|].
    apply IH. destruct acc as [mo gc]. simpl in *.
    generalize (List.seq 0 (length (rec_moves g))). intros idx.
    revert mo Hacc. induction idx as [|i idx IHi]; intros mo Hacc; simpl; [done|].
    apply IHi. generalize (List.seq 1 order). intros ks.
    revert mo Hacc. induction ks as [|k ks IHk]; intros mo Hacc; simpl; [done|].
    destruct (bool_decide _); [done|].
    destruct (rec_moves g !! i); [|done].
    apply IHk. by apply markov_incr_keys_ok. }
  apply Hfold. constructor.
Qed.




(** The scores of the example above and of the empty model, computed. *)
Example predict_scores_example :
  predict_scores demo_moves demo_model [ (north, 7); (west, 2) ] 2
  = [ (north, Float 11.65%float); (east, Float 5.15%float);
      (south, Float 4.15%float); (west, Float 7.15%float) ].
Proof. vm_compute. reflexivity. Qed.

Example predict_scores_empty :
  predict_scores [] [] [] MARKOV_ORDER
  = [ (north, Float 0.15%float); (south, Float 0.15%float);
      (west, Float 0.15%float); (east, Float 0.15%float) ].
Proof. vm_compute. reflexivity. Qed.

(* ===================================================================== *)
(** ** Further properties of the grid and the pathfinder *)
(* ===================================================================== *)

Lemma unit_step_dirs (dr dc : Z) :
  Z.abs dr + Z.abs dc = 1 ↔ (dr, dc) ∈ DIRS_values.
Proof.
  unfold DIRS_values, DIRS. simpl. rewrite !elem_of_cons, elem_of_nil. split.
  - intros H.
    assert ((dr = -1 ∧ dc = 0) ∨ (dr = 1 ∧ dc = 0) ∨ (dr = 0 ∧ dc = -1)
            ∨ (dr = 0 ∧ dc = 1)) as [[-> ->]|[[-> ->]|[[-> ->]|[-> ->]]]] by lia;
      auto.
  - intros [[= -> ->]|[[= -> ->]|[[= -> ->]|[[= -> ->]|[]]]]]; reflexivity.
Qed.

Lemma neighbors_sublist r c grid : sublist (neighbors r c grid) (around r c).
Proof.
  unfold neighbors, around, DIRS_values, DIRS. simpl.
  replace (r + -1) with (r - 1) by lia. replace (c + -1) with (c - 1) by lia.
  replace (r + 0) with r by lia. replace (c + 0) with c by lia.
  repeat match goal with
         | |- context [if ?b then _ else _] => destruct b
         end; simpl; repeat (first [apply sublist_skip | apply sublist_cons | constructor]).
Qed.

Lemma around_NoDup r c : NoDup (around r c).
Proof.
  unfold around.
  repeat (apply NoDup_cons_2;
          [rewrite ?not_elem_of_cons; repeat split;
           try (intros [=]; lia); apply not_elem_of_nil|]).
  apply NoDup_nil_2.
Qed.

(** X1. On a square grid of side [n], [neighbors(r, c, grid)] yields
    exactly the cells at Manhattan distance 1 from [(r, c)] that are
    inside the grid and hold an EMPTY tile; it yields them in the order
    north, south, west, east, each once, so at most four. *)
Theorem neighbors_spec (n : Z) (grid : grid_t) (r c : Z) :
  square n grid →
  (∀ v, v ∈ neighbors r c grid ↔
        manhattan (r, c) v = 1 ∧ 0 <= v.1 < n ∧ 0 <= v.2 < n ∧
        tile_at grid v.1 v.2 = Some EMPTY)
  ∧ sublist (neighbors r c grid) (around r c)
  ∧ NoDup (neighbors r c grid)
  ∧ (length (neighbors r c grid) ≤ 4)%nat.
Proof.
  intros [Hlen _]. split; [|split; [|split]].
  - intros [vr vc]. rewrite elem_of_neighbors, not_wall_true, Hlen. simpl.
    unfold manhattan. simpl. split.
    + intros ((d & Hd & [= -> ->]) & H1 & H2 & H3).
      destruct d as [dr dc]. apply unit_step_dirs in Hd. simpl in *.
      repeat split; try done; lia.
    + intros (Hm & H1 & H2 & H3). split; [|done].
      exists (vr - r, vc - c). split.
      * apply unit_step_dirs. lia.
      * simpl. f_equal; lia.
  - apply neighbors_sublist.
  - eapply sublist_NoDup; [apply around_NoDup|apply neighbors_sublist].
  - apply (sublist_length _ _ (neighbors_sublist r c grid)).
Qed.

Lemma neighbors_spec_witness :
  neighbors 1 0 demo_grid = [ (0, 0); (2, 0) ]
  ∧ NoDup (neighbors 1 0 demo_grid).
Proof.
  split; [reflexivity|].
  apply (neighbors_spec 9 demo_grid 1 0 demo_grid_ok).
Defined.

(** [manhattan] is a distance. *)
Lemma manhattan_sym a b : manhattan a b = manhattan b a.
Proof. unfold manhattan. lia. Qed.

Lemma manhattan_triangle a b c : manhattan a c <= manhattan a b + manhattan b c.
Proof. unfold manhattan. lia. Qed.

(** X2. [manhattan] is a metric on cells: it is never negative, it is 0
    exactly between a cell and itself, it is symmetric and it satisfies
    the triangle inequality. *)
Theorem manhattan_metric (a b c : cell) :
  0 <= manhattan a b
  ∧ (manhattan a b = 0 ↔ a = b)
  ∧ manhattan a b = manhattan b a
  ∧ manhattan a c <= manhattan a b + manhattan b c.
Proof.
  split; [unfold manhattan; lia|]. split; [|split].
  - destruct a as [a1 a2], b as [b1 b2]. unfold manhattan. simpl. split.
    + intros H. f_equal; lia.
    + intros [= -> ->]. lia.
  - apply manhattan_sym.
  - apply manhattan_triangle.
Qed.

(** A path is at least as long as the Manhattan distance it covers. *)
Lemma path_manhattan grid a n b :
  path grid a n b → manhattan a b <= Z.of_nat n.
Proof.
  induction 1 as [|n b c _ IH He].
  - unfold manhattan. lia.
  - apply edge_adjacent in He.
    pose proof (manhattan_triangle a b c). lia.
Qed.

(** One step of the search from a cell at distance [m + 1]. *)
Lemma bfs_first_step_closer grid start target m :
  is_dist grid start (S m) target →
  ∃ c, bfs_first_step start target grid = Some c ∧ edge grid start c ∧
       is_dist grid c m target.
Proof.
  intros Hd.
  assert (start ≠ target) as Hne.
  { intros ->. pose proof (is_dist_unique _ _ _ _ _ Hd (is_dist_refl _ _)). lia. }
  destruct (bfs_first_step start target grid) as [c|] eqn:Hc.
  - destruct (bfs_first_step_Some _ _ _ _ Hne Hc) as (He & m' & Hp & Hd').
    assert (m' = m) as -> by (pose proof (is_dist_unique _ _ _ _ _ Hd Hd'); lia).
    exists c. split; [done|]. split; [done|]. split; [done|].
    intros j Hj. destruct Hd as [_ Hmin].
    specialize (Hmin (S j) (path_cons _ _ _ _ _ He Hj)). lia.
  - destruct Hd as [Hp _]. destruct (bfs_first_step_None _ _ _ Hc _ Hp).
Qed.

Lemma follow_closer grid target :
  ∀ k n pos, is_dist grid pos (k + n) target →
    ∃ p, follow k grid pos target = Some p ∧ is_dist grid p n target.
Proof.
  induction k as [|k IH]; intros n pos Hd; simpl.
  - by exists pos.
  - destruct (bfs_first_step_closer grid pos target (k + n) Hd) as (c & -> & _ & Hc).
    by apply IH.
Qed.

(** X3. When the shortest path from [start] to [target] has [n] moves:
    [n] is at least the Manhattan distance between them; following
    [bfs_first_step] [n] times from [start] ends on [target]; and after
    fewer than [n] steps the cell reached is still at the remaining
    distance from [target], so not on it. *)
Theorem bfs_follow_reaches (grid : grid_t) (start target : cell) (n : nat) :
  is_dist grid start n target →
  manhattan start target <= Z.of_nat n
  ∧ follow n grid start target = Some target
  ∧ ∀ k, (k < n)%nat →
      ∃ p, follow k grid start target = Some p ∧
           is_dist grid p (n - k) target ∧ p ≠ target.
Proof.
  intros Hd. split; [apply (path_manhattan grid), Hd|]. split.
  - destruct (follow_closer grid target n 0%nat start) as (p & -> & Hp).
    { by rewrite Nat.add_0_r. }
    apply is_dist_zero in Hp. by subst.
  - intros k Hk.
    destruct (follow_closer grid target k (n - k)%nat start) as (p & Hf & Hp).
    { by replace (k + (n - k))%nat with n by lia. }
    exists p. split; [done|]. split; [done|].
    intros ->. pose proof (is_dist_unique _ _ _ _ _ Hp (is_dist_refl _ _)). lia.
Qed.

Lemma demo_dist_6 : is_dist demo_grid (0, 0) 6 (0, 2).
Proof.
  assert (bfs_first_step (0, 0) (0, 2) demo_grid = Some (1, 0)) as Hc by reflexivity.
  apply bfs_first_step_Some in Hc as (_ & m & _ & Hd); [|discriminate].
  assert (m = 5%nat) as -> ; [|done].
  assert (follow 6 demo_grid (0, 0) (0, 2) = Some (0, 2)) as Hf
    by (vm_compute; reflexivity).
  destruct (decide (S m ≤ 6)%nat) as [Hle|Hgt].
  - destruct (decide (S m = 6)%nat) as [|Hne]; [lia|].
    destruct (follow_closer demo_grid (0, 2) (S m) 0%nat (0, 0)) as (p & Hp & Hz).
    { by rewrite Nat.add_0_r. }
    apply is_dist_zero in Hz. subst p.
    destruct m as [|[|[|[|[|m]]]]]; try lia; vm_compute in Hp; discriminate Hp.
  - destruct (follow_closer demo_grid (0, 2) 6%nat (S m - 6)%nat (0, 0)) as (p & Hp & Hz).
    { by replace (6 + (S m - 6))%nat with (S m) by lia. }
    rewrite Hf in Hp. injection Hp as <-.
    pose proof (is_dist_unique _ _ _ _ _ Hz (is_dist_refl _ _)). lia.
Qed.

Lemma bfs_follow_reaches_witness :
  follow 6 demo_grid (0, 0) (0, 2) = Some (0, 2).
Proof.
  apply (bfs_follow_reaches demo_grid (0, 0) (0, 2) 6 demo_dist_6).
Defined.

(** Between open cells the moves can be taken back. *)
Lemma edge_sym grid u v :
  grid_ok grid → open_cell grid u → edge grid u v → edge grid v u.
Proof.
  intros [Hlen _] [Hb Hw] He. unfold edge in *.
  rewrite elem_of_neighbors in *.
  destruct He as ((d & Hd & ->) & _). simpl.
  apply in_bounds_iff in Hb. rewrite Hlen.
  split; [|split; [tauto|split; [tauto|by rewrite not_wall_true]]].
  exists (- d.1, - d.2). split.
  - destruct d as [dr dc]. apply unit_step_dirs. apply unit_step_dirs in Hd.
    simpl in *. lia.
  - destruct u as [r c]. simpl. f_equal; lia.
Qed.

Lemma path_open grid a n b :
  grid_ok grid → open_cell grid a → path grid a n b → open_cell grid b.
Proof.
  intros Hok Ha Hp. destruct n as [|n].
  - by apply path_zero in Hp as <-.
  - apply path_last in Hp as (x & _ & He). by eapply edge_open_cell.
Qed.

Lemma path_rev grid a n b :
  grid_ok grid → open_cell grid a → path grid a n b → path grid b n a.
Proof.
  intros Hok Ha Hp. induction Hp as [|n b c Hab IH He].
  - apply path_nil.
  - eapply path_cons; [|apply IH].
    apply edge_sym; [done| |done]. by eapply path_open.
Qed.

Lemma is_dist_sym grid a n b :
  grid_ok grid → open_cell grid a → open_cell grid b →
  is_dist grid a n b → is_dist grid b n a.
Proof.
  intros Hok Ha Hb [Hp Hmin]. split; [by apply path_rev|].
  intros m Hm. apply Hmin. by apply path_rev.
Qed.

(** X4. On a grid of the game the adjacency of open cells is symmetric:
    a move between two open cells can be taken back, the shortest
    distance between two open cells is the same in both directions, and
    [bfs_first_step] finds no path from [a] to [b] exactly when it finds
    none from [b] to [a]. *)
Theorem search_symmetric (grid : grid_t) (a b : cell) :
  grid_ok grid → open_cell grid a → open_cell grid b →
  (edge grid a b ↔ edge grid b a)
  ∧ (∀ n, is_dist grid a n b ↔ is_dist grid b n a)
  ∧ (bfs_first_step a b grid = None ↔ bfs_first_step b a grid = None).
Proof.
  intros Hok Ha Hb. split; [|split].
  - split; by apply edge_sym.
  - intros n. split; by apply is_dist_sym.
  - assert (∀ x y, open_cell grid x → open_cell grid y →
              bfs_first_step x y grid = None → bfs_first_step y x grid = None)
      as Hone.
    { intros x y Hx Hy Hnone.
      destruct (bfs_first_step y x grid) as [c|] eqn:Hc; [|done].
      destruct (decide (y = x)) as [->|Hne].
      { rewrite bfs_first_step_same in Hnone. done. }
      destruct (bfs_first_step_Some _ _ _ _ Hne Hc) as (_ & m & _ & [Hp _]).
      destruct (bfs_first_step_None _ _ _ Hnone (S m)). by apply path_rev. }
    split; by apply Hone.
Qed.

Lemma search_symmetric_witness :
  is_dist demo_grid (0, 0) 6 (0, 2) ↔ is_dist demo_grid (0, 2) 6 (0, 0).
Proof.
  apply (search_symmetric demo_grid (0, 0) (0, 2) demo_grid_ok).
  - split; reflexivity.
  - split; reflexivity.
Defined.

(** The label of a unit step. *)
Lemma DIRS_values_label d :
  d ∈ DIRS_values → ∃ move_label, DIRS_get move_label = d.
Proof.
  unfold DIRS_values, DIRS. simpl. rewrite !elem_of_cons, elem_of_nil.
  intros [->|[->|[->|[->|[]]]]];
    [by exists north|by exists south|by exists west|by exists east].
Qed.

(** X5. On a grid of the game every step the search proposes is a move
    the rules allow: when [bfs_first_step] returns a cell other than
    [start], some direction makes [try_move] go from [start] to that
    cell. *)
Theorem bfs_step_is_a_move (grid : grid_t) (start target c : cell) :
  grid_ok grid → bfs_first_step start target grid = Some c → c ≠ start →
  ∃ move_label, try_move start move_label grid = c.
Proof.
  intros [Hlen _] Hc Hne.
  destruct (decide (start = target)) as [->|Hst].
  { rewrite bfs_first_step_same in Hc. congruence. }
  destruct (bfs_first_step_Some _ _ _ _ Hst Hc) as (He & _).
  unfold edge in He. rewrite elem_of_neighbors, Hlen in He.
  destruct He as ((d & Hd & ->) & H1 & H2 & H3). simpl in *.
  destruct (DIRS_values_label d Hd) as (move_label & Hl).
  exists move_label. unfold try_move. rewrite Hl. destruct d as [dr dc]. simpl in *.
  by rewrite !bool_decide_eq_true_2, H3.
Qed.

Lemma bfs_step_is_a_move_witness :
  ∃ move_label, try_move (0, 0) move_label demo_grid = (1, 0).
Proof.
  apply (bfs_step_is_a_move demo_grid (0, 0) (0, 2) (1, 0) demo_grid_ok).
  - vm_compute. reflexivity.
  - discriminate.
Defined.

(** X6. A move of the player that was not blocked can be undone: from an
    open cell, when [try_move] in a direction changes the position,
    [try_move] in the opposite direction from there leads back. *)
Theorem try_move_back (grid : grid_t) (pos : cell) (move_label : direction) :
  open_cell grid pos → try_move pos move_label grid ≠ pos →
  try_move (try_move pos move_label grid) (opposite move_label) grid = pos.
Proof.
  intros [Hb Hw] Hmoved.
  destruct (try_move_cases pos move_label grid) as [(-> & _)|(Heq & _)]; [|done].
  assert (destination (destination pos move_label) (opposite move_label) = pos)
    as Hback.
  { destruct pos as [r c]. unfold destination. destruct move_label; simpl;
      f_equal; lia. }
  destruct (try_move_cases (destination pos move_label) (opposite move_label) grid)
    as [(-> & _)|(_ & Hblocked)]; [done|].
  rewrite Hback in Hblocked. apply not_wall_true in Hw.
  destruct Hblocked; congruence.
Qed.

Lemma try_move_back_witness :
  try_move (try_move (0, 0) south demo_grid) north demo_grid = (0, 0).
Proof.
  apply (try_move_back demo_grid (0, 0) south).
  - split; reflexivity.
  - vm_compute. discriminate.
Defined.

(* ===================================================================== *)
(** ** Further properties of the adversaries *)
(* ===================================================================== *)

Lemma manhattan_self a : manhattan a a = 0.
Proof. unfold manhattan. lia. Qed.

Lemma ai_a_choose_near player_pos grid goal_pos ai2_pos pos :
  manhattan pos (ai_a_choose player_pos grid goal_pos ai2_pos pos) <= 1.
Proof.
  destruct (ai_a_choose_cases player_pos grid goal_pos ai2_pos pos) as [->|[He|Hc]].
  - rewrite manhattan_self. lia.
  - apply edge_adjacent in He. lia.
  - apply candidates_legal in Hc as [_ Hc]. lia.
Qed.

Lemma ai_b_choose_near player_pos grid ai_pos pos :
  manhattan pos (ai_b_choose player_pos grid ai_pos pos) <= 1.
Proof.
  destruct (ai_b_choose_cases player_pos grid ai_pos pos) as [->|Hc].
  - rewrite manhattan_self. lia.
  - apply candidates_legal in Hc as [_ Hc]. lia.
Qed.

(** A loop of [n] passes, each moving at most one cell, moves at most
    [n] cells. *)
Lemma for_range_reach (body : agent_state → loop_exit * agent_state) n :
  (∀ st, manhattan st.1.1 (body st).2.1.1 <= 1) →
  ∀ st, manhattan st.1.1 (for_range n body st).1.1 <= Z.of_nat n.
Proof.
  intros Hbody. induction n as [|n IH]; intros st.
  - simpl. rewrite manhattan_self. lia.
  - cbn [for_range]. specialize (Hbody st).
    destruct (body st) as [[|] st'] eqn:Hst; simpl in Hbody.
    + specialize (IH st').
      pose proof (manhattan_triangle st.1.1 st'.1.1 (for_range n body st').1.1).
      lia.
    + lia.
Qed.

Lemma move_budget_cases pos player_pos :
  (manhattan pos player_pos <= CLOSE_RANGE + 2 ∧ move_budget pos player_pos = 1%nat)
  ∨ (manhattan pos player_pos > CLOSE_RANGE + 2 ∧ move_budget pos player_pos = 2%nat).
Proof.
  unfold move_budget. destruct (decide (manhattan pos player_pos > CLOSE_RANGE + 2)).
  - right. by rewrite bool_decide_eq_true_2.
  - left. rewrite bool_decide_eq_false_2 by done. split; [lia|done].
Qed.

(** X7. Neither adversary moves farther in a turn than its budget: the
    cell an adversary ends its turn on is at Manhattan distance at most 2
    from the cell it started on, and at most 1 when it started within
    [CLOSE_RANGE + 2] of the player. *)
Theorem adversary_speed_limit (grid : grid_t)
    (ai_pos ai2_pos player_pos goal_pos : cell) (traps : gset cell)
    (this_moves : list direction) (model : markov) (global_counts : counter)
    (stunned : Z) :
  grid_ok grid →
  let a := (ai_a_turn ai_pos player_pos grid traps this_moves model
              global_counts stunned goal_pos ai2_pos).1.1 in
  let b := (ai_b_turn ai2_pos player_pos grid traps stunned ai_pos).1.1 in
  manhattan ai_pos a <= 2
  ∧ manhattan ai2_pos b <= 2
  ∧ (manhattan ai_pos player_pos <= CLOSE_RANGE + 2 → manhattan ai_pos a <= 1)
  ∧ (manhattan ai2_pos player_pos <= CLOSE_RANGE + 2 → manhattan ai2_pos b <= 1).
Proof.
  intros _ a b.
  assert (manhattan ai_pos a <= Z.of_nat (move_budget ai_pos player_pos)) as Ha.
  { unfold a. destruct (decide (stunned > 0)) as [Hs|Hs].
    { rewrite ai_a_turn_stunned by done. simpl. rewrite manhattan_self. lia. }
    destruct (ai_a_turn_unstunned ai_pos player_pos grid traps this_moves model
                global_counts stunned goal_pos ai2_pos) as (st & -> & ->); [lia|].
    simpl.
    apply (for_range_reach (ai_a_step player_pos grid goal_pos ai2_pos) _
             ltac:(intros [[p s] t];
                   destruct (ai_a_step_cases player_pos grid goal_pos ai2_pos p s t)
                     as [[_ ->]|[(_ & _ & ->)|(_ & _ & ->)]]; simpl;
                   [rewrite manhattan_self; lia|apply ai_a_choose_near..])
             (ai_pos, 0, traps)). }
  assert (manhattan ai2_pos b <= Z.of_nat (move_budget ai2_pos player_pos)) as Hb.
  { unfold b. destruct (decide (stunned > 0)) as [Hs|Hs].
    { rewrite ai_b_turn_stunned by done. simpl. rewrite manhattan_self. lia. }
    destruct (ai_b_turn_unstunned ai2_pos player_pos grid traps stunned ai_pos)
      as (st & -> & ->); [lia|].
    simpl.
    apply (for_range_reach (ai_b_step player_pos grid ai_pos) _
             ltac:(intros [[p s] t];
                   destruct (ai_b_step_cases player_pos grid ai_pos p s t)
                     as [[_ ->]|[(_ & _ & ->)|(_ & _ & ->)]]; simpl;
                   [rewrite manhattan_self; lia|apply ai_b_choose_near..])
             (ai2_pos, 0, traps)). }
  destruct (move_budget_cases ai_pos player_pos) as [[? Ea]|[? Ea]];
    destruct (move_budget_cases ai2_pos player_pos) as [[? Eb]|[? Eb]];
    rewrite Ea in Ha; rewrite Eb in Hb; repeat split; lia.
Qed.

Lemma adversary_speed_limit_witness :
  manhattan (8, 8)
    (ai_a_turn (8, 8) (0, 0) demo_grid ∅ [] [] [] 0 (0, 8) (8, 0)).1.1 <= 2.
Proof.
  destruct (adversary_speed_limit demo_grid (8, 8) (8, 0) (0, 0) (0, 8) ∅ [] [] [] 0
              demo_grid_ok) as (Ha & _).
  exact Ha.
Defined.

(** X8. Agent B only ever moves straight towards the player: after its
    turn, its Manhattan distance to the player has dropped by exactly the
    distance it has moved; so it never moves away, and it does not move
    at all when no free neighbouring cell is nearer to the player. *)
Theorem ai_b_turn_approaches (grid : grid_t) (ai2_pos player_pos ai_pos : cell)
    (traps : gset cell) (stunned : Z) :
  grid_ok grid →
  let b := (ai_b_turn ai2_pos player_pos grid traps stunned ai_pos).1.1 in
  manhattan b player_pos + manhattan ai2_pos b = manhattan ai2_pos player_pos
  ∧ manhattan b player_pos <= manhattan ai2_pos player_pos
  ∧ ((∀ c, c ∈ candidates grid ai2_pos ai_pos →
        manhattan ai2_pos player_pos <= manhattan c player_pos) →
     b = ai2_pos).
Proof.
  intros _ b.
  assert (manhattan b player_pos + manhattan ai2_pos b
          = manhattan ai2_pos player_pos) as Hgeo.
  { unfold b.
    apply (ai_b_turn_pos_inv
             (λ p, manhattan p player_pos + manhattan ai2_pos p
                   = manhattan ai2_pos player_pos)).
    - rewrite manhattan_self. lia.
    - intros pos Hpos _.
      destruct (scan_dirs_spec grid pos ai_pos player_pos pos
                  (manhattan pos player_pos)) as [[Heq _]|[Hlt _]];
        fold (ai_b_choose player_pos grid ai_pos pos) in *.
      + by rewrite Heq.
      + pose proof (ai_b_choose_near player_pos grid ai_pos pos).
        set (q := ai_b_choose player_pos grid ai_pos pos) in *.
        pose proof (manhattan_triangle pos q player_pos).
        pose proof (manhattan_triangle ai2_pos pos q).
        pose proof (manhattan_triangle ai2_pos q player_pos).
        lia. }
  split; [done|]. split.
  - assert (0 <= manhattan ai2_pos b) by (unfold manhattan; lia). lia.
  - intros Hall. unfold b.
    apply (ai_b_turn_pos_inv (λ p, p = ai2_pos)); [done|].
    intros pos -> _.
    destruct (scan_dirs_spec grid ai2_pos ai_pos player_pos ai2_pos
                (manhattan ai2_pos player_pos)) as [[Heq _]|(Hlt & l1 & l2 & Hl & _)];
      fold (ai_b_choose player_pos grid ai_pos ai2_pos) in *; [done|].
    assert (ai_b_choose player_pos grid ai_pos ai2_pos
            ∈ candidates grid ai2_pos ai_pos) as Hin.
    { rewrite Hl. apply elem_of_app. right. by left. }
    specialize (Hall _ Hin). lia.
Qed.

Lemma ai_b_turn_approaches_witness :
  manhattan (ai_b_turn (8, 0) (0, 0) demo_grid ∅ 0 (8, 8)).1.1 (0, 0)
  + manhattan (8, 0) (ai_b_turn (8, 0) (0, 0) demo_grid ∅ 0 (8, 8)).1.1
  = manhattan (8, 0) (0, 0).
Proof.
  destruct (ai_b_turn_approaches demo_grid (8, 0) (0, 0) (8, 8) ∅ 0 demo_grid_ok)
    as (Hgeo & _).
  exact Hgeo.
Defined.

(** X9. The step agent A chooses, with [target] its intercept target.
    On the target, A stays where it is.  At [m + 1] moves from the
    target, A steps to a neighbouring cell at [m] moves from it.  With no
    path to the target, A stays when it has no candidate and otherwise
    (the target being inside the bounds) takes the first of the
    candidates nearest to the target in Manhattan distance, nearer to it
    than A's cell or not. *)
Theorem ai_a_choose_spec (grid : grid_t)
    (player_pos goal_pos ai2_pos pos : cell) :
  grid_ok grid →
  let target := intercept_target player_pos goal_pos grid in
  let step := ai_a_choose player_pos grid goal_pos ai2_pos pos in
  (pos = target → step = pos)
  ∧ (∀ m, is_dist grid pos (S m) target →
       edge grid pos step ∧ is_dist grid step m target)
  ∧ (¬ reachable grid pos target →
       (candidates grid pos ai2_pos = [] → step = pos)
       ∧ (in_bounds target = true → candidates grid pos ai2_pos ≠ [] →
          ∃ l1 l2, candidates grid pos ai2_pos = l1 ++ step :: l2 ∧
                   (∀ c, c ∈ l1 → manhattan step target < manhattan c target) ∧
                   (∀ c, c ∈ l2 → manhattan step target <= manhattan c target))).
Proof.
  intros _ target step. unfold step, ai_a_choose.
  fold (intercept_target player_pos goal_pos grid). fold target.
  split; [|split].
  - intros ->. by rewrite bfs_first_step_same.
  - intros m Hd.
    destruct (bfs_first_step_closer grid pos target m Hd) as (c & -> & He & Hc).
    done.
  - intros Hun.
    assert (bfs_first_step pos target grid = None) as ->.
    { destruct (bfs_first_step pos target grid) as [c|] eqn:Hc; [|done].
      destruct (decide (pos = target)) as [->|Hne].
      { destruct Hun. exists 0%nat. apply path_nil. }
      destruct (bfs_first_step_Some _ _ _ _ Hne Hc) as (_ & m & _ & [Hp _]).
      destruct Hun. by exists (S m). }
    destruct (scan_dirs_spec grid pos ai2_pos target pos (10 ^ 9))
      as [[Heq Hall]|(Hlt & l1 & l2 & Hl & H1 & H2)].
    + split; [done|]. intros Hb Hne.
      destruct (candidates grid pos ai2_pos) as [|c l] eqn:Hc; [done|].
      assert (c ∈ candidates grid pos ai2_pos) as Hin by (rewrite Hc; by left).
      specialize (Hall c ltac:(by left)).
      apply candidates_legal in Hin as [(Hcb & _) _].
      apply in_bounds_iff in Hb, Hcb. unfold manhattan, GRID_SIZE in *. lia.
    + split.
      * intros Hnil. rewrite Hnil in Hl. by destruct l1.
      * intros _ _. by exists l1, l2.
Qed.

Lemma ai_a_choose_spec_witness :
  ai_a_choose (0, 0) demo_grid (0, 8) (8, 0) (1, 0) = (1, 0).
Proof.
  destruct (ai_a_choose_spec demo_grid (0, 0) (0, 8) (8, 0) (1, 0) demo_grid_ok)
    as (Hstay & _).
  apply Hstay. vm_compute. reflexivity.
Defined.

(* ===================================================================== *)
(** ** Further properties of the game loop *)
(* ===================================================================== *)

Lemma trap_outcome_count traps stunned r :
  trap_outcome traps stunned r → 0 <= stunned <= AI_STUN_TURNS →
  0 <= r.1.2 <= AI_STUN_TURNS
  ∧ (if bool_decide (r.1.2 > 0) && bool_decide (stunned = 0) then 1 else 0)
    + Z.of_nat (size r.2) = Z.of_nat (size traps).
Proof.
  intros [[-> Hs]|(Hs & Hst & Hin & ->)] Hb; unfold AI_STUN_TURNS in *.
  - destruct Hs as [->|[Hpos ->]].
    + rewrite bool_decide_eq_false_2 by lia. simpl. lia.
    + rewrite (bool_decide_eq_false_2 (stunned = 0)) by lia.
      rewrite andb_false_r. lia.
  - rewrite Hst. rewrite !bool_decide_eq_true_2 by lia. simpl.
    rewrite size_difference by (by apply singleton_subseteq_l).
    rewrite size_singleton.
    assert (size traps ≠ 0%nat) as Hne.
    { intros Hz. apply size_empty_inv in Hz. by apply Hz in Hin. }
    split; lia.
Qed.

Lemma player_action_budget g ch : budget_kept g → budget_kept (player_action g ch).
Proof.
  intros (Ha & Hb & Hl & Hs & Hsum). destruct ch as [| |d|]; simpl; try done.
  - destruct (bool_decide (traps_left g > 0)) eqn:E1; [|done].
    destruct (bool_decide (player_pos g ∉ traps g)) eqn:E2; [|done].
    apply bool_decide_eq_true in E1, E2. simpl.
    repeat split; simpl; try done; try lia.
    rewrite size_union by (by apply disjoint_singleton_l).
    rewrite size_singleton. lia.
  - by destruct (decide _).
Qed.

Lemma adversaries_budget g : budget_kept g → budget_kept (adversaries g).
Proof.
  intros (Ha & Hb & Hl & Hs & Hsum). unfold adversaries.
  pose proof (ai_a_turn_trap_outcome (ai_pos g) (player_pos g) (grid g) (traps g)
                (this_game_moves g) (model g) (global_counts g) (ai_stunned g)
                (goal_pos g) (ai2_pos g)) as Hta.
  destruct (ai_a_turn _ _ _ _ _ _ _ _ _ _) as [[a sa] t1].
  pose proof (ai_b_turn_trap_outcome (ai2_pos g) (player_pos g) (grid g) t1
                (ai2_stunned g) a) as Htb.
  destruct (ai_b_turn _ _ _ _ _ _) as [[b sb] t2].
  apply trap_outcome_count in Hta as [Hsa Hca]; [|done].
  apply trap_outcome_count in Htb as [Hsb Hcb]; [|done].
  simpl in *.
  destruct (bool_decide (sa > 0) && bool_decide (ai_stunned g = 0));
    destruct (bool_decide (sb > 0) && bool_decide (ai2_stunned g = 0));
    repeat split; simpl; lia.
Qed.

Lemma finish_turn_budget g file :
  budget_kept g → budget_kept (state_of (finish_turn g file).1).
Proof.
  intros Hg. pose proof (adversaries_budget g Hg) as Hg'. unfold finish_turn.
  save_cases.
  all: destruct (decide (player_pos g = goal_pos g)); [done|].
  all: destruct (decide (_ ∨ _)); done.
Qed.

Lemma play_turn_budget g ch file :
  budget_kept g → budget_kept (state_of (play_turn g ch file).1).
Proof.
  intros Hg. destruct ch; [unfold play_turn; by save_cases|..];
    apply finish_turn_budget, player_action_budget, Hg.
Qed.

Lemma play_budget keys :
  ∀ g file, budget_kept g → budget_kept (state_of (play keys g file).1).
Proof.
  induction keys as [|ch keys IH]; intros g file Hg; simpl; [done|].
  pose proof (play_turn_budget g ch file Hg) as Hg'.
  destruct (play_turn g ch file) as [[g'|r g'|r g'] file']; simpl in *; [|done..].
  by apply IH.
Qed.

(** X10. Throughout a session on a grid of the game the trap budget is
    conserved: the traps still in hand, the traps armed on the grid and
    the successful traps counted add up to [NUM_TRAPS]; none of the
    three is ever negative; and both stun counters stay between 0 and
    [AI_STUN_TURNS].  So [successful_traps] counts exactly the armed
    traps that adversaries have entered. *)
Theorem trap_budget_conserved (file : memory_file) (grid : grid_t)
    (player_pos ai_pos ai2_pos goal_pos : cell) (keys : list key) :
  grid_ok grid →
  let g := state_of (main file grid player_pos ai_pos ai2_pos goal_pos keys).1 in
  successful_traps g + Z.of_nat (size (traps g)) + traps_left g = NUM_TRAPS
  ∧ 0 <= traps_left g <= NUM_TRAPS
  ∧ 0 <= successful_traps g <= NUM_TRAPS
  ∧ 0 <= ai_stunned g <= AI_STUN_TURNS
  ∧ 0 <= ai2_stunned g <= AI_STUN_TURNS.
Proof.
  intros _ g.
  assert (budget_kept g) as (Ha & Hb & Hl & Hs & Hsum).
  { unfold g, main. apply play_budget. unfold new_game.
    destruct (build_markov_model _ _) as [mo gc].
    unfold budget_kept, AI_STUN_TURNS, NUM_TRAPS.
    cbn [ai_stunned ai2_stunned traps_left successful_traps traps].
    rewrite size_empty. lia. }
  repeat split; try done; lia.
Qed.

(** A session in which the player arms a trap on (3, 0) and moves
    north; agent B walks into the trap. *)
Lemma trap_budget_conserved_witness :
  let g := state_of (main NoFile demo_grid (3, 0) (8, 8) (6, 0) (0, 8)
                       [key_t; key_arrow north; key_arrow north]).1 in
  successful_traps g = 1
  ∧ successful_traps g + Z.of_nat (size (traps g)) + traps_left g = NUM_TRAPS.
Proof.
  destruct (trap_budget_conserved NoFile demo_grid (3, 0) (8, 8) (6, 0) (0, 8)
              [key_t; key_arrow north; key_arrow north] demo_grid_ok)
    as (Hsum & _).
  split; [vm_compute; reflexivity|exact Hsum].
Defined.

Lemma replay_app start moves d :
  replay start (moves ++ [d]) = destination (replay start moves) d.
Proof. unfold replay. by rewrite fold_left_app. Qed.

Lemma player_action_route start n g ch :
  route_kept start n g → route_kept start (S n) (player_action g ch).
Proof.
  intros [Hr Hl]. destruct ch as [| |d|]; simpl.
  - split; [done|lia].
  - destruct (_ && _); split; simpl; try done; lia.
  - destruct (decide _) as [Hne|]; [|split; [done|lia]].
    split; simpl.
    + rewrite replay_app, Hr.
      destruct (try_move_cases (player_pos g) d (grid g)) as [(-> & _)|(Heq & _)];
        [done|]. by rewrite Heq in Hne.
    + rewrite length_app. simpl. lia.
  - split; [done|lia].
Qed.

Lemma adversaries_route start n g :
  route_kept start n g → route_kept start n (adversaries g).
Proof.
  intros Hg. unfold adversaries.
  destruct (ai_a_turn _ _ _ _ _ _ _ _ _ _) as [[a sa] t1].
  by destruct (ai_b_turn _ _ _ _ _ _) as [[b sb] t2].
Qed.

Lemma play_turn_route start n g ch file :
  route_kept start n g → route_kept start (S n) (state_of (play_turn g ch file).1).
Proof.
  intros Hg.
  assert (∀ g', route_kept start (S n) g' →
            route_kept start (S n) (state_of (finish_turn g' file).1)) as Hfin.
  { intros g' Hg'. pose proof (adversaries_route _ _ _ Hg') as Ha.
    unfold finish_turn. save_cases.
    all: destruct (decide (player_pos g' = goal_pos g')); [done|].
    all: destruct (decide (_ ∨ _)); done. }
  destruct ch; [|apply Hfin, player_action_route, Hg..].
  unfold play_turn. save_cases; destruct Hg; split; (done || (simpl; lia)).
Qed.

Lemma play_route start keys :
  ∀ n g file, route_kept start n g →
    route_kept start (n + length keys) (state_of (play keys g file).1).
Proof.
  induction keys as [|ch keys IH]; intros n g file Hg; simpl.
  - by rewrite Nat.add_0_r.
  - pose proof (play_turn_route start n g ch file Hg) as Hg'.
    destruct (play_turn g ch file) as [[g'|r g'|r g'] file']; simpl in *.
    + replace (n + S (length keys))%nat with (S n + length keys)%nat by lia.
      by apply IH.
    + destruct Hg' as [? ?]. split; [done|lia].
    + destruct Hg' as [? ?]. split; [done|lia].
Qed.

(** X11. The move history is the player's route: at any point of a
    session, taking the recorded moves one unit step each from the cell
    the player started on leads to the cell the player is on, blocked
    moves and the other keys having left no trace; the history has at
    most one move per key pressed, and the record saved when the session
    ends holds that same history. *)
Theorem move_history_is_route (file : memory_file) (grid : grid_t)
    (start ai_start ai2_start goal : cell) (keys : list key) :
  grid_ok grid →
  let session := main file grid start ai_start ai2_start goal keys in
  replay start (this_game_moves (state_of session.1))
  = player_pos (state_of session.1)
  ∧ (length (this_game_moves (state_of session.1)) ≤ length keys)%nat
  ∧ (∀ result g, session.1 = Over result g →
       ∃ r, last (get_games (load_memory session.2)) = Some r ∧
            replay start (rec_moves r) = player_pos g).
Proof.
  intros _ session.
  assert (route_kept start (length keys) (state_of session.1)) as [Hr Hl].
  { unfold session, main. apply (play_route start keys 0%nat).
    unfold new_game. destruct (build_markov_model _ _). by split. }
  split; [done|]. split; [done|].
  intros result g Hover.
  pose proof (play_store keys
                (new_game file grid start ai_start ai2_start goal) file) as Hs.
  fold (main file grid start ai_start ai2_start goal keys) in Hs.
  fold session in Hs. rewrite Hover in Hr. simpl in Hr.
  destruct session as [res file']. simpl in *. subst res.
  destruct Hs as [_ Hs].
  exists (saved_record result g). by rewrite Hs, last_snoc.
Qed.

(** East is blocked by a WALL and leaves no move; the two moves south
    lead from (0, 0) to (2, 0). *)
Lemma move_history_is_route_witness :
  let session := main NoFile demo_grid (0, 0) (8, 8) (8, 0) (0, 8)
                   [key_arrow east; key_arrow south; key_t; key_arrow south] in
  this_game_moves (state_of session.1) = [south; south]
  ∧ replay (0, 0) (this_game_moves (state_of session.1))
    = player_pos (state_of session.1).
Proof.
  destruct (move_history_is_route NoFile demo_grid (0, 0) (8, 8) (8, 0) (0, 8)
              [key_arrow east; key_arrow south; key_t; key_arrow south]
              demo_grid_ok) as (Hroute & _).
  split; [vm_compute; reflexivity|exact Hroute].
Defined.

Lemma player_action_fixed g ch :
  goal_pos (player_action g ch) = goal_pos g ∧ turn (player_action g ch) = turn g.
Proof.
  destruct ch as [| |d|]; simpl; try done.
  - by destruct (_ && _).
  - by destruct (decide _).
Qed.

Lemma adversaries_fixed g :
  goal_pos (adversaries g) = goal_pos g ∧ turn (adversaries g) = turn g ∧
  player_pos (adversaries g) = player_pos g.
Proof.
  unfold adversaries.
  destruct (ai_a_turn _ _ _ _ _ _ _ _ _ _) as [[a sa] t1].
  by destruct (ai_b_turn _ _ _ _ _ _) as [[b sb] t2].
Qed.

Lemma finish_turn_outcome g file :
  goal_pos (state_of (finish_turn g file).1) = goal_pos g
  ∧ outcome_ok (finish_turn g file).1
  ∧ result_of (finish_turn g file).1 ≠ Some quit
  ∧ (∀ g', (finish_turn g file).1 = Playing g' → turn g' = turn g + 1).
Proof.
  destruct (adversaries_fixed g) as (Hgoal & Hturn & Hplayer).
  unfold finish_turn. save_cases.
  all: destruct (decide (player_pos g = goal_pos g)) as [|Hne]; [done|].
  all: destruct (decide (_ ∨ _)) as [Hc|Hc]; simpl.
  all: try (repeat split; try done; congruence).
  all: repeat split; try done; try tauto; try congruence.
  all: intros g' [= <-]; simpl; lia.
Qed.

Lemma play_outcome goal keys :
  ∀ g file, goal_pos g = goal →
    let r := (play keys g file).1 in
    goal_pos (state_of r) = goal
    ∧ (keys ≠ [] → outcome_ok r)
    ∧ (∀ g', r = Playing g' →
         (key_q ∉ keys) ∧ turn g' = turn g + Z.of_nat (length keys))
    ∧ (result_of r = Some quit → key_q ∈ keys).
Proof.
  induction keys as [|ch keys IH]; intros g file Hgoal; cbn [play].
  { simpl. split; [done|]. split; [done|]. split; [|done].
    intros g' [= <-]. split; [apply not_elem_of_nil|lia]. }
  assert (goal_pos (state_of (play_turn g ch file).1) = goal
          ∧ outcome_ok (play_turn g ch file).1
          ∧ (result_of (play_turn g ch file).1 = Some quit → ch = key_q)
          ∧ (∀ g', (play_turn g ch file).1 = Playing g' →
               ch ≠ key_q ∧ turn g' = turn g + 1)) as (Hg1 & Hok1 & Hq1 & Hp1).
  { destruct (player_action_fixed g ch) as [Hpg Hpt].
    destruct (finish_turn_outcome (player_action g ch) file) as (Hfg & Hfo & Hfq & Hft).
    destruct ch; [unfold play_turn; save_cases; simpl; repeat split; done| | |];
      (unfold play_turn; split; [congruence|]; split; [done|];
       split; [done|]; intros g' Hg'; split; [done|]; rewrite (Hft g' Hg'); lia). }
  destruct (play_turn g ch file) as [[g1|r1 g1|r1 g1] file1]; simpl in *.
  - destruct (IH g1 file1 Hg1) as (Hg & Hok & Hp & Hq).
    destruct (Hp1 g1 eq_refl) as [Hch Ht1].
    split; [done|]. split.
    + intros _. destruct keys as [|k keys]; [simpl; done|]. by apply Hok.
    + split.
      * intros g' Hg'. destruct (Hp g' Hg') as [Hnq Ht]. split.
        -- intros Hin. apply elem_of_cons in Hin as [?|?]; done.
        -- lia.
      * intros Hr. right. by apply Hq.
  - split; [done|]. split; [done|]. split; [intros g' [=]|].
    intros Hr. rewrite (Hq1 Hr). by left.
  - split; [done|]. split; [done|]. split; [intros g' [=]|].
    intros Hr. rewrite (Hq1 Hr). by left.
Qed.

(** X12. How a session on a grid of the game stands after the keys
    pressed so far.  While it goes on, 'q' has not been pressed, the turn
    counter is 1 plus the number of keys pressed (a blocked move and a
    key that is no action cost a turn like any other) and, once a key
    has been pressed, the player is not on the goal and no adversary is
    on the player's cell.  A session that is won ends with the player on
    the goal; one that is lost ends with the player off the goal and an
    adversary on the player's cell; one that is quit ended on 'q'; and
    the same holds of a session that ends in the exception of
    [save_game].  The goal never moves. *)
Theorem session_outcome (file : memory_file) (grid : grid_t)
    (start ai_start ai2_start goal : cell) (keys : list key) :
  grid_ok grid →
  let r := (main file grid start ai_start ai2_start goal keys).1 in
  goal_pos (state_of r) = goal
  ∧ (∀ g, r = Playing g →
       (key_q ∉ keys) ∧ turn g = 1 + Z.of_nat (length keys) ∧
       (keys ≠ [] →
        player_pos g ≠ goal ∧ ai_pos g ≠ player_pos g ∧ ai2_pos g ≠ player_pos g))
  ∧ (∀ g, r = Over win g → player_pos g = goal)
  ∧ (∀ g, r = Over loss g →
       player_pos g ≠ goal ∧ (ai_pos g = player_pos g ∨ ai2_pos g = player_pos g))
  ∧ (∀ g, r = Over quit g → key_q ∈ keys)
  ∧ (∀ g, r = Raised win g → player_pos g = goal)
  ∧ (∀ g, r = Raised loss g →
       player_pos g ≠ goal ∧ (ai_pos g = player_pos g ∨ ai2_pos g = player_pos g))
  ∧ (∀ g, r = Raised quit g → key_q ∈ keys).
Proof.
  intros _ r.
  destruct (play_outcome goal keys
              (new_game file grid start ai_start ai2_start goal) file)
    as (Hgoal & Hok & Hplay & Hquit).
  { unfold new_game. by destruct (build_markov_model _ _). }
  fold (main file grid start ai_start ai2_start goal keys) in Hgoal, Hok, Hplay, Hquit.
  fold r in Hgoal, Hok, Hplay, Hquit.
  assert (keys ≠ [] ∨ r = Playing (new_game file grid start ai_start ai2_start goal))
    as Hkeys.
  { destruct keys; [by right|by left]. }
  split; [done|]. split; [|split; [|split; [|split; [|split; [|split]]]]].
  - intros g Hg. destruct (Hplay g Hg) as [Hnq Ht]. split; [done|]. split.
    + rewrite Ht. unfold new_game. by destruct (build_markov_model _ _).
    + intros Hne. specialize (Hok Hne). rewrite Hg in Hok, Hgoal. simpl in *.
      by rewrite <- Hgoal.
  - intros g Hg. destruct Hkeys as [Hne|Hp]; [|congruence].
    specialize (Hok Hne). rewrite Hg in Hok, Hgoal. simpl in *. congruence.
  - intros g Hg. destruct Hkeys as [Hne|Hp]; [|congruence].
    specialize (Hok Hne). rewrite Hg in Hok, Hgoal. simpl in *.
    by rewrite <- Hgoal.
  - intros g Hg. apply Hquit. by rewrite Hg.
  - intros g Hg. destruct Hkeys as [Hne|Hp]; [|congruence].
    specialize (Hok Hne). rewrite Hg in Hok, Hgoal. simpl in *. congruence.
  - intros g Hg. destruct Hkeys as [Hne|Hp]; [|congruence].
    specialize (Hok Hne). rewrite Hg in Hok, Hgoal. simpl in *.
    by rewrite <- Hgoal.
  - intros g Hg. apply Hquit. by rewrite Hg.
Qed.

(** Three keys, one of them no action and one a blocked move: the
    session goes on, in its fourth turn. *)
Lemma session_outcome_witness :
  let r := (main NoFile demo_grid (0, 0) (8, 8) (8, 0) (0, 8)
              [key_other; key_arrow east; key_arrow south]).1 in
  r = Playing (state_of r) ∧ turn (state_of r) = 4.
Proof.
  intros r.
  assert (r = Playing (state_of r)) as Hr by (vm_compute; reflexivity).
  split; [exact Hr|].
  destruct (session_outcome NoFile demo_grid (0, 0) (8, 8) (8, 0) (0, 8)
              [key_other; key_arrow east; key_arrow south] demo_grid_ok)
    as (_ & Hplay & _).
  destruct (Hplay (state_of r) Hr) as (_ & Ht & _).
  exact Ht.
Defined.

(* ===================================================================== *)
(** ** Grid generation and placement: properties *)
(* ===================================================================== *)

Lemma tile_at_nonneg grid r c :
  0 <= r → 0 <= c →
  tile_at grid r c = grid !! Z.to_nat r ≫= (λ row, row !! Z.to_nat c).
Proof.
  intros Hr Hc. unfold tile_at, py_index. rewrite decide_True by done.
  destruct (grid !! Z.to_nat r) as [row|]; simpl; [|done].
  by rewrite decide_True.
Qed.

Lemma tile_at_set_tile_eq grid r c t :
  0 <= r → 0 <= c → is_Some (tile_at grid r c) →
  tile_at (set_tile grid r c t) r c = Some t.
Proof.
  intros Hr Hc. rewrite !tile_at_nonneg by done. unfold set_tile.
  rewrite list_lookup_alter_eq.
  destruct (grid !! Z.to_nat r) as [row|]; simpl; [|by intros [? ?]].
  intros Hrow. apply list_lookup_insert_eq. by apply lookup_lt_is_Some.
Qed.

Lemma tile_at_set_tile_ne grid r c t r' c' :
  0 <= r → 0 <= c → 0 <= r' → 0 <= c' → (r', c') ≠ (r, c) →
  tile_at (set_tile grid r c t) r' c' = tile_at grid r' c'.
Proof.
  intros Hr Hc Hr' Hc' Hne. rewrite !tile_at_nonneg by done. unfold set_tile.
  destruct (decide (Z.to_nat r = Z.to_nat r')) as [Heq|Hneq].
  - rewrite Heq, list_lookup_alter_eq.
    destruct (grid !! Z.to_nat r') as [row|]; simpl; [|done].
    apply list_lookup_insert_ne. intros Hc2. apply Hne. f_equal; lia.
  - by rewrite list_lookup_alter_ne.
Qed.

Lemma set_tile_square n grid r c t :
  square n grid → square n (set_tile grid r c t).
Proof.
  intros [Hlen Hrows]. unfold set_tile. split.
  - by rewrite length_alter.
  - apply Forall_forall. intros row Hrow.
    apply list_elem_of_lookup in Hrow as [i Hi].
    rewrite Forall_forall in Hrows.
    destruct (decide (Z.to_nat r = i)) as [<-|Hne].
    + rewrite list_lookup_alter_eq in Hi.
      destruct (grid !! Z.to_nat r) as [row0|] eqn:Hrow0; [|done].
      injection Hi as <-. rewrite length_insert.
      apply Hrows. by eapply list_elem_of_lookup_2.
    + rewrite list_lookup_alter_ne in Hi by done.
      apply Hrows. by eapply list_elem_of_lookup_2.
Qed.

Lemma row_wall_count (row : list tile) :
  ∀ j, row !! j = Some EMPTY →
    length (filter (λ t, t = WALL) (<[j := WALL]> row))
    = S (length (filter (λ t, t = WALL) row)).
Proof.
  induction row as [|t row IH]; intros j Hj; [done|].
  destruct j as [|j]; simpl in Hj.
  - injection Hj as ->.
    change (<[0%nat:=WALL]> (EMPTY :: row)) with (WALL :: row).
    rewrite filter_cons_True by done.
    rewrite (filter_cons_False (λ t, t = WALL) EMPTY row) by done. done.
  - change (<[S j:=WALL]> (t :: row)) with (t :: <[j:=WALL]> row).
    rewrite !filter_cons. destruct (decide (t = WALL)); simpl; by rewrite IH.
Qed.

Lemma wall_count_set_tile grid r c :
  0 <= r → 0 <= c → tile_at grid r c = Some EMPTY →
  wall_count (set_tile grid r c WALL) = S (wall_count grid).
Proof.
  intros Hr Hc. rewrite tile_at_nonneg by done. unfold wall_count, set_tile.
  generalize (Z.to_nat r) (Z.to_nat c). clear. intros i j. revert i.
  induction grid as [|row grid IH]; intros i Hi; [done|].
  destruct i as [|i]; simpl in Hi; cbn [alter list_alter concat].
  - rewrite !filter_app, !length_app. by rewrite row_wall_count.
  - rewrite !filter_app, !length_app. rewrite IH by done. lia.
Qed.

Lemma empty_grid_ok : grid_ok empty_grid ∧ wall_count empty_grid = 0%nat.
Proof.
  split; [|reflexivity]. split; [reflexivity|]. repeat constructor.
Qed.

(** The loop of [make_grid], from a square grid holding [placed] walls. *)
Lemma make_grid_loop_spec (all : list cell) :
  ∀ draws grid placed grid' rest,
    grid_ok grid → Z.of_nat (wall_count grid) = placed →
    placed <= NUM_OBSTACLES → draws_ok draws →
    (∀ d, d ∈ draws → d ∈ all) →
    (∀ r c, 0 <= r → 0 <= c → tile_at grid r c = Some WALL → (r, c) ∈ all) →
    make_grid_loop draws grid placed = Some (grid', rest) →
    grid_ok grid' ∧ Z.of_nat (wall_count grid') = NUM_OBSTACLES
    ∧ rest `suffix_of` draws
    ∧ (∀ r c, 0 <= r → 0 <= c → tile_at grid' r c = Some WALL → (r, c) ∈ all).
Proof.
  induction draws as [|[r c] draws IH];
    intros grid placed grid' rest Hok Hcount Hle Hdraws Hall Hwalls; simpl.
  - destruct (decide (placed < NUM_OBSTACLES)).
    + by rewrite bool_decide_eq_true_2.
    + rewrite bool_decide_eq_false_2 by done. intros [= <- <-].
      split; [done|]. split; [lia|]. split; [done|done].
  - destruct (decide (placed < NUM_OBSTACLES)).
    2:{ rewrite bool_decide_eq_false_2 by done. intros [= <- <-].
        split; [done|]. split; [lia|]. split; [done|done]. }
    rewrite bool_decide_eq_true_2 by done.
    apply Forall_cons in Hdraws as [Hd Hdraws]. apply in_bounds_iff in Hd.
    simpl in Hd.
    assert (∀ d, d ∈ draws → d ∈ all) as Hall' by (intros; apply Hall; by right).
    destruct (decide (tile_at grid r c = Some EMPTY)) as [He|He].
    + rewrite bool_decide_eq_true_2 by done. intros Hloop.
      apply IH in Hloop as (? & ? & ? & ?); try done.
      * split; [done|]. split; [done|]. split; [by apply suffix_cons_r|done].
      * by apply set_tile_square.
      * rewrite wall_count_set_tile by (done || lia). lia.
      * lia.
      * intros r' c' Hr' Hc' Hw.
        destruct (decide ((r', c') = (r, c))) as [[= -> ->]|Hne].
        -- apply Hall. by left.
        -- rewrite tile_at_set_tile_ne in Hw by (done || lia). by apply Hwalls.
    + rewrite bool_decide_eq_false_2 by done. intros Hloop.
      apply IH in Hloop as (? & ? & ? & ?); try done.
      split; [done|]. split; [done|]. split; [by apply suffix_cons_r|done].
Qed.

(** What [make_grid] returns. *)
Lemma make_grid_ok (draws : list cell) (grid : grid_t) (rest : list cell) :
  draws_ok draws → make_grid draws = Some (grid, rest) →
  grid_ok grid
  ∧ Z.of_nat (wall_count grid) = NUM_OBSTACLES
  ∧ (∀ r c, 0 <= r → 0 <= c → tile_at grid r c = Some WALL → (r, c) ∈ draws)
  ∧ rest `suffix_of` draws.
Proof.
  intros Hdraws Hmake. destruct empty_grid_ok as [Hok Hcount].
  assert (∀ r c, 0 <= r → 0 <= c → tile_at empty_grid r c = Some WALL →
                 (r, c) ∈ draws) as Hnone.
  { intros r c Hr Hc Hw. exfalso.
    rewrite tile_at_nonneg in Hw by done. unfold empty_grid in Hw.
    destruct (replicate _ _ !! Z.to_nat r) as [row|] eqn:Hrow; [|done].
    apply lookup_replicate in Hrow as [-> _].
    change (replicate (Z.to_nat GRID_SIZE) EMPTY !! Z.to_nat c = Some WALL) in Hw.
    apply lookup_replicate in Hw as [? _]. done. }
  assert (Z.of_nat (wall_count empty_grid) = 0) as Hzero by (by rewrite Hcount).
  assert (0 <= NUM_OBSTACLES) as Hle by done.
  destruct (make_grid_loop_spec draws draws empty_grid 0 grid rest Hok Hzero Hle
              Hdraws (λ d H, H) Hnone Hmake) as (? & ? & ? & ?).
  done.
Qed.

(** X13. When [make_grid] returns, on draws that [randrange(GRID_SIZE)]
    can give, the grid it returns is a square of side [GRID_SIZE] with
    exactly [NUM_OBSTACLES] WALL tiles, each on a cell that was drawn;
    the draws it has not used are the end of those it was given. *)
Theorem make_grid_spec (draws : list cell) (grid : grid_t) (rest : list cell) :
  draws_ok draws → make_grid draws = Some (grid, rest) →
  grid_ok grid
  ∧ Z.of_nat (wall_count grid) = NUM_OBSTACLES
  ∧ (∀ r c, 0 <= r → 0 <= c → tile_at grid r c = Some WALL → (r, c) ∈ draws)
  ∧ rest `suffix_of` draws.
Proof. apply make_grid_ok. Qed.

Lemma demo_draws_ok : draws_ok demo_draws.
Proof. repeat constructor. Qed.

Lemma make_grid_spec_witness :
  ∃ grid, make_grid demo_draws = Some (grid, [])
          ∧ Z.of_nat (wall_count grid) = NUM_OBSTACLES.
Proof.
  exists (default empty_grid (fst <$> make_grid demo_draws)).
  assert (make_grid demo_draws
          = Some (default empty_grid (fst <$> make_grid demo_draws), []))
    as Hmake by (vm_compute; reflexivity).
  split; [exact Hmake|].
  destruct (make_grid_spec demo_draws _ [] demo_draws_ok Hmake) as (_ & Hcount & _).
  exact Hcount.
Defined.

Lemma random_empty_cell_spec grid :
  ∀ draws c rest,
    random_empty_cell draws grid = Some (c, rest) →
    c ∈ draws ∧ tile_at grid c.1 c.2 = Some EMPTY ∧ rest `suffix_of` draws
    ∧ (length rest < length draws)%nat.
Proof.
  induction draws as [|[r c0] draws IH]; intros c rest; simpl; [done|].
  destruct (decide (tile_at grid r c0 = Some EMPTY)) as [He|He].
  - rewrite bool_decide_eq_true_2 by done. intros [= <- <-].
    split; [by left|]. split; [done|]. split; [|lia].
    apply suffix_cons_r. done.
  - rewrite bool_decide_eq_false_2 by done. intros Hrec.
    apply IH in Hrec as (? & ? & ? & ?).
    split; [by right|]. split; [done|]. split; [by apply suffix_cons_r|lia].
Qed.

Lemma draws_ok_suffix rest draws :
  rest `suffix_of` draws → draws_ok draws → draws_ok rest.
Proof.
  intros [k ->] Hd. unfold draws_ok in *. by apply Forall_app in Hd as [_ ?].
Qed.

Lemma random_empty_cell_open grid draws c rest :
  draws_ok draws → random_empty_cell draws grid = Some (c, rest) →
  open_cell grid c ∧ draws_ok rest ∧ rest `suffix_of` draws.
Proof.
  intros Hd Hc. apply random_empty_cell_spec in Hc as (Hin & He & Hs & _).
  split; [|split; [by eapply draws_ok_suffix|done]].
  split; [|done]. unfold draws_ok in Hd. rewrite Forall_forall in Hd. by apply Hd.
Qed.

Lemma overlap_false player_pos ai_pos ai2_pos goal_pos :
  overlap player_pos ai_pos ai2_pos goal_pos = false ↔
  ai_pos ≠ player_pos ∧ ai2_pos ≠ player_pos ∧ goal_pos ≠ player_pos ∧
  goal_pos ≠ ai_pos ∧ goal_pos ≠ ai2_pos ∧ ai_pos ≠ ai2_pos.
Proof.
  unfold overlap. rewrite !orb_false_iff, !bool_decide_eq_false. tauto.
Qed.

(** The number of passes allowed does not matter once it is at least
    the number of draws. *)
Lemma place_loop_fuel grid :
  ∀ fuel1 fuel2 draws player_pos ai_pos ai2_pos goal_pos,
    (length draws ≤ fuel1)%nat → (length draws ≤ fuel2)%nat →
    place_loop fuel1 draws grid player_pos ai_pos ai2_pos goal_pos
    = place_loop fuel2 draws grid player_pos ai_pos ai2_pos goal_pos.
Proof.
  induction fuel1 as [|fuel1 IH];
    intros fuel2 draws p a a2 g H1 H2; destruct fuel2 as [|fuel2]; simpl;
    destruct (overlap p a a2 g); try done.
  - destruct draws; [done|simpl in H1; lia].
  - destruct draws; [done|simpl in H2; lia].
  - destruct (random_empty_cell draws grid) as [[c1 d1]|] eqn:E1; [|done].
    apply random_empty_cell_spec in E1 as (_ & _ & _ & ?).
    destruct (random_empty_cell d1 grid) as [[c2 d2]|] eqn:E2; [|done].
    apply random_empty_cell_spec in E2 as (_ & _ & _ & ?).
    destruct (random_empty_cell d2 grid) as [[c3 d3]|] eqn:E3; [|done].
    apply random_empty_cell_spec in E3 as (_ & _ & _ & ?).
    apply IH; lia.
Qed.

Lemma place_loop_spec grid :
  ∀ fuel draws p a a2 g p' a' a2' g' rest,
    draws_ok draws →
    open_cell grid p → open_cell grid a → open_cell grid a2 → open_cell grid g →
    place_loop fuel draws grid p a a2 g = Some (p', a', a2', g', rest) →
    p' = p ∧ open_cell grid a' ∧ open_cell grid a2' ∧ open_cell grid g'
    ∧ overlap p' a' a2' g' = false ∧ rest `suffix_of` draws.
Proof.
  induction fuel as [|fuel IH];
    intros draws p a a2 g p' a' a2' g' rest Hd Hp Ha Ha2 Hg; simpl;
    destruct (overlap p a a2 g) eqn:Ho; try done;
    try (intros [= <- <- <- <- <-]; done).
  destruct (random_empty_cell draws grid) as [[c1 d1]|] eqn:E1; [|done].
  apply random_empty_cell_open in E1 as (? & ? & ?); [|done].
  destruct (random_empty_cell d1 grid) as [[c2 d2]|] eqn:E2; [|done].
  apply random_empty_cell_open in E2 as (? & ? & ?); [|done].
  destruct (random_empty_cell d2 grid) as [[c3 d3]|] eqn:E3; [|done].
  apply random_empty_cell_open in E3 as (? & ? & ?); [|done].
  intros Hloop. apply IH in Hloop as (? & ? & ? & ? & ? & ?); try done.
  repeat (split; [done|]).
  etrans; [done|]. etrans; [done|]. etrans; done.
Qed.

(** What [place_entities] returns. *)
Lemma place_entities_ok (grid : grid_t) (draws : list cell)
    (player_pos ai_pos ai2_pos goal_pos : cell) (rest : list cell) :
  draws_ok draws →
  place_entities draws grid = Some (player_pos, ai_pos, ai2_pos, goal_pos, rest) →
  open_cell grid player_pos ∧ open_cell grid ai_pos ∧ open_cell grid ai2_pos
  ∧ open_cell grid goal_pos
  ∧ NoDup [player_pos; ai_pos; ai2_pos; goal_pos]
  ∧ rest `suffix_of` draws.
Proof.
  intros Hd. unfold place_entities.
  destruct (random_empty_cell draws grid) as [[c0 d0]|] eqn:E0; [|done].
  apply random_empty_cell_open in E0 as (? & ? & ?); [|done].
  destruct (random_empty_cell d0 grid) as [[c1 d1]|] eqn:E1; [|done].
  apply random_empty_cell_open in E1 as (? & ? & ?); [|done].
  destruct (random_empty_cell d1 grid) as [[c2 d2]|] eqn:E2; [|done].
  apply random_empty_cell_open in E2 as (? & ? & ?); [|done].
  destruct (random_empty_cell d2 grid) as [[c3 d3]|] eqn:E3; [|done].
  apply random_empty_cell_open in E3 as (? & ? & ?); [|done].
  intros Hloop. apply place_loop_spec in Hloop as (-> & ? & ? & ? & Ho & ?);
    try done.
  apply overlap_false in Ho as (? & ? & ? & ? & ? & ?).
  repeat (split; [done|]). split.
  - repeat (apply NoDup_cons_2;
            [rewrite ?not_elem_of_cons; repeat split; try done;
             try (by apply not_eq_sym); apply not_elem_of_nil|]).
    apply NoDup_nil_2.
  - etrans; [done|]. etrans; [done|]. etrans; [done|]. etrans; done.
Qed.

(** X14. When [place_entities] returns, on draws that
    [randrange(GRID_SIZE)] can give, the player, the two adversaries and
    the goal are on four distinct cells, each inside the bounds and on an
    EMPTY tile. *)
Theorem place_entities_spec (grid : grid_t) (draws : list cell)
    (player_pos ai_pos ai2_pos goal_pos : cell) (rest : list cell) :
  draws_ok draws →
  place_entities draws grid = Some (player_pos, ai_pos, ai2_pos, goal_pos, rest) →
  open_cell grid player_pos ∧ open_cell grid ai_pos ∧ open_cell grid ai2_pos
  ∧ open_cell grid goal_pos
  ∧ NoDup [player_pos; ai_pos; ai2_pos; goal_pos]
  ∧ rest `suffix_of` draws.
Proof. apply place_entities_ok. Qed.

Lemma demo_place_draws_ok : draws_ok demo_place_draws.
Proof. repeat constructor. Qed.

Lemma place_entities_spec_witness :
  place_entities demo_place_draws demo_grid
  = Some ((0, 0), (8, 8), (8, 0), (0, 8), [])
  ∧ NoDup [ (0, 0); (8, 8); (8, 0); (0, 8) ].
Proof.
  assert (place_entities demo_place_draws demo_grid
          = Some ((0, 0), (8, 8), (8, 0), (0, 8), [])) as Hplace
    by (vm_compute; reflexivity).
  split; [exact Hplace|].
  destruct (place_entities_spec demo_grid demo_place_draws _ _ _ _ _
              demo_place_draws_ok Hplace) as (_ & _ & _ & _ & Hnd & _).
  exact Hnd.
Defined.

(* ===================================================================== *)
(** ** A whole session, from the draws on *)
(* ===================================================================== *)

Lemma trap_outcome_subset traps stunned r c :
  trap_outcome traps stunned r → c ∈ r.2 → c ∈ traps.
Proof.
  intros [[-> _]|(_ & _ & _ & ->)] Hc; [done|].
  by apply elem_of_difference in Hc as [? _].
Qed.

Lemma player_action_session g ch :
  session_inv g → session_inv (player_action g ch).
Proof.
  intros (Hok & Hw & Hopen & Hgoal & Hne & Htraps).
  destruct (player_action_open g ch Hopen) as [Hgrid Hopen'].
  assert (goal_pos (player_action g ch) = goal_pos g
          ∧ ai_pos (player_action g ch) = ai_pos g
          ∧ ai2_pos (player_action g ch) = ai2_pos g
          ∧ ∀ c, c ∈ traps (player_action g ch) → c ∈ traps g ∨ c = player_pos g)
    as (Eg & Ea & Eb & Ht).
  { destruct ch as [| |d|]; simpl; auto.
    - destruct (_ && _); simpl; [|auto].
      repeat split; try done. intros c Hc.
      apply elem_of_union in Hc as [Hc|Hc]; [|by left].
      apply elem_of_singleton in Hc. by right.
    - destruct (decide _); simpl; auto. }
  unfold session_inv. rewrite Hgrid, Eg, Ea, Eb.
  repeat (split; [done|]).
  intros c Hc. destruct (Ht c Hc) as [?| ->]; [by apply Htraps|].
  by destruct Hopen.
Qed.

Lemma adversaries_session g : session_inv g → session_inv (adversaries g).
Proof.
  intros (Hok & Hw & Hopen & Hgoal & Hne & Htraps).
  destruct (adversaries_open g Hok Hopen) as [Hgrid Hopen'].
  pose proof (adversaries_distinct g Hne) as Hne'.
  destruct (adversaries_fixed g) as (Eg & _ & _).
  assert (∀ c, c ∈ traps (adversaries g) → c ∈ traps g) as Ht.
  { unfold adversaries.
    pose proof (ai_a_turn_trap_outcome (ai_pos g) (player_pos g) (grid g) (traps g)
                  (this_game_moves g) (model g) (global_counts g) (ai_stunned g)
                  (goal_pos g) (ai2_pos g)) as Hta.
    destruct (ai_a_turn _ _ _ _ _ _ _ _ _ _) as [[a sa] t1].
    pose proof (ai_b_turn_trap_outcome (ai2_pos g) (player_pos g) (grid g) t1
                  (ai2_stunned g) a) as Htb.
    destruct (ai_b_turn _ _ _ _ _ _) as [[b sb] t2]. simpl.
    intros c Hc. eapply trap_outcome_subset; [exact Hta|].
    eapply trap_outcome_subset; [exact Htb|done]. }
  unfold session_inv. rewrite Hgrid, Eg.
  repeat (split; [done|]). intros c Hc. by apply Htraps, Ht.
Qed.

Lemma play_turn_session g ch file :
  session_inv g → session_inv (state_of (play_turn g ch file).1).
Proof.
  intros Hg.
  assert (∀ g', session_inv g' → session_inv (state_of (finish_turn g' file).1))
    as Hfin.
  { intros g' Hg'. pose proof (adversaries_session g' Hg') as Ha.
    unfold finish_turn. save_cases.
    all: destruct (decide (player_pos g' = goal_pos g')); [done|].
    all: destruct (decide (_ ∨ _)); done. }
  destruct ch; [|apply Hfin, player_action_session, Hg..].
  unfold play_turn. by save_cases.
Qed.

Lemma play_session keys :
  ∀ g file, session_inv g → session_inv (state_of (play keys g file).1).
Proof.
  induction keys as [|ch keys IH]; intros g file Hg; simpl; [done|].
  pose proof (play_turn_session g ch file Hg) as Hg'.
  destruct (play_turn g ch file) as [[g'|r g'|r g'] file']; simpl in *; [|done..].
  by apply IH.
Qed.

Lemma start_game_session file draws g :
  draws_ok draws → start_game file draws = Some g →
  session_inv g ∧ player_pos g ≠ goal_pos g ∧ ai_pos g ≠ player_pos g ∧
  ai2_pos g ≠ player_pos g.
Proof.
  intros Hd. unfold start_game.
  destruct (make_grid draws) as [[gr d1]|] eqn:Hmake; [|done].
  apply make_grid_ok in Hmake as (Hok & Hw & _ & Hs); [|done].
  destruct (place_entities d1 gr) as [[[[[p a] a2] go] d2]|] eqn:Hplace; [|done].
  apply place_entities_ok in Hplace as (Hp & Ha & Ha2 & Hgo & Hnd & _);
    [|by eapply draws_ok_suffix].
  intros [= <-]. unfold new_game. destruct (build_markov_model _ _) as [mo gc].
  apply NoDup_cons in Hnd as [Hp1 Hnd]. apply NoDup_cons in Hnd as [Ha1 _].
  rewrite !not_elem_of_cons in Hp1, Ha1.
  rewrite not_elem_of_cons in Hp1.
  unfold session_inv, on_open_cells. simpl.
  split; [|split; [tauto|split; apply not_eq_sym; tauto]].
  split; [done|]. split; [done|]. split; [done|]. split; [done|].
  split; [tauto|]. intros c Hc. by apply elem_of_empty in Hc.
Qed.

(** X15. In a session that [main] starts from its own grid and
    placement (on draws that [randrange(GRID_SIZE)] can give), at every
    point, whatever keys are pressed: the grid is the square of side
    [GRID_SIZE] with its [NUM_OBSTACLES] walls that the session started
    with; the player, both adversaries and the goal are inside the bounds
    on EMPTY tiles; the two adversaries are on distinct cells; and every
    armed trap is on an EMPTY tile inside the bounds. *)
Theorem session_invariants (file : memory_file) (draws : list cell)
    (g0 : game) (keys : list key) :
  draws_ok draws → start_game file draws = Some g0 →
  let g := state_of (play keys g0 file).1 in
  grid g = grid g0
  ∧ grid_ok (grid g)
  ∧ Z.of_nat (wall_count (grid g)) = NUM_OBSTACLES
  ∧ open_cell (grid g) (player_pos g)
  ∧ open_cell (grid g) (ai_pos g)
  ∧ open_cell (grid g) (ai2_pos g)
  ∧ open_cell (grid g) (goal_pos g)
  ∧ ai_pos g ≠ ai2_pos g
  ∧ (∀ c, c ∈ traps g → open_cell (grid g) c).
Proof.
  intros Hd Hstart g.
  apply start_game_session in Hstart as [Hinv _]; [|done].
  pose proof (play_session keys g0 file Hinv) as (? & ? & (? & ? & ?) & ? & ? & ?).
  destruct Hinv as (Hok & _ & Hopen & _).
  destruct (play_open keys g0 file Hok Hopen) as [Hgrid _].
  done.
Qed.

Lemma demo_session_draws_ok : draws_ok demo_session_draws.
Proof. repeat constructor. Qed.

Lemma session_invariants_witness :
  ∃ g0, start_game NoFile demo_session_draws = Some g0
        ∧ ai_pos (state_of (play [key_t; key_arrow south; key_other] g0 NoFile).1)
          ≠ ai2_pos (state_of (play [key_t; key_arrow south; key_other] g0 NoFile).1).
Proof.
  exists (default (new_game NoFile empty_grid (0, 0) (0, 0) (0, 0) (0, 0))
            (start_game NoFile demo_session_draws)).
  assert (start_game NoFile demo_session_draws
          = Some (default (new_game NoFile empty_grid (0, 0) (0, 0) (0, 0) (0, 0))
                    (start_game NoFile demo_session_draws))) as Hstart
    by (vm_compute; reflexivity).
  split; [exact Hstart|].
  destruct (session_invariants NoFile demo_session_draws _
              [key_t; key_arrow south; key_other] demo_session_draws_ok Hstart)
    as (_ & _ & _ & _ & _ & _ & _ & Hne & _).
  exact Hne.
Defined.

(* ===================================================================== *)
(** ** Rendering: properties *)
(* ===================================================================== *)

(** X16. What [draw] shows of a cell of the grid, the player, the
    adversaries, the goal and the traps all being on open cells: a WALL
    tile is always shown as a wall; the player's cell, and no other,
    shows the player; an armed trap is shown only where a trap is armed
    and nothing else stands; and a cell shown empty holds an EMPTY tile,
    no entity and no trap. *)
Theorem draw_cell_spec (grid : grid_t)
    (player_pos ai_pos ai2_pos goal_pos : cell) (traps : gset cell)
    (r c : Z) (t : tile) :
  open_cell grid player_pos → open_cell grid ai_pos → open_cell grid ai2_pos →
  open_cell grid goal_pos → (∀ x, x ∈ traps → open_cell grid x) →
  tile_at grid r c = Some t →
  let shown := draw_cell t player_pos ai_pos ai2_pos goal_pos traps r c in
  (t = WALL → shown = glyph_WALL)
  ∧ (shown = glyph_PLAYER ↔ player_pos = (r, c))
  ∧ (shown = glyph_TRAP →
     (r, c) ∈ traps ∧ player_pos ≠ (r, c) ∧ ai_pos ≠ (r, c) ∧
     ai2_pos ≠ (r, c) ∧ goal_pos ≠ (r, c))
  ∧ (shown = glyph_EMPTY →
     t = EMPTY ∧ ((r, c) ∉ traps) ∧ player_pos ≠ (r, c) ∧ ai_pos ≠ (r, c) ∧
     ai2_pos ≠ (r, c) ∧ goal_pos ≠ (r, c)).
Proof.
  intros Hp Ha Hb Hg Ht Htile shown.
  assert (∀ x, open_cell grid x → x = (r, c) → t = EMPTY) as Hopen.
  { intros x [_ Hx] ->. simpl in Hx. congruence. }
  unfold shown, draw_cell.
  destruct (decide (player_pos = (r, c))) as [Ep|Ep].
  { pose proof (Hopen _ Hp Ep). split; [congruence|]. repeat split; done. }
  destruct (decide (ai_pos = (r, c))) as [Ea|Ea].
  { pose proof (Hopen _ Ha Ea). split; [congruence|]. repeat split; done. }
  destruct (decide (ai2_pos = (r, c))) as [Eb|Eb].
  { pose proof (Hopen _ Hb Eb). split; [congruence|]. repeat split; done. }
  destruct (decide (goal_pos = (r, c))) as [Eg|Eg].
  { pose proof (Hopen _ Hg Eg). split; [congruence|]. repeat split; done. }
  destruct (decide ((r, c) ∈ traps)) as [Et|Et].
  { pose proof (Hopen _ (Ht _ Et) eq_refl). split; [congruence|].
    repeat split; done. }
  destruct t; simpl; repeat split; done.
Qed.

Lemma draw_cell_spec_witness :
  draw_cell WALL (0, 0) (8, 8) (8, 0) (0, 8) {[ (1, 0) ]} 0 1 = glyph_WALL.
Proof.
  destruct (draw_cell_spec demo_grid (0, 0) (8, 8) (8, 0) (0, 8) {[ (1, 0) ]}
              0 1 WALL) as (Hwall & _).
  - split; reflexivity.
  - split; reflexivity.
  - split; reflexivity.
  - split; reflexivity.
  - intros x Hx. apply elem_of_singleton in Hx as ->. split; reflexivity.
  - reflexivity.
  - by apply Hwall.
Defined.

(* ===================================================================== *)
(** ** The Markov model: what it counts *)
(* ===================================================================== *)

Lemma markov_incr_count model ctx m ctx' m' :
  model_count (markov_incr model ctx m) ctx' m'
  = model_count model ctx' m' + (if decide (ctx = ctx' ∧ m = m') then 1 else 0).
Proof.
  unfold model_count, markov_incr.
  destruct (decide (ctx = ctx')) as [->|Hne].
  - rewrite dict_get_set_eq. simpl. unfold counter_incr. rewrite count_of_set.
    destruct (decide (m = m')) as [->|Hm].
    + rewrite decide_True by done. done.
    + rewrite decide_False by tauto. lia.
  - rewrite dict_get_set_ne by done. rewrite decide_False by tauto. lia.
Qed.

Lemma slice_length {A} (seq : list A) (k i : nat) :
  (k ≤ i)%nat → (i < length seq)%nat → length (slice seq (i - k) i) = k.
Proof.
  intros Hk Hi. unfold slice. rewrite length_take, length_drop. lia.
Qed.

Lemma markov_contexts_count seq i ctx m' :
  (i < length seq)%nat →
  ∀ n a model,
    model_count (markov_contexts seq i (List.seq a n) model) ctx m'
    = model_count model ctx m'
      + (if decide ((a ≤ length ctx < a + n)%nat
                    ∧ (length ctx ≤ i)%nat
                    ∧ slice seq (i - length ctx) i = ctx
                    ∧ seq !! i = Some m')
         then 1 else 0).
Proof.
  intros Hi. induction n as [|n IH]; intros a model.
  { simpl. rewrite decide_False by lia. lia. }
  cbn [List.seq markov_contexts].
  destruct (bool_decide (Z.of_nat i - Z.of_nat a < 0)) eqn:Hbreak.
  { apply bool_decide_eq_true_1 in Hbreak. rewrite decide_False by lia. lia. }
  apply bool_decide_eq_false_1 in Hbreak.
  destruct (lookup_lt_is_Some_2 seq i Hi) as [m Hm]. rewrite Hm.
  rewrite IH, markov_incr_count.
  assert (length (slice seq (i - a) i) = a) as Hlen by (apply slice_length; lia).
  destruct (decide (slice seq (i - a) i = ctx ∧ m = m')) as [[Hctx ->]|Hno].
  - assert (length ctx = a) as Ha by (by rewrite <- Hctx).
    rewrite decide_False by lia.
    rewrite decide_True; [lia|]. rewrite Ha. repeat split; try lia; done.
  - destruct (decide (length ctx = a)) as [Ha|Ha].
    + rewrite decide_False by lia. rewrite decide_False; [lia|].
      intros (_ & _ & Hctx & Hm'). apply Hno. rewrite Ha in Hctx.
      split; [done|congruence].
    + destruct (decide ((S a ≤ length ctx < S a + n)%nat ∧ _)) as [H1|H1].
      * rewrite decide_True; [lia|]. destruct H1 as (? & ? & ? & ?).
        repeat split; try lia; congruence.
      * rewrite decide_False; [lia|]. intros (? & ? & ? & ?). apply H1.
        repeat split; try lia; congruence.
Qed.

(** [seq[i-k:i]] is [ctx], of [k] moves, exactly when the moves before
    position [i] end with [ctx]. *)
Lemma slice_suffix {A} (seq ctx : list A) (i : nat) :
  (i ≤ length seq)%nat →
  (length ctx ≤ i)%nat ∧ slice seq (i - length ctx) i = ctx
  ↔ ctx `suffix_of` take i seq.
Proof.
  intros Hi. unfold slice. split.
  - intros [Hn <-]. rewrite take_drop_commute.
    replace (i - length ctx + (i - (i - length ctx)))%nat with i by lia.
    apply suffix_drop.
  - intros Hsuf. pose proof (suffix_length _ _ Hsuf) as Hlen.
    rewrite length_take in Hlen. split; [lia|].
    destruct Hsuf as [pre Hpre]. rewrite take_drop_commute.
    replace (i - length ctx + (i - (i - length ctx)))%nat with i by lia.
    rewrite Hpre. apply drop_app_length'.
    apply (f_equal length) in Hpre. rewrite length_take, length_app in Hpre. lia.
Qed.

Lemma markov_positions_count seq order ctx m :
  ∀ idx mo,
    Forall (λ i, (i < length seq)%nat) idx →
    model_count
      (fold_left (λ model i, markov_contexts seq i (List.seq 1 order) model)
         idx mo) ctx m
    = model_count mo ctx m
      + (if decide (1 ≤ length ctx ≤ order)%nat
         then Z.of_nat (length (filter
                (λ i, ctx `suffix_of` take i seq ∧ seq !! i = Some m) idx))
         else 0).
Proof.
  induction idx as [|i idx IH]; intros mo Hidx.
  { simpl. destruct (decide _); simpl; lia. }
  apply Forall_cons in Hidx as [Hi Hidx].
  cbn [fold_left]. rewrite IH by done.
  rewrite markov_contexts_count by done. rewrite filter_cons.
  pose proof (slice_suffix seq ctx i ltac:(lia)) as Hslice.
  destruct (decide (1 ≤ length ctx ≤ order)%nat) as [Hord|Hord].
  - destruct (decide (ctx `suffix_of` take i seq ∧ seq !! i = Some m))
      as [[Hs Hm]|Hp].
    + apply Hslice in Hs as [? ?]. rewrite decide_True by (repeat split; (lia || done)).
      cbn [length]. lia.
    + rewrite decide_False; [lia|]. intros (_ & Hn & Hs & Hm). apply Hp.
      split; [|done]. apply Hslice. done.
  - rewrite decide_False by lia. lia.
Qed.

Lemma markov_game_count order mo gc g ctx m :
  model_count (markov_game order (mo, gc) g).1 ctx m
  = model_count mo ctx m
    + (if decide (1 ≤ length ctx ≤ order)%nat
       then transitions ctx m (rec_moves g) else 0)
  ∧ count_of (markov_game order (mo, gc) g).2 m
    = count_of gc m + occurrences m (rec_moves g).
Proof.
  unfold markov_game. cbn [fst snd]. split.
  - rewrite markov_positions_count; [done|].
    apply Forall_forall. intros i Hi. apply elem_of_seq in Hi. lia.
  - apply count_of_update_seq.
Qed.

Lemma markov_fold_count order ctx m :
  ∀ games acc,
    model_count (fold_left (markov_game order) games acc).1 ctx m
    = model_count acc.1 ctx m
      + (if decide (1 ≤ length ctx ≤ order)%nat
         then total_transitions ctx m games else 0)
    ∧ count_of (fold_left (markov_game order) games acc).2 m
      = count_of acc.2 m + total_occurrences m games.
Proof.
  induction games as [|g games IH]; intros acc.
  { unfold total_transitions, total_occurrences. simpl.
    destruct (decide _); split; lia. }
  cbn [fold_left]. destruct (IH (markov_game order acc g)) as [-> ->].
  destruct acc as [mo gc].
  destruct (markov_game_count order mo gc g ctx m) as [-> ->].
  unfold total_transitions, total_occurrences. cbn [map foldr fst snd].
  destruct (decide _); split; lia.
Qed.

(** X17. What [build_markov_model] counts.  In the table it returns, the
    count of move [m] under a context [ctx] of 1 to [order] moves is the
    number of places, over all the games of the memory, where [m] comes
    right after the moves [ctx]: where the moves of the game before [m]
    end with [ctx].  Under the empty context, or one longer than
    [order], nothing is counted.  The global count of [m] is the number
    of times [m] occurs in the games of the memory.  A dictionary
    without the key ["games"] counts as one without games. *)
Theorem build_markov_model_counts (memory : memory) (order : nat)
    (ctx : list direction) (m : direction) :
  model_count (build_markov_model memory order).1 ctx m
  = (if decide (1 ≤ length ctx ≤ order)%nat
     then total_transitions ctx m (get_games memory) else 0)
  ∧ count_of (build_markov_model memory order).2 m
    = total_occurrences m (get_games memory)
  ∧ build_markov_model None order = build_markov_model (Some []) order.
Proof.
  unfold build_markov_model.
  destruct (markov_fold_count order ctx m (get_games memory) ([], [])) as [-> ->].
  unfold model_count, count_of. simpl. repeat split; lia.
Qed.

(** A game in which east comes after north, east once, after east once
    and after south once, and never after the two moves the game starts
    with. *)
Example build_markov_model_counts_example :
  let counts :=
    model_count
      (build_markov_model
         (Some [ {| rec_moves := [south; south; north; east; east; south; east];
                    rec_result := win; rec_grid := GRID_SIZE;
                    rec_successful_traps := 0 |} ]) 2).1 in
  counts [north; east] east = 1
  ∧ counts [east] east = 1
  ∧ counts [south] east = 1
  ∧ counts [south; south] east = 0
  ∧ counts [south; south] north = 1
  ∧ transitions [north; east] east [south; south; north; east; east; south; east]
    = 1.
Proof. vm_compute. repeat split; reflexivity. Qed.

Lemma play_model_fixed keys g file :
  model (state_of (play keys g file).1) = model g
  ∧ global_counts (state_of (play keys g file).1) = global_counts g.
Proof.
  assert (with_model (model g) (global_counts g) g = g) as Heta by (by destruct g).
  pose proof (play_with_model (model g) (global_counts g) keys g file) as Hplay.
  rewrite Heta in Hplay. apply (f_equal fst) in Hplay. cbn [fst] in Hplay.
  destruct (play keys g file).1 as [g'|r g'|r g']; simpl in *;
    injection Hplay as Hg; split;
    (by apply (f_equal model) in Hg) || (by apply (f_equal global_counts) in Hg).
Qed.

(** X18. The model learns a finished session: the model that the next
    session builds from the memory file counts what the model of this
    session counted, and in addition the moves of this session: each
    move once in the global counts, and once under each of the contexts
    of 1 and of 2 moves that come right before it (that the moves of the
    session before it end with).  The model in use at the end of the
    session is still the one built at its start. *)
Theorem model_learns_session (file file' : memory_file) (grid : grid_t)
    (start ai_start ai2_start goal : cell) (keys : list key)
    (result : result_t) (g : game) (ctx : list direction) (m : direction) :
  main file grid start ai_start ai2_start goal keys = (Over result g, file') →
  model g = (build_markov_model (load_memory file) MARKOV_ORDER).1
  ∧ global_counts g = (build_markov_model (load_memory file) MARKOV_ORDER).2
  ∧ model_count (build_markov_model (load_memory file') MARKOV_ORDER).1 ctx m
    = model_count (model g) ctx m
      + (if decide (1 ≤ length ctx ≤ 2)%nat
         then transitions ctx m (this_game_moves g) else 0)
  ∧ count_of (build_markov_model (load_memory file') MARKOV_ORDER).2 m
    = count_of (global_counts g) m + occurrences m (this_game_moves g).
Proof.
  unfold main. intros Hmain.
  pose proof (play_store keys
                (new_game file grid start ai_start ai2_start goal) file) as Hstore.
  destruct (play_model_fixed keys
              (new_game file grid start ai_start ai2_start goal) file)
    as [Hmodel Hcounts].
  rewrite Hmain in Hstore, Hmodel, Hcounts. cbn [fst state_of] in Hmodel, Hcounts.
  destruct Hstore as [_ Hstore].
  assert (model (new_game file grid start ai_start ai2_start goal)
          = (build_markov_model (load_memory file) MARKOV_ORDER).1
          ∧ global_counts (new_game file grid start ai_start ai2_start goal)
            = (build_markov_model (load_memory file) MARKOV_ORDER).2) as [Em Ec].
  { unfold new_game. by destruct (build_markov_model _ _). }
  rewrite Em in Hmodel. rewrite Ec in Hcounts.
  split; [done|]. split; [done|].
  rewrite Hmodel, Hcounts. unfold build_markov_model. rewrite Hstore.
  rewrite fold_left_app. cbn [fold_left].
  destruct (fold_left (markov_game MARKOV_ORDER) (get_games (load_memory file))
              ([], [])) as [mo gc].
  destruct (markov_game_count MARKOV_ORDER mo gc (saved_record result g) ctx m)
    as [-> ->].
  done.
Qed.

(** Two moves south then two moves east, and 'q': east has come once
    after south, east and once after south, south. *)
Lemma model_learns_session_witness :
  let session := main NoFile demo_grid (0, 0) (8, 8) (8, 0) (0, 8)
                   [key_arrow south; key_arrow south; key_arrow east;
                    key_arrow east; key_q] in
  session = (Over quit (state_of session.1), session.2)
  ∧ model_count (build_markov_model (load_memory session.2) MARKOV_ORDER).1
      [south; east] east = 1
  ∧ model_count (build_markov_model (load_memory session.2) MARKOV_ORDER).1
      [south; south] east = 1.
Proof.
  intros session.
  assert (session = (Over quit (state_of session.1), session.2)) as Hmain
    by (vm_compute; reflexivity).
  split; [exact Hmain|].
  destruct (model_learns_session _ _ _ _ _ _ _ _ _ _ [south; east] east Hmain)
    as (_ & _ & Hlearn1 & _).
  destruct (model_learns_session _ _ _ _ _ _ _ _ _ _ [south; south] east Hmain)
    as (_ & _ & Hlearn2 & _).
  split; [rewrite Hlearn1|rewrite Hlearn2]; vm_compute; reflexivity.
Defined.

(* ===================================================================== *)
(** ** The movement predictor: what it can return *)
(* ===================================================================== *)

Lemma fold_left_inv {A B} (P : A → Prop) (f : A → B → A) (l : list B) :
  (∀ a b, P a → P (f a b)) → ∀ a, P a → P (fold_left f l a).
Proof.
  intros Hf. induction l as [|b l IH]; intros a Ha; simpl; [done|].
  by apply IH, Hf.
Qed.

Lemma dict_set_keys_mono {K V} `{EqDecision K} (d : list (K * V)) k v k' :
  k' ∈ map fst d → k' ∈ map fst (dict_set d k v).
Proof.
  intros Hk'. destruct (decide (k ∈ map fst d)) as [Hin|Hin].
  - by rewrite dict_set_keys_in.
  - rewrite dict_set_keys_new by done. apply elem_of_app. by left.
Qed.

Lemma dict_set_keys_self {K V} `{EqDecision K} (d : list (K * V)) k v :
  k ∈ map fst (dict_set d k v).
Proof.
  destruct (decide (k ∈ map fst d)) as [Hin|Hin].
  - by rewrite dict_set_keys_in.
  - rewrite dict_set_keys_new by done. apply elem_of_app. right.
    by apply list_elem_of_singleton.
Qed.

Lemma fold_set_keys (f : scores → direction → num) (m : direction) :
  ∀ ks (c : scores), m ∈ ks →
    m ∈ map fst (fold_left (λ c m, dict_set c m (f c m)) ks c).
Proof.
  induction ks as [|k ks IH]; intros c Hm; [by apply elem_of_nil in Hm|].
  cbn [fold_left]. apply elem_of_cons in Hm as [->|Hm]; [|by apply IH].
  apply (fold_left_inv (λ c : scores, k ∈ map fst c)).
  - intros a b Ha. by apply dict_set_keys_mono.
  - apply dict_set_keys_self.
Qed.

Lemma scores_update_ok (self : scores) (other : counter) :
  dict_ok self → dict_ok (scores_update self other).
Proof.
  unfold scores_update. apply (fold_left_inv (λ c : scores, dict_ok c)).
  intros a [elem count] Ha. by apply dict_set_ok.
Qed.

Lemma predict_scores_ok this_game_moves model global_counts order :
  dict_ok (predict_scores this_game_moves model global_counts order).
Proof.
  unfold predict_scores.
  apply (fold_left_inv (λ c : scores, dict_ok c));
    [intros a b Ha; by apply dict_set_ok|].
  apply (fold_left_inv (λ c : scores, dict_ok c));
    [intros a b Ha; by apply dict_set_ok|].
  apply (fold_left_inv (λ c : scores, dict_ok c)).
  - intros a k Ha. destruct (bool_decide _); [|done]. by apply scores_update_ok.
  - constructor.
Qed.

Lemma choose_scan_key r : ∀ items acc k,
  choose_scan r acc items = Some k → k ∈ map fst items.
Proof.
  induction items as [|[k' v] items IH]; intros acc k; simpl; [done|].
  destruct (py_le _ _).
  - intros [= ->]. apply elem_of_cons. by left.
  - intros Hk. apply elem_of_cons. right. by eapply IH.
Qed.

Lemma last_key {K V} (items : list (K * V)) (first : K * V) :
  first ∈ items → (List.last items first).1 ∈ map fst items.
Proof.
  intros Hfirst. apply list_elem_of_fmap_2.
  destruct items as [|x items]; [by apply elem_of_nil in Hfirst|].
  clear Hfirst. revert x. induction items as [|y items IH]; intros x.
  - apply elem_of_cons. by left.
  - change (List.last (x :: y :: items) first) with (List.last (y :: items) first).
    apply elem_of_cons. right. apply IH.
Qed.

(** An [int] and a [float] are compared by value: beyond [2 ^ 53], where
    converting the [int] would round it, the comparison still tells them
    apart; and the draw of [choose_from_counter] on such counts. *)
Example py_le_exact :
  py_le (Int (2 ^ 53 + 1)) (Float 9007199254740992) = false
  ∧ py_le (Float 9007199254740992) (Int (2 ^ 53 + 1)) = true
  ∧ py_le (Float 9007199254740994) (Int (2 ^ 53 + 1)) = false
  ∧ py_le (Float 3.5) (Int 3) = false
  ∧ py_le (Float (-0.5)) (Int 0) = true
  ∧ choose_from_counter 0.5 north
      [ (north, Int (2 ^ 53 + 3)); (south, Int (2 ^ 53 + 5)) ] = south.
Proof. vm_compute. repeat split; reflexivity. Qed.

(** X19. On an empty dictionary [choose_from_counter] returns the
    direction that [random.choice] draws.  On any other dictionary it
    returns one of the dictionary's keys, and the same one whatever
    [random.choice] would have drawn. *)
Theorem choose_from_counter_spec (rnd : float) (pick : direction)
    (counter_dict : scores) :
  choose_from_counter rnd pick [] = pick
  ∧ (counter_dict ≠ [] →
     choose_from_counter rnd pick counter_dict ∈ map fst counter_dict
     ∧ ∀ pick', choose_from_counter rnd pick' counter_dict
                = choose_from_counter rnd pick counter_dict).
Proof.
  split; [done|]. intros Hne.
  destruct counter_dict as [|first rest]; [done|]. split; [|done].
  unfold choose_from_counter.
  destruct (choose_scan _ _ _) as [k|] eqn:Hscan.
  - by eapply choose_scan_key.
  - apply last_key, elem_of_cons. by left.
Qed.

(** X20. The dictionary that [predict_next_move] hands to
    [choose_from_counter] has the four directions as its keys, each
    once, whatever the model holds.  So the prediction never falls back
    on [random.choice]: it is the same whatever that would draw, and it
    is a key of the dictionary. *)
Theorem predict_next_move_keys (this_game_moves : list direction)
    (model : markov) (global_counts : counter) (order : nat)
    (rnd : float) (pick : direction) :
  map fst (predict_scores this_game_moves model global_counts order)
    ≡ₚ DIRS_keys
  ∧ (∀ pick', predict_next_move this_game_moves model global_counts order rnd pick'
              = predict_next_move this_game_moves model global_counts order rnd pick)
  ∧ predict_next_move this_game_moves model global_counts order rnd pick
    ∈ map fst (predict_scores this_game_moves model global_counts order).
Proof.
  assert (∀ m, m ∈ map fst (predict_scores this_game_moves model global_counts order))
    as Hall.
  { intros m. unfold predict_scores.
    apply (fold_set_keys (λ c m, py_add (score_of c m) (Float PREDICT_FUZZ))).
    apply DIRS_keys_all. }
  split.
  { apply NoDup_Permutation.
    - apply predict_scores_ok.
    - apply DIRS_keys_NoDup.
    - intros m. split; intros _; [apply DIRS_keys_all|apply Hall]. }
  unfold predict_next_move.
  destruct (predict_scores this_game_moves model global_counts order)
    as [|first rest] eqn:Hscores.
  { specialize (Hall north). by apply elem_of_nil in Hall. }
  split; [done|].
  unfold choose_from_counter.
  destruct (choose_scan _ _ _) as [k|] eqn:Hscan.
  - by eapply choose_scan_key.
  - apply last_key, elem_of_cons. by left.
Qed.

(* ===================================================================== *)
(** ** Menu and statistics: properties *)
(* ===================================================================== *)

Lemma show_menu_loop_spec : ∀ keys selected,
  0 <= selected < options_len →
  match show_menu_loop selected keys with
  | Some (s, rest) =>
      0 <= s < options_len
      ∧ ∃ pre, keys = pre ++ menu_enter :: rest ∧ (menu_enter ∉ pre)
               ∧ selected - presses menu_up pre <= s
                 <= selected + presses menu_down pre
  | None => menu_enter ∉ keys
  end.
Proof.
  unfold options_len, presses.
  induction keys as [|ch keys IH]; intros selected Hsel.
  { simpl. apply not_elem_of_nil. }
  assert (∀ s', 0 <= s' < 3 → ch ≠ menu_enter →
            selected - (if decide (ch = menu_up) then 1 else 0) <= s'
              <= selected + (if decide (ch = menu_down) then 1 else 0) →
            match show_menu_loop s' keys with
            | Some (s, rest) =>
                0 <= s < 3
                ∧ ∃ pre, ch :: keys = pre ++ menu_enter :: rest
                         ∧ (menu_enter ∉ pre)
                         ∧ selected
                           - Z.of_nat (length (filter (λ x, x = menu_up) pre)) <= s
                           <= selected
                              + Z.of_nat (length (filter (λ x, x = menu_down) pre))
            | None => menu_enter ∉ ch :: keys
            end) as Hstep.
  { intros s' Hs' Hch Hmove. specialize (IH s' Hs').
    destruct (show_menu_loop s' keys) as [[s rest]|].
    - destruct IH as (Hs & pre & -> & Hpre & Hbound). split; [done|].
      exists (ch :: pre). split; [done|]. split.
      + apply not_elem_of_cons. split; [by apply not_eq_sym|done].
      + rewrite !filter_cons.
        destruct (decide (ch = menu_up)), (decide (ch = menu_down));
          simpl; lia.
    - apply not_elem_of_cons. split; [by apply not_eq_sym|done]. }
  destruct ch; cbn [show_menu_loop]; unfold options_len.
  - apply Hstep; [|done|].
    + destruct (bool_decide (selected > 0)) eqn:E; [|lia].
      apply bool_decide_eq_true_1 in E. lia.
    + rewrite decide_True by done. rewrite decide_False by done.
      destruct (bool_decide (selected > 0)); lia.
  - apply Hstep; [|done|].
    + destruct (bool_decide (selected < 3 - 1)) eqn:E; [|lia].
      apply bool_decide_eq_true_1 in E. lia.
    + rewrite decide_False by done. rewrite decide_True by done.
      destruct (bool_decide (selected < 3 - 1)); lia.
  - split; [done|]. exists []. split; [done|]. split; [apply not_elem_of_nil|].
    simpl. lia.
  - apply Hstep; [done|done|].
    rewrite !decide_False by done. lia.
Qed.

(** X21. [show_menu] returns at the first Enter among the keys pressed,
    leaving the keys after it unread, and not before.  The index it
    returns is one of the three entries of the menu; it is at most the
    number of times Down was pressed before that Enter. *)
Theorem show_menu_spec (keys : list menu_key) :
  match show_menu keys with
  | Some (s, rest) =>
      0 <= s < options_len
      ∧ s <= presses menu_down (take (length keys - S (length rest)) keys)
      ∧ keys = take (length keys - S (length rest)) keys ++ menu_enter :: rest
      ∧ (menu_enter ∉ take (length keys - S (length rest)) keys)
  | None => menu_enter ∉ keys
  end.
Proof.
  unfold show_menu.
  pose proof (show_menu_loop_spec keys 0) as Hloop.
  destruct (show_menu_loop 0 keys) as [[s rest]|]; [|by apply Hloop].
  destruct Hloop as (Hs & pre & -> & Hpre & Hbound); [by unfold options_len|].
  assert (take (length (pre ++ menu_enter :: rest) - S (length rest))
            (pre ++ menu_enter :: rest) = pre) as ->.
  { rewrite length_app. cbn [length].
    replace (length pre + S (length rest) - S (length rest))%nat
      with (length pre) by lia.
    by rewrite take_app_length. }
  repeat split; try done; lia.
Qed.

Lemma count_result_total games :
  count_result win games + count_result loss games + count_result quit games
  = Z.of_nat (length games).
Proof.
  unfold count_result. induction games as [|g games IH]; [done|].
  rewrite !filter_cons. cbn [length].
  destruct (rec_result g); simpl; lia.
Qed.

Lemma count_result_snoc result games g :
  count_result result (games ++ [g])
  = count_result result games + (if decide (rec_result g = result) then 1 else 0).
Proof.
  unfold count_result. rewrite filter_app, length_app, filter_cons.
  destruct (decide _); simpl; lia.
Qed.

Lemma sum_over_snoc f games g : sum_over f (games ++ [g]) = sum_over f games + f g.
Proof. unfold sum_over. by rewrite fold_left_app. Qed.

(** X22. The numbers of [show_stats].  Wins, losses and quits add up to
    the number of games in the memory; with no memory file, an
    unreadable one, one without the key ["games"] or an empty list every
    number is the integer 0.  A session that [save_game] records ([save_game]
    returns, which it does on every file but one without the key
    ["games"]) adds one game, one to the count of its result and to no
    other, and its stunned adversaries to the total of traps; the win
    rate is then a float, a hundred times the quotient of wins by
    games. *)
Theorem show_stats_spec (file : memory_file) :
  let s := show_stats file in
  stat_wins s + stat_losses s + stat_quits s = stat_total s
  ∧ 0 <= stat_wins s ∧ 0 <= stat_losses s ∧ 0 <= stat_quits s
  ∧ (get_games (load_memory file) = [] →
     s = {| stat_total := 0; stat_wins := 0; stat_losses := 0; stat_quits := 0;
            stat_win_rate := Int 0; stat_avg_moves := Int 0;
            stat_total_traps := 0; stat_avg_traps := Int 0 |})
  ∧ ∀ moves result successful_traps,
      match save_game moves result successful_traps file with
      | Some file' =>
          let s' := show_stats file' in
          stat_total s' = stat_total s + 1
          ∧ stat_wins s' = stat_wins s + (if decide (result = win) then 1 else 0)
          ∧ stat_losses s'
            = stat_losses s + (if decide (result = loss) then 1 else 0)
          ∧ stat_quits s'
            = stat_quits s + (if decide (result = quit) then 1 else 0)
          ∧ stat_total_traps s' = stat_total_traps s + successful_traps
          ∧ stat_win_rate s'
            = Float (py_truediv (stat_wins s') (stat_total s')
                     * float_of_int 100)%float
      | None => file = NoGames
      end.
Proof.
  cbn zeta. split; [apply count_result_total|].
  split; [unfold show_stats, count_result; simpl; lia|].
  split; [unfold show_stats, count_result; simpl; lia|].
  split; [unfold show_stats, count_result; simpl; lia|].
  split.
  { intros Hempty. unfold show_stats. rewrite Hempty. reflexivity. }
  intros moves result st. unfold save_game.
  destruct (load_memory file) as [games|] eqn:Hload; [|by destruct file].
  unfold show_stats. rewrite Hload.
  change (get_games (load_memory (Games ?l))) with l.
  change (get_games (Some games)) with games.
  cbn [stat_total stat_wins stat_losses stat_quits stat_total_traps
       stat_win_rate].
  rewrite !count_result_snoc, sum_over_snoc, length_app. cbn [length rec_result
    rec_successful_traps].
  split; [lia|]. split; [done|]. split; [done|]. split; [done|]. split; [done|].
  rewrite decide_False by lia. done.
Qed.
